(** * Juke shared-memory bridge: audio ring and display region

    A shallow embedding of the two QEMU back ends that hand PCM audio and
    the framebuffer to the Juke renderer through mmap'd shared memory:

    - the audio back end ([juke_write], [juke_init_out], [juke_audio_send_fd],
      [juke_audio_connect]);
    - the display back end ([juke_shmem_gfx_switch], [juke_shmem_gfx_update],
      [juke_shmem_process_input], [juke_shmem_cursor_define],
      [juke_shmem_mouse_set], [juke_shmem_refresh], [juke_shmem_send_fd],
      [juke_shmem_connect]).

    Each callback is a computation in a small state-and-trace monad.  The
    state is the C state structure; the trace records, in program order,
    every write to the shared region (with the memory order the source asks
    for) and every call to the host (sockets, allocator, input sink, rate
    controller) together with the value the host answered. *)

From Stdlib Require Import ZArith List Lia Bool String.
From stdpp Require Import base numbers list.
Import ListNotations.
Local Open Scope Z_scope.

(** ** Machine integers *)

(** [uint32_t]: values are reduced modulo 2^32. *)
Definition wrap32 (z : Z) : Z := z mod 2 ^ 32.

(** [uint64_t] and [size_t] (LP64 host): values are reduced modulo 2^64. *)
Definition wrap64 (z : Z) : Z := z mod 2 ^ 64.

(** [int32_t] / [int]: two's complement value of the low 32 bits. *)
Definition int32 (z : Z) : Z := (z + 2 ^ 31) mod 2 ^ 32 - 2 ^ 31.

(** [uint8_t]. *)
Definition wrap8 (z : Z) : Z := z mod 2 ^ 8.

Definition INT_MAX : Z := 2 ^ 31 - 1.

(** ** Host calls and the event trace *)

Inductive memorder := Relaxed | Acquire | Release.

Inductive InputAxis := INPUT_AXIS_X | INPUT_AXIS_Y.

(** Calls that leave the back end.  The host's answer is recorded next to
    the call in the trace. *)
Inductive HostCall :=
| Socket                                   (* socket(AF_UNIX, SOCK_STREAM, 0) *)
| Connect (fd : Z) (path : string)         (* connect(fd, sun_path) *)
| Close (fd : Z)                           (* close(fd) *)
| Sendmsg (sock : Z) (fd : Z)              (* sendmsg: 1 byte + SCM_RIGHTS fd *)
| ErrorReport (msg : string)               (* error_report(...) *)
| MemfdAlloc (name : string) (size : Z)    (* qemu_memfd_alloc *)
| MemfdFree (size : Z) (fd : Z)            (* qemu_memfd_free *)
| AudioPcmInitInfo (freq nchannels : Z)    (* audio_pcm_init_info; answers bytes_per_frame *)
| AudioRateStart                           (* audio_rate_start *)
| AudioRateGetBytes (len : Z)              (* audio_rate_get_bytes *)
| InputQueueRel (axis : InputAxis) (v : Z)
| InputQueueAbs (axis : InputAxis) (v lo hi : Z)
| InputQueueBtn (btn : Z) (down : Z)
| InputSendKeyNumber (num : Z) (down : Z)
| InputEventSync
| GraphicHwUpdate.

Inductive Event (L : Type) :=
| EvStore (l : L) (v : Z)                       (* plain store *)
| EvMemcpy (l : L) (len : Z)                    (* memcpy into the region *)
| EvAtomicLoad (l : L) (o : memorder) (v : Z)   (* __atomic_load_n *)
| EvAtomicStore (l : L) (v : Z) (o : memorder)  (* __atomic_store_n *)
| EvAtomicAdd (l : L) (v : Z) (o : memorder)    (* __atomic_fetch_add *)
| EvFence (o : memorder)                        (* __atomic_thread_fence *)
| EvCall (c : HostCall) (r : Z).                (* host call and its answer *)
Arguments EvStore {L}. Arguments EvMemcpy {L}.
Arguments EvAtomicLoad {L}. Arguments EvAtomicStore {L}.
Arguments EvAtomicAdd {L}. Arguments EvFence {L}. Arguments EvCall {L}.

(** An event is atomic when it comes from one of the [__atomic_*] builtins. *)
Definition is_atomic {L} (e : Event L) : bool :=
  match e with
  | EvAtomicLoad _ _ _ | EvAtomicStore _ _ _ | EvAtomicAdd _ _ _ | EvFence _ => true
  | _ => false
  end.

(** ** The monad of a callback *)

Inductive Outcome (A : Type) :=
| Done (a : A)
| Fault          (* NULL dereference, out-of-bounds copy, division by zero *)
| Timeout.       (* the loop fuel of the model ran out *)
Arguments Done {A}. Arguments Fault {A}. Arguments Timeout {A}.

Section Monad.
Context {St L : Type}.

(** The host: its answer to a call may depend on everything that
    happened before. *)
Definition Host := list (Event L) -> HostCall -> Z.

Definition M (A : Type) : Type :=
  St -> list (Event L) -> Outcome (A * St * list (Event L)).

Definition ret {A} (a : A) : M A := fun s t => Done (a, s, t).

Definition bind {A B} (m : M A) (k : A -> M B) : M B :=
  fun s t =>
    match m s t with
    | Done (a, s', t') => k a s' t'
    | Fault => Fault
    | Timeout => Timeout
    end.

Definition get : M St := fun s t => Done (s, s, t).
Definition put (s : St) : M unit := fun _ t => Done (tt, s, t).
Definition emit (e : Event L) : M unit := fun s t => Done (tt, s, t ++ [e]).
Definition fault {A} : M A := fun _ _ => Fault.
Definition timeout {A} : M A := fun _ _ => Timeout.

Definition call (host : Host) (c : HostCall) : M Z :=
  fun s t => Done (host t c, s, t ++ [EvCall c (host t c)]).

(** A call to a [void] host function: nothing is answered. *)
Definition notify (c : HostCall) : M unit := emit (EvCall c 0).

(** [if (c) { m }] *)
Definition when (c : bool) (m : M unit) : M unit :=
  if c then m else ret tt.
End Monad.
Arguments Host : clear implicits.
Arguments M : clear implicits.

Declare Scope juke_scope.
Delimit Scope juke_scope with juke.
Notation "'let!' x ':=' m 'in' k" := (bind m (fun x => k))
  (at level 10, x name, m at level 100, k at level 200,
   format "'[v' 'let!'  x  ':='  m  'in' '/' k ']'") : juke_scope.
Notation "'do!' m 'in' k" := (bind m (fun _ => k))
  (at level 10, m at level 100, k at level 200,
   format "'[v' 'do!'  m  'in' '/' k ']'") : juke_scope.

(** ** Memory copies on byte lists *)

(** [memcpy(dst + off, src + soff, n)]: defined only when both ranges lie
    inside their objects. *)
Definition memcpy (dst : list Z) (off : Z) (src : list Z) (soff n : Z)
  : option (list Z) :=
  if (0 <=? off) && (0 <=? soff) && (0 <=? n)
     && (off + n <=? Z.of_nat (length dst))
     && (soff + n <=? Z.of_nat (length src))
  then Some (list_inserts (Z.to_nat off)
               (take (Z.to_nat n) (drop (Z.to_nat soff) src)) dst)
  else None.

(** Reading index [i] of a C array modelled as a list. *)
Definition zidx {A} (l : list A) (i : Z) : option A :=
  if 0 <=? i then l !! Z.to_nat i else None.

(** [strncpy(addr.sun_path, path, sizeof(addr.sun_path) - 1)] into a zeroed
    [sockaddr_un] ([sun_path] has 108 bytes on Linux). *)
Definition sun_path (path : string) : string := String.substring 0 107 path.

(** An event that is a call to the host (no access to the shared region). *)
Definition is_call {L} (e : Event L) : bool :=
  match e with EvCall _ _ => true | _ => false end.

(** An event that changes the shared region. *)
Definition writes_region {L} (e : Event L) : bool :=
  match e with
  | EvStore _ _ | EvMemcpy _ _ | EvAtomicStore _ _ _ | EvAtomicAdd _ _ _ => true
  | _ => false
  end.

(** Bytes copied into the region by the [memcpy]s of a trace. *)
Fixpoint copied_bytes {L} (tr : list (Event L)) : Z :=
  match tr with
  | [] => 0
  | EvMemcpy _ n :: tr' => n + copied_bytes tr'
  | _ :: tr' => copied_bytes tr'
  end.


(** ** What a computation leaves alone *)

Section Frames.
Context {St L : Type}.

(** Every completed run of [m] takes the state to one that [R] relates to
    the state it started from, and adds to the trace only events that
    satisfy [Q]. *)
Definition confined (R : St -> St -> Prop) (Q : Event L -> Prop)
    {A} (m : M St L A) : Prop :=
  forall s t a s' t',
    m s t = Done (a, s', t') ->
    R s s' /\ exists tr, t' = t ++ tr /\ Forall Q tr.
End Frames.

(** A renderer that is listening: sockets can be made, connections and
    descriptors are accepted. *)
Definition listening {L} (host : Host L) : Prop :=
  forall t,
    0 <= host t Socket /\
    (forall fd path, 0 <= host t (Connect fd path)) /\
    (forall sock fd, 0 <= host t (Sendmsg sock fd)).
(** * The audio back end *)

Module Audio.

Definition JUKE_AUDIO_MAGIC : Z := 0x4455414A.
Definition JUKE_AUDIO_VERSION : Z := 2.
Definition JUKE_AUDIO_RING_FRAMES : Z := 8192.
Definition JUKE_AUDIO_FMT_S16LE : Z := 1.
Definition JUKE_AUDIO_FMT_F32LE : Z := 2.

(** [sizeof(JukeAudioHeader)]: sixteen [uint32_t]. *)
Definition sizeof_JukeAudioHeader : Z := 64.

Record JukeAudioHeader := {
  magic : Z; version : Z; sample_rate : Z; channels : Z; format : Z;
  ring_frames : Z; write_idx : Z; read_idx : Z; enabled : Z; muted : Z;
  volume_left : Z; volume_right : Z
}.

Inductive Field :=
| F_magic | F_version | F_sample_rate | F_channels | F_format | F_ring_frames
| F_write_idx | F_read_idx | F_enabled | F_muted | F_volume_left
| F_volume_right.

Definition get_field (f : Field) (h : JukeAudioHeader) : Z :=
  match f with
  | F_magic => magic h | F_version => version h
  | F_sample_rate => sample_rate h | F_channels => channels h
  | F_format => format h | F_ring_frames => ring_frames h
  | F_write_idx => write_idx h | F_read_idx => read_idx h
  | F_enabled => enabled h | F_muted => muted h
  | F_volume_left => volume_left h | F_volume_right => volume_right h
  end.

Definition set_field (f : Field) (v : Z) (h : JukeAudioHeader) : JukeAudioHeader :=
  let '(Build_JukeAudioHeader a b c d e g i j k l m n) := h in
  match f with
  | F_magic => Build_JukeAudioHeader v b c d e g i j k l m n
  | F_version => Build_JukeAudioHeader a v c d e g i j k l m n
  | F_sample_rate => Build_JukeAudioHeader a b v d e g i j k l m n
  | F_channels => Build_JukeAudioHeader a b c v e g i j k l m n
  | F_format => Build_JukeAudioHeader a b c d v g i j k l m n
  | F_ring_frames => Build_JukeAudioHeader a b c d e v i j k l m n
  | F_write_idx => Build_JukeAudioHeader a b c d e g v j k l m n
  | F_read_idx => Build_JukeAudioHeader a b c d e g i v k l m n
  | F_enabled => Build_JukeAudioHeader a b c d e g i j v l m n
  | F_muted => Build_JukeAudioHeader a b c d e g i j k v m n
  | F_volume_left => Build_JukeAudioHeader a b c d e g i j k l v n
  | F_volume_right => Build_JukeAudioHeader a b c d e g i j k l m v
  end.

(** Places of the shared region a write can go to. *)
Inductive Loc :=
| Hdr (f : Field)
| RingData (off : Z).   (* byte offset into the samples after the header *)

(** The mapped region: the header, then the sample bytes. *)
Record Region := { hdr : JukeAudioHeader; ring_data : list Z }.

Record JukeAudioState := {
  shmem : option Region;        (* NULL until allocated *)
  shmem_size : Z;
  shmem_fd : Z;
  socket_path : option string;
  client_fd : Z;
  fd_sent : bool
}.

(** [JukeVoiceOut]: [hw.info.bytes_per_frame], [hw.samples] and the pointer
    to the driver state.  The rate controller belongs to the host. *)
Record JukeVoiceOut := {
  bytes_per_frame : Z;
  samples : Z;
  state : option JukeAudioState
}.

Record audsettings := { freq : Z; nchannels : Z; fmt_is_f32 : bool }.

Definition set_state (s : JukeAudioState) (j : JukeVoiceOut) : JukeVoiceOut :=
  {| bytes_per_frame := bytes_per_frame j; samples := samples j; state := Some s |}.

Definition set_shmem (r : option Region) (s : JukeAudioState) : JukeAudioState :=
  {| shmem := r; shmem_size := shmem_size s; shmem_fd := shmem_fd s;
     socket_path := socket_path s; client_fd := client_fd s; fd_sent := fd_sent s |}.

Definition set_shmem_size (n : Z) (s : JukeAudioState) : JukeAudioState :=
  {| shmem := shmem s; shmem_size := n; shmem_fd := shmem_fd s;
     socket_path := socket_path s; client_fd := client_fd s; fd_sent := fd_sent s |}.

Definition set_shmem_fd (fd : Z) (s : JukeAudioState) : JukeAudioState :=
  {| shmem := shmem s; shmem_size := shmem_size s; shmem_fd := fd;
     socket_path := socket_path s; client_fd := client_fd s; fd_sent := fd_sent s |}.

Definition set_client_fd (fd : Z) (s : JukeAudioState) : JukeAudioState :=
  {| shmem := shmem s; shmem_size := shmem_size s; shmem_fd := shmem_fd s;
     socket_path := socket_path s; client_fd := fd; fd_sent := fd_sent s |}.

Definition set_fd_sent (b : bool) (s : JukeAudioState) : JukeAudioState :=
  {| shmem := shmem s; shmem_size := shmem_size s; shmem_fd := shmem_fd s;
     socket_path := socket_path s; client_fd := client_fd s; fd_sent := b |}.

Definition set_hdr (h : JukeAudioHeader) (r : Region) : Region :=
  {| hdr := h; ring_data := ring_data r |}.

Definition set_ring_data (d : list Z) (r : Region) : Region :=
  {| hdr := hdr r; ring_data := d |}.

Local Open Scope juke_scope.

Section Callbacks.
Variable host : Host Loc.

Local Abbreviation M := (M JukeVoiceOut Loc).

(** [juke->state], a fault when it is NULL. *)
Definition the_state : M JukeAudioState :=
  let! juke := get in
  match state juke with Some s => ret s | None => fault end.

Definition modify_state (f : JukeAudioState -> JukeAudioState) : M unit :=
  let! s := the_state in
  let! juke := get in
  put (set_state (f s) juke).

(** [s->shmem], a fault when it is NULL. *)
Definition the_region : M Region :=
  let! s := the_state in
  match shmem s with Some r => ret r | None => fault end.

Definition modify_region (f : Region -> Region) : M unit :=
  let! r := the_region in
  modify_state (set_shmem (Some (f r))).

(** [hdr->f] *)
Definition load (f : Field) : M Z :=
  let! r := the_region in ret (get_field f (hdr r)).

(** [hdr->f = v] *)
Definition store (f : Field) (v : Z) : M unit :=
  do! modify_region (fun r => set_hdr (set_field f (wrap32 v) (hdr r)) r) in
  emit (EvStore (Hdr f) (wrap32 v)).

(** [__atomic_load_n(&hdr->f, o)] *)
Definition atomic_load (f : Field) (o : memorder) : M Z :=
  let! v := load f in
  do! emit (EvAtomicLoad (Hdr f) o v) in
  ret v.

(** [__atomic_store_n(&hdr->f, v, o)] *)
Definition atomic_store (f : Field) (v : Z) (o : memorder) : M unit :=
  do! modify_region (fun r => set_hdr (set_field f (wrap32 v) (hdr r)) r) in
  emit (EvAtomicStore (Hdr f) (wrap32 v) o).

(** [memcpy(ring_data + off, buf + soff, n)] *)
Definition ring_memcpy (off : Z) (buf : list Z) (soff n : Z) : M unit :=
  let! r := the_region in
  match memcpy (ring_data r) off buf soff n with
  | Some d =>
      do! modify_region (set_ring_data d) in
      emit (EvMemcpy (RingData off) n)
  | None => fault
  end.

Definition juke_audio_send_fd : M unit :=
  let! s := the_state in
  if (client_fd s <? 0) || (shmem_fd s <? 0) || fd_sent s then ret tt
  else
    let! sent := call host (Sendmsg (client_fd s) (shmem_fd s)) in
    if sent <? 0 then
      notify (ErrorReport "juke-audio: failed to send fd")
    else
      do! modify_state (set_fd_sent true) in
      notify (ErrorReport "juke-audio: sent shmem fd to Juke").

Definition juke_audio_connect : M Z :=
  let! s := the_state in
  if bool_decide (socket_path s = None) || (0 <=? client_fd s) then
    ret (if 0 <=? client_fd s then 0 else -1)
  else
    let! fd := call host Socket in
    if fd <? 0 then ret (-1)
    else
      let! c := call host (Connect fd (sun_path (default EmptyString (socket_path s)))) in
      if c <? 0 then
        do! notify (Close fd) in
        ret (-1)
      else
        do! notify (ErrorReport "juke-audio: connected") in
        do! modify_state (set_client_fd fd) in
        do! modify_state (set_fd_sent false) in
        let! s := the_state in
        do! when (0 <=? shmem_fd s) juke_audio_send_fd in
        ret 0.

(** [!s || !s->shmem] *)
Definition not_ready (juke : JukeVoiceOut) : bool :=
  match state juke with
  | None => true
  | Some s => match shmem s with None => true | Some _ => false end
  end.

Definition juke_write (buf : list Z) (len : Z) : M Z :=
  let! juke := get in
  if not_ready juke then call host (AudioRateGetBytes len)
  else
    let! s := the_state in
    do! when (client_fd s <? 0) (let! _ := juke_audio_connect in ret tt) in
    let! s := the_state in
    do! when ((0 <=? client_fd s) && negb (fd_sent s)) juke_audio_send_fd in
    let! en := atomic_load F_enabled Acquire in
    if en =? 0 then call host (AudioRateGetBytes len)
    else
      let! ring_frames := load F_ring_frames in
      let! write_idx := load F_write_idx in
      let! read_idx := atomic_load F_read_idx Acquire in
      let used := Z.land (wrap32 (write_idx - read_idx)) (wrap32 (ring_frames - 1)) in
      let free_frames := wrap32 (wrap32 (ring_frames - used) - 1) in
      let frame_size := wrap64 (bytes_per_frame juke) in
      if frame_size =? 0 then fault
      else
        let frames_to_write := len / frame_size in
        let frames_to_write :=
          if frames_to_write >? free_frames then free_frames else frames_to_write in
        if frames_to_write =? 0 then call host (AudioRateGetBytes len)
        else
          let ring_bytes := wrap64 (ring_frames * frame_size) in
          let write_offset :=
            wrap64 (Z.land write_idx (wrap32 (ring_frames - 1)) * frame_size) in
          let bytes_to_write := wrap64 (frames_to_write * frame_size) in
          let first_chunk := wrap64 (ring_bytes - write_offset) in
          do! (if first_chunk >=? bytes_to_write then
                 ring_memcpy write_offset buf 0 bytes_to_write
               else
                 do! ring_memcpy write_offset buf 0 first_chunk in
                 ring_memcpy 0 buf first_chunk (bytes_to_write - first_chunk)) in
          do! atomic_store F_write_idx (write_idx + frames_to_write) Release in
          ret bytes_to_write.

(** A freshly mapped memfd of [size] bytes reads as zeros. *)
Definition fresh_region (size : Z) : Region :=
  {| hdr := Build_JukeAudioHeader 0 0 0 0 0 0 0 0 0 0 0 0;
     ring_data := replicate (Z.to_nat (size - sizeof_JukeAudioHeader)) 0 |}.

Definition juke_init_out (as_ : audsettings) (drv_opaque : JukeAudioState) : M Z :=
  let! juke := get in
  do! put (set_state drv_opaque juke) in
  let! bpf := call host (AudioPcmInitInfo (freq as_) (nchannels as_)) in
  let! juke := get in
  do! put {| bytes_per_frame := bpf; samples := JUKE_AUDIO_RING_FRAMES;
             state := state juke |} in
  do! notify AudioRateStart in
  let! s := the_state in
  match shmem s with
  | Some _ => ret 0
  | None =>
      let ring_bytes := wrap64 (int32 (JUKE_AUDIO_RING_FRAMES * bpf)) in
      let size := wrap64 (sizeof_JukeAudioHeader + ring_bytes) in
      do! modify_state (set_shmem_size size) in
      let! fd := call host (MemfdAlloc "juke-audio" size) in
      if fd <? 0 then
        do! notify (ErrorReport "juke-audio: failed to allocate shared memory") in
        ret (-1)
      else
        do! modify_state (set_shmem_fd fd) in
        do! modify_state (set_shmem (Some (fresh_region size))) in
        do! store F_magic JUKE_AUDIO_MAGIC in
        do! store F_version JUKE_AUDIO_VERSION in
        do! store F_sample_rate (freq as_) in
        do! store F_channels (nchannels as_) in
        do! store F_format (if fmt_is_f32 as_ then JUKE_AUDIO_FMT_F32LE
                            else JUKE_AUDIO_FMT_S16LE) in
        do! store F_ring_frames JUKE_AUDIO_RING_FRAMES in
        do! store F_write_idx 0 in
        do! store F_read_idx 0 in
        do! store F_enabled 0 in
        do! store F_muted 0 in
        do! store F_volume_left 255 in
        do! store F_volume_right 255 in
        do! notify (ErrorReport "juke-audio: initialized") in
        let! _ := juke_audio_connect in
        let! s := the_state in
        do! when ((0 <=? client_fd s) && negb (fd_sent s)) juke_audio_send_fd in
        ret 0
  end.

(** [n] calls of [juke_audio_send_fd] in a row. *)
Fixpoint send_fd_times (n : nat) : M unit :=
  match n with
  | O => ret tt
  | S n' => do! juke_audio_send_fd in send_fd_times n'
  end.

Definition juke_audio_init (path : option string) : JukeAudioState :=
  {| shmem := None; shmem_size := 0; shmem_fd := -1;
     socket_path := path; client_fd := -1; fd_sent := false |}.
End Callbacks.

(** ** Notions used to state the properties of the audio ring *)

(** The handshake code touches the socket fields only: the voice keeps its
    frame size and the driver state keeps its region. *)
Definition handshake_only (j j' : JukeVoiceOut) : Prop :=
  bytes_per_frame j' = bytes_per_frame j /\ samples j' = samples j /\
  exists s s', state j = Some s /\ state j' = Some s' /\
    shmem s' = shmem s /\ shmem_size s' = shmem_size s /\
    shmem_fd s' = shmem_fd s /\ socket_path s' = socket_path s.

(** [used = (write_idx - read_idx) & (ring_frames - 1)] *)
Definition used_frames (h : JukeAudioHeader) : Z :=
  Z.land (write_idx h - read_idx h) (ring_frames h - 1).

(** [free_frames = ring_frames - used - 1] *)
Definition free_frames (h : JukeAudioHeader) : Z :=
  ring_frames h - used_frames h - 1.

(** Byte offset of the slot [write_idx] points at. *)
Definition write_offset (bpf : Z) (h : JukeAudioHeader) : Z :=
  Z.land (write_idx h) (ring_frames h - 1) * bpf.

(** The region of a voice with frame size [bpf] is usable: the header
    fields are 32-bit values, the ring has at least one frame and the
    mapping holds [ring_frames] frames of [bpf] bytes. *)
Definition ring_wf (bpf : Z) (r : Region) : Prop :=
  0 < bpf < 2 ^ 31 /\
  1 <= ring_frames (hdr r) < 2 ^ 32 /\
  0 <= write_idx (hdr r) < 2 ^ 32 /\
  0 <= read_idx (hdr r) < 2 ^ 32 /\
  ring_frames (hdr r) * bpf <= Z.of_nat (length (ring_data r)).

(** [d'] is [d] after [n] bytes of [buf] were written into the first [rb]
    bytes of [d], starting at byte [off] and wrapping at [rb]. *)
Definition ring_written (d d' : list Z) (rb off : Z) (buf : list Z) (n : Z)
  : Prop :=
  length d' = length d /\
  forall p : nat,
    d' !! p =
      if (Z.of_nat p <? rb) && ((Z.of_nat p - off) mod rb <? n)
      then buf !! Z.to_nat ((Z.of_nat p - off) mod rb)
      else d !! p.

Definition is_memcpy {L} (e : Event L) : bool :=
  match e with EvMemcpy _ _ => true | _ => false end.

(** ** Schedules of the producer and the consumer

    The consumer is the renderer.  Of the header it owns [read_idx] and
    [enabled]: it advances [read_idx] by some of the frames that are
    waiting, never by more, and writes [enabled] as it likes. *)

(** Frames written and not yet consumed. *)
Definition occupancy (h : JukeAudioHeader) : Z :=
  wrap32 (write_idx h - read_idx h).

Definition consume (k en : Z) (r : Region) : Region :=
  set_hdr (set_field F_enabled en
             (set_field F_read_idx (wrap32 (read_idx (hdr r) + k)) (hdr r))) r.

(** An empty ring of a power-of-two number of frames, as [juke_init_out]
    leaves it. *)
Definition ring_start (j : JukeVoiceOut) : Prop :=
  exists s r,
    state j = Some s /\ shmem s = Some r /\
    ring_wf (bytes_per_frame j) r /\
    (exists e, 0 <= e < 32 /\ ring_frames (hdr r) = 2 ^ e) /\
    write_idx (hdr r) = read_idx (hdr r).

Inductive sched_step (host : Host Loc) : JukeVoiceOut -> JukeVoiceOut -> Prop :=
| step_write buf len t ret j j' t' :
    0 <= len < 2 ^ 64 -> len <= Z.of_nat (length buf) ->
    juke_write host buf len j t = Done (ret, j', t') ->
    sched_step host j j'
| step_consume k en j s r :
    state j = Some s -> shmem s = Some r ->
    0 <= k <= occupancy (hdr r) -> 0 <= en < 2 ^ 32 ->
    sched_step host j (set_state (set_shmem (Some (consume k en r)) s) j).

Inductive reachable (host : Host Loc) : JukeVoiceOut -> Prop :=
| reach_start j : ring_start j -> reachable host j
| reach_step j j' : reachable host j -> sched_step host j j' -> reachable host j'.

(** The byte of the ring that holds byte [b] of the frame in slot
    [idx mod ring_frames]. *)
Definition slot_byte (bpf : Z) (h : JukeAudioHeader) (idx b : Z) : nat :=
  Z.to_nat ((idx mod ring_frames h) * bpf + b).

(** What every state of a schedule satisfies: the true occupancy never
    exceeds [ring_frames - 1]. *)
Definition ring_inv (j : JukeVoiceOut) : Prop :=
  exists s r,
    state j = Some s /\ shmem s = Some r /\
    ring_wf (bytes_per_frame j) r /\
    (exists e, 0 <= e < 32 /\ ring_frames (hdr r) = 2 ^ e) /\
    occupancy (hdr r) <= ring_frames (hdr r) - 1.


(** ** Small examples *)

(** The host of the examples: no renderer is listening, the rate
    controller answers 123 bytes. *)
Definition quiet_host : Host Loc :=
  fun _ c => match c with AudioRateGetBytes _ => 123 | _ => -1 end.

Definition small_ring (w rd en : Z) : Region :=
  {| hdr := {| magic := JUKE_AUDIO_MAGIC; version := JUKE_AUDIO_VERSION;
               sample_rate := 48000; channels := 1; format := JUKE_AUDIO_FMT_S16LE;
               ring_frames := 4; write_idx := w; read_idx := rd; enabled := en;
               muted := 0; volume_left := 255; volume_right := 255 |};
     ring_data := [0; 0; 0; 0; 0; 0; 0; 0] |}.

Definition small_state (w rd en : Z) : JukeAudioState :=
  {| shmem := Some (small_ring w rd en); shmem_size := 72; shmem_fd := 5;
     socket_path := None; client_fd := -1; fd_sent := false |}.

Definition small_voice (w rd en : Z) : JukeVoiceOut :=
  {| bytes_per_frame := 2; samples := JUKE_AUDIO_RING_FRAMES;
     state := Some (small_state w rd en) |}.

(** The small voice after two frames were written into the empty ring. *)
Definition small_voice_2 : JukeVoiceOut :=
  {| bytes_per_frame := 2; samples := JUKE_AUDIO_RING_FRAMES;
     state := Some
       {| shmem := Some
            {| hdr := hdr (small_ring 2 0 1);
               ring_data := [1; 2; 3; 4; 0; 0; 0; 0] |};
          shmem_size := 72; shmem_fd := 5;
          socket_path := None; client_fd := -1; fd_sent := false |} |}.


(** ** The other entries of [juke_pcm_ops] and the end of the driver *)

(** The mixer setting [juke_volume_out] is handed: [vol] holds one byte
    for each of the AUDIO_MAX_CHANNELS channels. *)
Record Volume := { mute : bool; vol_channels : Z; vol : list Z }.

Section Mixer.
Variable host : Host Loc.

Local Abbreviation M := (M JukeVoiceOut Loc).

(** Cleanup is left to [juke_audio_fini]. *)
Definition juke_fini_out : M unit := ret tt.

Definition juke_volume_out (v : Volume) : M unit :=
  let! juke := get in
  if not_ready juke then ret tt
  else
    do! atomic_store F_muted (if mute v then 1 else 0) Release in
    match zidx (vol v) 0 with
    | None => fault
    | Some v0 =>
        let vol_l := wrap32 v0 in
        let! vol_r :=
          (if vol_channels v >? 1 then
             match zidx (vol v) 1 with
             | Some v1 => ret (wrap32 v1)
             | None => fault
             end
           else ret (wrap32 v0)) in
        do! atomic_store F_volume_left vol_l Release in
        atomic_store F_volume_right vol_r Release
    end.

(** [s->shmem->enabled] belongs to the renderer: only the rate controller
    is restarted. *)
Definition juke_enable_out (enable : bool) : M unit :=
  when enable (notify AudioRateStart).

(** The entries of [juke_pcm_ops] that the back end implements itself. *)
Inductive Op :=
| OpInitOut (as_ : audsettings)
| OpFiniOut
| OpWrite (buf : list Z) (len : Z)
| OpEnableOut (enable : bool)
| OpVolumeOut (v : Volume).

(** One entry called on a voice of the driver; [juke_init_out] is handed
    the driver state the voice belongs to. *)
Definition run_op (op : Op) : M Z :=
  match op with
  | OpInitOut as_ => let! s := the_state in juke_init_out host as_ s
  | OpFiniOut => do! juke_fini_out in ret 0
  | OpWrite buf len => juke_write host buf len
  | OpEnableOut enable => do! juke_enable_out enable in ret 0
  | OpVolumeOut v => do! juke_volume_out v in ret 0
  end.

(** A sequence of calls, one after the other. *)
Fixpoint run_ops (ops : list Op) : M unit :=
  match ops with
  | [] => ret tt
  | op :: rest => let! _ := run_op op in run_ops rest
  end.
End Mixer.

(** [juke_audio_fini] on the driver state: the connection is closed and the
    region released.  The two [g_free] calls return the state's own memory,
    which the model does not keep. *)
Definition juke_audio_fini : M JukeAudioState Loc unit :=
  let! s := get in
  do! when (0 <=? client_fd s) (notify (Close (client_fd s))) in
  match shmem s with
  | Some _ => notify (MemfdFree (shmem_size s) (shmem_fd s))
  | None => ret tt
  end.

(** ** Notions used to state the properties of the other entries *)

(** Of the header QEMU writes [write_idx], [muted], [volume_left] and
    [volume_right] after the initialisation; every other field, the
    renderer's [read_idx] and [enabled] among them, reads the same in [r']
    as in [r], and the sample area keeps its size. *)
Definition renderer_fields_kept (r r' : Region) : Prop :=
  (forall f, f <> F_write_idx -> f <> F_muted ->
             f <> F_volume_left -> f <> F_volume_right ->
             get_field f (hdr r') = get_field f (hdr r)) /\
  length (ring_data r') = length (ring_data r).

(** The same, for the region of a voice; the descriptor and the size of the
    mapping stay as well. *)
Definition voice_region_kept (j j' : JukeVoiceOut) : Prop :=
  forall s r, state j = Some s -> shmem s = Some r ->
    exists s' r', state j' = Some s' /\ shmem s' = Some r' /\
      shmem_size s' = shmem_size s /\ shmem_fd s' = shmem_fd s /\
      renderer_fields_kept r r'.

(** The header [juke_init_out] writes for the settings [as_]. *)
Definition init_header (as_ : audsettings) : JukeAudioHeader :=
  {| magic := JUKE_AUDIO_MAGIC; version := JUKE_AUDIO_VERSION;
     sample_rate := wrap32 (freq as_); channels := wrap32 (nchannels as_);
     format := if fmt_is_f32 as_ then JUKE_AUDIO_FMT_F32LE else JUKE_AUDIO_FMT_S16LE;
     ring_frames := JUKE_AUDIO_RING_FRAMES;
     write_idx := 0; read_idx := 0; enabled := 0; muted := 0;
     volume_left := 255; volume_right := 255 |}.

(** The stores of that initialisation, in program order. *)
Definition init_events (as_ : audsettings) : list (Event Loc) :=
  [EvStore (Hdr F_magic) JUKE_AUDIO_MAGIC;
   EvStore (Hdr F_version) JUKE_AUDIO_VERSION;
   EvStore (Hdr F_sample_rate) (wrap32 (freq as_));
   EvStore (Hdr F_channels) (wrap32 (nchannels as_));
   EvStore (Hdr F_format)
     (if fmt_is_f32 as_ then JUKE_AUDIO_FMT_F32LE else JUKE_AUDIO_FMT_S16LE);
   EvStore (Hdr F_ring_frames) JUKE_AUDIO_RING_FRAMES;
   EvStore (Hdr F_write_idx) 0; EvStore (Hdr F_read_idx) 0;
   EvStore (Hdr F_enabled) 0; EvStore (Hdr F_muted) 0;
   EvStore (Hdr F_volume_left) 255; EvStore (Hdr F_volume_right) 255].

(** A mixer setting with both channels at the given levels. *)
Definition stereo_volume (m : bool) (l r : Z) : Volume :=
  {| mute := m; vol_channels := 2; vol := [l; r] |}.

(** A host whose allocator delivers descriptor 5 and whose voices have
    16-bit samples; no renderer is listening. *)
Definition audio_alloc_host : Host Loc :=
  fun _ c =>
    match c with
    | MemfdAlloc _ _ => 5
    | AudioPcmInitInfo _ n => 2 * n
    | AudioRateGetBytes _ => 123
    | _ => -1
    end.

(** A voice that was never initialised. *)
Definition blank_voice : JukeVoiceOut :=
  {| bytes_per_frame := 0; samples := 0; state := None |}.

Definition cd_settings : audsettings :=
  {| freq := 44100; nchannels := 2; fmt_is_f32 := false |}.

Definition mono_settings : audsettings :=
  {| freq := 44100; nchannels := 1; fmt_is_f32 := false |}.

End Audio.
(** * The display back end *)

Module Display.

(** The C structures are records with eta: a structure whose fields are
    all written back with the values they hold is the same structure. *)
#[local] Set Primitive Projections.

(** Input event types. *)
Definition JUKE_INPUT_MOUSE_REL : Z := 1.
Definition JUKE_INPUT_MOUSE_ABS : Z := 2.
Definition JUKE_INPUT_MOUSE_BTN : Z := 3.
Definition JUKE_INPUT_KEY : Z := 4.

(** One input event (12 bytes). *)
Record JukeInputEvent := {
  type_ : Z;      (* uint8_t type *)
  button : Z;     (* uint8_t *)
  pressed : Z;    (* uint8_t *)
  reserved : Z;   (* uint8_t *)
  x : Z;          (* int32_t: dx, x or scancode *)
  y : Z           (* int32_t: dy or y *)
}.

Definition JUKE_INPUT_RING_SIZE : Z := 256.

Record JukeInputRing := {
  write_idx : Z;                  (* written by the renderer *)
  read_idx : Z;                   (* written by QEMU *)
  events : list JukeInputEvent    (* JUKE_INPUT_RING_SIZE entries *)
}.

Definition JUKE_CURSOR_MAX_SIZE : Z := 64.
Definition JUKE_CURSOR_MAX_PIXELS : Z := JUKE_CURSOR_MAX_SIZE * JUKE_CURSOR_MAX_SIZE.
Definition JUKE_CURSOR_DATA_SIZE : Z := JUKE_CURSOR_MAX_PIXELS * 4.

Definition JUKE_SHMEM_MAGIC : Z := 0x454B554A.
Definition JUKE_SHMEM_VERSION : Z := 3.

(** [sizeof(JukeShmemHeader)]: six [uint32_t], one [uint64_t] at offset 24,
    twelve more 32-bit fields. *)
Definition sizeof_JukeShmemHeader : Z := 80.

(** [sizeof(JukeInputRing)]: 16 bytes of indices and padding, 256 events of
    12 bytes. *)
Definition sizeof_JukeInputRing : Z := 16 + JUKE_INPUT_RING_SIZE * 12.

Record JukeShmemHeader := {
  magic : Z;
  version : Z;
  width : Z;
  height : Z;
  stride : Z;
  format : Z;
  frame_counter : Z;
  dirty_x : Z;
  dirty_y : Z;
  dirty_w : Z;
  dirty_h : Z;
  cursor_version : Z;
  cursor_x : Z;
  cursor_y : Z;
  cursor_visible : Z;
  cursor_width : Z;
  cursor_height : Z;
  cursor_hot_x : Z;
  cursor_hot_y : Z
}.

Inductive Field :=
| F_magic
| F_version
| F_width
| F_height
| F_stride
| F_format
| F_frame_counter
| F_dirty_x
| F_dirty_y
| F_dirty_w
| F_dirty_h
| F_cursor_version
| F_cursor_x
| F_cursor_y
| F_cursor_visible
| F_cursor_width
| F_cursor_height
| F_cursor_hot_x
| F_cursor_hot_y.

Inductive CType := U32 | I32 | U64.

Definition field_type (f : Field) : CType :=
  match f with
  | F_frame_counter => U64
  | F_cursor_x | F_cursor_y | F_cursor_hot_x | F_cursor_hot_y => I32
  | _ => U32
  end.

(** Conversion of a value to the type of the object it is stored in. *)
Definition conv (ty : CType) (v : Z) : Z :=
  match ty with U32 => wrap32 v | I32 => int32 v | U64 => wrap64 v end.

Definition get_field (f : Field) (h : JukeShmemHeader) : Z :=
  match f with
  | F_magic => magic h
  | F_version => version h
  | F_width => width h
  | F_height => height h
  | F_stride => stride h
  | F_format => format h
  | F_frame_counter => frame_counter h
  | F_dirty_x => dirty_x h
  | F_dirty_y => dirty_y h
  | F_dirty_w => dirty_w h
  | F_dirty_h => dirty_h h
  | F_cursor_version => cursor_version h
  | F_cursor_x => cursor_x h
  | F_cursor_y => cursor_y h
  | F_cursor_visible => cursor_visible h
  | F_cursor_width => cursor_width h
  | F_cursor_height => cursor_height h
  | F_cursor_hot_x => cursor_hot_x h
  | F_cursor_hot_y => cursor_hot_y h
  end.

Definition set_field (f : Field) (v : Z) (h : JukeShmemHeader) : JukeShmemHeader :=
  let '(Build_JukeShmemHeader a0 a1 a2 a3 a4 a5 a6 a7 a8 a9 a10 a11 a12 a13 a14 a15 a16 a17 a18) := h in
  match f with
  | F_magic =>
      Build_JukeShmemHeader v a1 a2 a3 a4 a5 a6 a7 a8 a9 a10 a11 a12 a13 a14 a15 a16 a17 a18
  | F_version =>
      Build_JukeShmemHeader a0 v a2 a3 a4 a5 a6 a7 a8 a9 a10 a11 a12 a13 a14 a15 a16 a17 a18
  | F_width =>
      Build_JukeShmemHeader a0 a1 v a3 a4 a5 a6 a7 a8 a9 a10 a11 a12 a13 a14 a15 a16 a17 a18
  | F_height =>
      Build_JukeShmemHeader a0 a1 a2 v a4 a5 a6 a7 a8 a9 a10 a11 a12 a13 a14 a15 a16 a17 a18
  | F_stride =>
      Build_JukeShmemHeader a0 a1 a2 a3 v a5 a6 a7 a8 a9 a10 a11 a12 a13 a14 a15 a16 a17 a18
  | F_format =>
      Build_JukeShmemHeader a0 a1 a2 a3 a4 v a6 a7 a8 a9 a10 a11 a12 a13 a14 a15 a16 a17 a18
  | F_frame_counter =>
      Build_JukeShmemHeader a0 a1 a2 a3 a4 a5 v a7 a8 a9 a10 a11 a12 a13 a14 a15 a16 a17 a18
  | F_dirty_x =>
      Build_JukeShmemHeader a0 a1 a2 a3 a4 a5 a6 v a8 a9 a10 a11 a12 a13 a14 a15 a16 a17 a18
  | F_dirty_y =>
      Build_JukeShmemHeader a0 a1 a2 a3 a4 a5 a6 a7 v a9 a10 a11 a12 a13 a14 a15 a16 a17 a18
  | F_dirty_w =>
      Build_JukeShmemHeader a0 a1 a2 a3 a4 a5 a6 a7 a8 v a10 a11 a12 a13 a14 a15 a16 a17 a18
  | F_dirty_h =>
      Build_JukeShmemHeader a0 a1 a2 a3 a4 a5 a6 a7 a8 a9 v a11 a12 a13 a14 a15 a16 a17 a18
  | F_cursor_version =>
      Build_JukeShmemHeader a0 a1 a2 a3 a4 a5 a6 a7 a8 a9 a10 v a12 a13 a14 a15 a16 a17 a18
  | F_cursor_x =>
      Build_JukeShmemHeader a0 a1 a2 a3 a4 a5 a6 a7 a8 a9 a10 a11 v a13 a14 a15 a16 a17 a18
  | F_cursor_y =>
      Build_JukeShmemHeader a0 a1 a2 a3 a4 a5 a6 a7 a8 a9 a10 a11 a12 v a14 a15 a16 a17 a18
  | F_cursor_visible =>
      Build_JukeShmemHeader a0 a1 a2 a3 a4 a5 a6 a7 a8 a9 a10 a11 a12 a13 v a15 a16 a17 a18
  | F_cursor_width =>
      Build_JukeShmemHeader a0 a1 a2 a3 a4 a5 a6 a7 a8 a9 a10 a11 a12 a13 a14 v a16 a17 a18
  | F_cursor_height =>
      Build_JukeShmemHeader a0 a1 a2 a3 a4 a5 a6 a7 a8 a9 a10 a11 a12 a13 a14 a15 v a17 a18
  | F_cursor_hot_x =>
      Build_JukeShmemHeader a0 a1 a2 a3 a4 a5 a6 a7 a8 a9 a10 a11 a12 a13 a14 a15 a16 v a18
  | F_cursor_hot_y =>
      Build_JukeShmemHeader a0 a1 a2 a3 a4 a5 a6 a7 a8 a9 a10 a11 a12 a13 a14 a15 a16 a17 v
  end.

(** Places of the shared region a write can go to. *)
Inductive Loc :=
| Hdr (f : Field)
| CursorData (idx : Z)     (* pixel index into the 64x64 cursor slot *)
| RingWriteIdx
| RingReadIdx
| Pixels (off : Z).        (* byte offset into the pixel buffer *)

(** The mapped region: header, cursor slot (4096 RGBA pixels), input ring,
    pixel bytes up to the end of the mapping. *)
Record Region := {
  hdr : JukeShmemHeader;
  cursor_data : list Z;
  ring : JukeInputRing;
  pixels : list Z
}.

(** The host's surface ([surface_width] and the like read these). *)
Record DisplaySurface := {
  surface_width : Z;
  surface_height : Z;
  surface_stride : Z;
  surface_format : Z;
  surface_data : list Z
}.

Record QEMUCursor := {
  cur_width : Z;
  cur_height : Z;
  hot_x : Z;
  hot_y : Z;
  cur_data : list Z          (* width * height RGBA pixels *)
}.

Record JukeShmemState := {
  con_cursor : option QEMUCursor;    (* qemu_console_get_cursor(dcl.con) *)
  surface : option DisplaySurface;
  shmem : option Region;
  shmem_size : Z;
  shmem_fd : Z;
  socket_path : option string;
  client_fd : Z;
  fd_sent : bool
}.

#[local] Unset Primitive Projections.

Definition set_surface (v : option DisplaySurface) (s : JukeShmemState) :=
  {| con_cursor := con_cursor s; surface := v; shmem := shmem s;
     shmem_size := shmem_size s; shmem_fd := shmem_fd s;
     socket_path := socket_path s; client_fd := client_fd s; fd_sent := fd_sent s |}.

Definition set_shmem (v : option Region) (s : JukeShmemState) :=
  {| con_cursor := con_cursor s; surface := surface s; shmem := v;
     shmem_size := shmem_size s; shmem_fd := shmem_fd s;
     socket_path := socket_path s; client_fd := client_fd s; fd_sent := fd_sent s |}.

Definition set_shmem_size (v : Z) (s : JukeShmemState) :=
  {| con_cursor := con_cursor s; surface := surface s; shmem := shmem s;
     shmem_size := v; shmem_fd := shmem_fd s;
     socket_path := socket_path s; client_fd := client_fd s; fd_sent := fd_sent s |}.

Definition set_shmem_fd (v : Z) (s : JukeShmemState) :=
  {| con_cursor := con_cursor s; surface := surface s; shmem := shmem s;
     shmem_size := shmem_size s; shmem_fd := v;
     socket_path := socket_path s; client_fd := client_fd s; fd_sent := fd_sent s |}.

Definition set_client_fd (v : Z) (s : JukeShmemState) :=
  {| con_cursor := con_cursor s; surface := surface s; shmem := shmem s;
     shmem_size := shmem_size s; shmem_fd := shmem_fd s;
     socket_path := socket_path s; client_fd := v; fd_sent := fd_sent s |}.

Definition set_fd_sent (v : bool) (s : JukeShmemState) :=
  {| con_cursor := con_cursor s; surface := surface s; shmem := shmem s;
     shmem_size := shmem_size s; shmem_fd := shmem_fd s;
     socket_path := socket_path s; client_fd := client_fd s; fd_sent := v |}.

Definition set_hdr (h : JukeShmemHeader) (r : Region) : Region :=
  {| hdr := h; cursor_data := cursor_data r; ring := ring r; pixels := pixels r |}.

Definition set_cursor_data (d : list Z) (r : Region) : Region :=
  {| hdr := hdr r; cursor_data := d; ring := ring r; pixels := pixels r |}.

Definition set_ring (g : JukeInputRing) (r : Region) : Region :=
  {| hdr := hdr r; cursor_data := cursor_data r; ring := g; pixels := pixels r |}.

Definition set_pixels (d : list Z) (r : Region) : Region :=
  {| hdr := hdr r; cursor_data := cursor_data r; ring := ring r; pixels := d |}.

Definition set_write_idx (v : Z) (g : JukeInputRing) : JukeInputRing :=
  {| write_idx := v; read_idx := read_idx g; events := events g |}.

Definition set_read_idx (v : Z) (g : JukeInputRing) : JukeInputRing :=
  {| write_idx := write_idx g; read_idx := v; events := events g |}.

Definition zero_event : JukeInputEvent :=
  {| type_ := 0; button := 0; pressed := 0; reserved := 0; x := 0; y := 0 |}.

(** The bytes the region needs besides the pixels. *)
Definition region_overhead : Z :=
  sizeof_JukeShmemHeader + JUKE_CURSOR_DATA_SIZE + sizeof_JukeInputRing.

(** A freshly mapped memfd of [size] bytes reads as zeros. *)
Definition fresh_region (size : Z) : Region :=
  {| hdr := Build_JukeShmemHeader 0 0 0 0 0 0 0 0 0 0 0 0 0 0 0 0 0 0 0;
     cursor_data := replicate (Z.to_nat JUKE_CURSOR_MAX_PIXELS) 0;
     ring := {| write_idx := 0; read_idx := 0;
                events := replicate (Z.to_nat JUKE_INPUT_RING_SIZE) zero_event |};
     pixels := replicate (Z.to_nat (size - region_overhead)) 0 |}.

Local Open Scope juke_scope.

Section Callbacks.
Variable host : Host Loc.

Local Abbreviation M := (M JukeShmemState Loc).

Definition modify (f : JukeShmemState -> JukeShmemState) : M unit :=
  let! s := get in put (f s).

(** [s->shmem], a fault when it is NULL. *)
Definition the_region : M Region :=
  let! s := get in
  match shmem s with Some r => ret r | None => fault end.

Definition modify_region (f : Region -> Region) : M unit :=
  let! r := the_region in
  modify (set_shmem (Some (f r))).

(** [s->shmem->f] *)
Definition load (f : Field) : M Z :=
  let! r := the_region in ret (get_field f (hdr r)).

(** [s->shmem->f = v] *)
Definition store (f : Field) (v : Z) : M unit :=
  let v' := conv (field_type f) v in
  do! modify_region (fun r => set_hdr (set_field f v' (hdr r)) r) in
  emit (EvStore (Hdr f) v').

(** [__atomic_fetch_add(&s->shmem->f, v, o)] *)
Definition atomic_fetch_add (f : Field) (v : Z) (o : memorder) : M unit :=
  let! old := load f in
  do! modify_region
        (fun r => set_hdr (set_field f (conv (field_type f) (old + v)) (hdr r)) r) in
  emit (EvAtomicAdd (Hdr f) v o).

(** [memcpy(pixels + off, src + soff, n)] *)
Definition pixels_memcpy (off : Z) (src : list Z) (soff n : Z) : M unit :=
  let! r := the_region in
  match memcpy (pixels r) off src soff n with
  | Some d =>
      do! modify_region (set_pixels d) in
      emit (EvMemcpy (Pixels off) n)
  | None => fault
  end.

(** [memcpy(&cursor_pixels[idx], &data[sidx], n * sizeof(uint32_t))] *)
Definition cursor_memcpy (idx : Z) (src : list Z) (sidx n : Z) : M unit :=
  let! r := the_region in
  match memcpy (cursor_data r) idx src sidx n with
  | Some d =>
      do! modify_region (set_cursor_data d) in
      emit (EvMemcpy (CursorData idx) (n * 4))
  | None => fault
  end.

(** [for (i = first; i < first + count; i++) body(i)] *)
Fixpoint for_each (l : list Z) (body : Z -> M unit) : M unit :=
  match l with
  | [] => ret tt
  | i :: l' => do! body i in for_each l' body
  end.

Definition juke_shmem_send_fd : M unit :=
  let! s := get in
  if (client_fd s <? 0) || (shmem_fd s <? 0) || fd_sent s then ret tt
  else
    let! sent := call host (Sendmsg (client_fd s) (shmem_fd s)) in
    if sent <? 0 then
      notify (ErrorReport "juke-shmem: failed to send fd")
    else
      modify (set_fd_sent true).

Definition juke_shmem_connect : M Z :=
  let! s := get in
  match socket_path s with
  | None => ret (-1)
  | Some path =>
      let! fd := call host Socket in
      if fd <? 0 then
        do! notify (ErrorReport "juke-shmem: socket failed") in
        ret (-1)
      else
        let! c := call host (Connect fd (sun_path path)) in
        if c <? 0 then
          do! notify (Close fd) in
          ret (-1)
        else
          do! notify (ErrorReport "juke-shmem: connected") in
          do! modify (set_client_fd fd) in
          do! modify (set_fd_sent false) in
          let! s := get in
          do! when (0 <=? shmem_fd s) juke_shmem_send_fd in
          ret 0
  end.

(** The body of the [while] loop of [juke_shmem_process_input]. *)
Definition dispatch (ev : JukeInputEvent) : M unit :=
  if type_ ev =? JUKE_INPUT_MOUSE_REL then
    do! notify (InputQueueRel INPUT_AXIS_X (x ev)) in
    notify (InputQueueRel INPUT_AXIS_Y (y ev))
  else if type_ ev =? JUKE_INPUT_MOUSE_ABS then
    let! w := load F_width in
    do! notify (InputQueueAbs INPUT_AXIS_X (x ev) 0 (int32 w)) in
    let! h := load F_height in
    notify (InputQueueAbs INPUT_AXIS_Y (y ev) 0 (int32 h))
  else if type_ ev =? JUKE_INPUT_MOUSE_BTN then
    notify (InputQueueBtn (button ev) (if pressed ev =? 0 then 0 else 1))
  else if type_ ev =? JUKE_INPUT_KEY then
    notify (InputSendKeyNumber (x ev) (if pressed ev =? 0 then 0 else 1))
  else ret tt.

(** [while (read_idx != write_idx) { ...; read_idx++; }] *)
Fixpoint drain (fuel : nat) (read_idx write_idx : Z) : M Z :=
  if read_idx =? write_idx then ret read_idx
  else
    match fuel with
    | O => timeout
    | S fuel' =>
        let! r := the_region in
        match zidx (events (ring r)) (read_idx mod JUKE_INPUT_RING_SIZE) with
        | None => fault
        | Some ev =>
            do! dispatch ev in
            drain fuel' (wrap32 (read_idx + 1)) write_idx
        end
    end.

Definition juke_shmem_process_input (fuel : nat) : M unit :=
  let! r := the_region in
  let write_idx := Display.write_idx (ring r) in
  do! emit (EvAtomicLoad RingWriteIdx Acquire write_idx) in
  let read_idx := Display.read_idx (ring r) in
  let! read_idx := drain fuel read_idx write_idx in
  let! r := the_region in
  if negb (read_idx =? Display.read_idx (ring r)) then
    do! notify InputEventSync in
    do! modify_region (fun r => set_ring (set_read_idx (wrap32 read_idx) (ring r)) r) in
    emit (EvAtomicStore RingReadIdx (wrap32 read_idx) Release)
  else ret tt.

(** [for (int row = y; row < y + h; row++)]: the bound [y + h] is an [int]
    sum, so the loop runs over the rows from [y] up to [int32 (y + h)],
    none when that is not above [y]. *)
Definition juke_shmem_gfx_update (x y w h : Z) : M unit :=
  let! s := get in
  match shmem s, surface s with
  | Some _, Some surf =>
      let stride := surface_stride surf in
      let src := surface_data surf in
      do! for_each (seqZ y (int32 (y + h) - y))
            (fun row =>
               pixels_memcpy (int32 (row * stride)) src (int32 (row * stride))
                 (wrap64 stride)) in
      do! store F_dirty_x x in
      do! store F_dirty_y y in
      do! store F_dirty_w w in
      do! store F_dirty_h h in
      atomic_fetch_add F_frame_counter 1 Release
  | _, _ => ret tt
  end.

(** What [juke_shmem_gfx_switch] does once the region is in place. *)
Definition gfx_switch_fill (new_surface : DisplaySurface) (w h stride pixels_size : Z)
  : M unit :=
  do! store F_magic JUKE_SHMEM_MAGIC in
  do! store F_version JUKE_SHMEM_VERSION in
  do! store F_width w in
  do! store F_height h in
  do! store F_stride stride in
  do! store F_format (surface_format new_surface) in
  do! store F_frame_counter 0 in
  do! store F_dirty_x 0 in
  do! store F_dirty_y 0 in
  do! store F_dirty_w w in
  do! store F_dirty_h h in
  do! store F_cursor_version 0 in
  do! store F_cursor_x 0 in
  do! store F_cursor_y 0 in
  do! store F_cursor_visible 0 in
  do! store F_cursor_width 0 in
  do! store F_cursor_height 0 in
  do! store F_cursor_hot_x 0 in
  do! store F_cursor_hot_y 0 in
  do! modify_region (fun r => set_ring (set_write_idx 0 (ring r)) r) in
  do! emit (EvStore RingWriteIdx 0) in
  do! modify_region (fun r => set_ring (set_read_idx 0 (ring r)) r) in
  do! emit (EvStore RingReadIdx 0) in
  do! pixels_memcpy 0 (surface_data new_surface) 0 pixels_size in
  let! s := get in
  when ((0 <=? client_fd s) && negb (fd_sent s)) juke_shmem_send_fd.

Definition juke_shmem_gfx_switch (new_surface : option DisplaySurface) : M unit :=
  do! modify (set_surface new_surface) in
  match new_surface with
  | None => ret tt
  | Some surf =>
      let w := surface_width surf in
      let h := surface_height surf in
      let stride := surface_stride surf in
      let pixels_size := wrap64 (int32 (stride * h)) in
      let needed :=
        wrap64 (sizeof_JukeShmemHeader + JUKE_CURSOR_DATA_SIZE
                + sizeof_JukeInputRing + pixels_size) in
      let! s := get in
      if needed >? shmem_size s then
        do! (match shmem s with
             | Some _ =>
                 do! notify (MemfdFree (shmem_size s) (shmem_fd s)) in
                 do! modify (set_shmem None) in
                 do! modify (set_shmem_fd (-1)) in
                 modify (set_fd_sent false)
             | None => ret tt
             end) in
        do! modify (set_shmem_size needed) in
        let! fd := call host (MemfdAlloc "juke-fb" needed) in
        if fd <? 0 then
          notify (ErrorReport "juke-shmem: failed to allocate shared memory")
        else
          do! modify (set_shmem_fd fd) in
          do! modify (set_shmem (Some (fresh_region needed))) in
          gfx_switch_fill surf w h stride pixels_size
      else
        gfx_switch_fill surf w h stride pixels_size
  end.

Definition juke_shmem_refresh (fuel : nat) : M unit :=
  let! s := get in
  do! when ((client_fd s <? 0) && bool_decide (socket_path s <> None))
        (let! _ := juke_shmem_connect in ret tt) in
  let! s := get in
  do! when ((0 <=? client_fd s) && (0 <=? shmem_fd s) && negb (fd_sent s))
        juke_shmem_send_fd in
  let! s := get in
  do! when (bool_decide (shmem s <> None)) (juke_shmem_process_input fuel) in
  notify GraphicHwUpdate.

Definition juke_shmem_cursor_define : M unit :=
  let! s := get in
  match shmem s with
  | None => ret tt
  | Some _ =>
      match con_cursor s with
      | None =>
          do! store F_cursor_width 0 in
          do! store F_cursor_height 0 in
          atomic_fetch_add F_cursor_version 1 Release
      | Some c =>
          let w := wrap32 (Z.min (cur_width c) JUKE_CURSOR_MAX_SIZE) in
          let h := wrap32 (Z.min (cur_height c) JUKE_CURSOR_MAX_SIZE) in
          do! store F_cursor_width w in
          do! store F_cursor_height h in
          do! store F_cursor_hot_x (hot_x c) in
          do! store F_cursor_hot_y (hot_y c) in
          do! for_each (seqZ 0 h)
                (fun y =>
                   cursor_memcpy (wrap32 (y * JUKE_CURSOR_MAX_SIZE)) (cur_data c)
                     (wrap32 (y * cur_width c)) w) in
          atomic_fetch_add F_cursor_version 1 Release
      end
  end.

Definition juke_shmem_mouse_set (x y : Z) (on : bool) : M unit :=
  let! s := get in
  match shmem s with
  | None => ret tt
  | Some _ =>
      do! store F_cursor_x x in
      do! store F_cursor_y y in
      do! store F_cursor_visible (if on then 1 else 0) in
      emit (EvFence Release)
  end.

(** The state [juke_shmem_init] allocates: zeroed, then both descriptors
    set to -1 and the console looked up. *)
Definition new_state (con : option QEMUCursor) : JukeShmemState :=
  {| con_cursor := con; surface := None; shmem := None; shmem_size := 0;
     shmem_fd := -1; socket_path := None; client_fd := -1; fd_sent := false |}.

Definition set_socket_path (v : option string) (s : JukeShmemState) :=
  {| con_cursor := con_cursor s; surface := surface s; shmem := shmem s;
     shmem_size := shmem_size s; shmem_fd := shmem_fd s;
     socket_path := v; client_fd := client_fd s; fd_sent := fd_sent s |}.

(** [juke_shmem_init] from [new_state] on; the registration of the
    listener and the probe of the monitor refresh rate, which only set the
    polling interval, are left to the host. *)
Definition juke_shmem_init (socket : option string) : M unit :=
  match socket with
  | Some path =>
      do! modify (set_socket_path (Some path)) in
      let! _ := juke_shmem_connect in
      ret tt
  | None => ret tt
  end.

(** [n] calls of [juke_shmem_send_fd] in a row. *)
Fixpoint send_fd_times (n : nat) : M unit :=
  match n with
  | O => ret tt
  | S n' => do! juke_shmem_send_fd in send_fd_times n'
  end.
End Callbacks.

(** ** Notions used to state the properties of the display region *)

(** The rows [y .. y + h) of a surface with the given stride lie inside the
    surface data and inside the pixel buffer of the region, and their byte
    offsets are [int] values. *)
Definition update_fits (surf : DisplaySurface) (r : Region) (y h : Z) : Prop :=
  0 <= y /\ 0 <= h /\ 0 <= surface_stride surf /\
  (y + h) * surface_stride surf <= INT_MAX /\
  (y + h) * surface_stride surf <= Z.of_nat (length (pixels r)) /\
  (y + h) * surface_stride surf <= Z.of_nat (length (surface_data surf)).

(** The [memcpy] events of the row loop of [juke_shmem_gfx_update]. *)
Definition row_copies (stride y h : Z) : list (Event Loc) :=
  map (fun row => EvMemcpy (Pixels (row * stride)) stride) (seqZ y h).

(** A console cursor as the host keeps it: 16-bit dimensions, [int]
    hotspot, one pixel per position. *)
Definition cursor_ok (c : QEMUCursor) : Prop :=
  0 <= cur_width c < 2 ^ 16 /\ 0 <= cur_height c < 2 ^ 16 /\
  - 2 ^ 31 <= hot_x c < 2 ^ 31 /\ - 2 ^ 31 <= hot_y c < 2 ^ 31 /\
  cur_width c * cur_height c <= Z.of_nat (length (cur_data c)).

(** The [memcpy] events of the row loop of [juke_shmem_cursor_define]. *)
Definition cursor_copies (w y h : Z) : list (Event Loc) :=
  map (fun row => EvMemcpy (CursorData (row * JUKE_CURSOR_MAX_SIZE)) (w * 4)) (seqZ y h).

(** The host-input calls one event is translated to; [h] is the header the
    absolute axes read their range from. *)
Definition dispatch_calls (h : JukeShmemHeader) (ev : JukeInputEvent)
  : list (Event Loc) :=
  if type_ ev =? JUKE_INPUT_MOUSE_REL then
    [EvCall (InputQueueRel INPUT_AXIS_X (x ev)) 0;
     EvCall (InputQueueRel INPUT_AXIS_Y (y ev)) 0]
  else if type_ ev =? JUKE_INPUT_MOUSE_ABS then
    [EvCall (InputQueueAbs INPUT_AXIS_X (x ev) 0 (int32 (width h))) 0;
     EvCall (InputQueueAbs INPUT_AXIS_Y (y ev) 0 (int32 (height h))) 0]
  else if type_ ev =? JUKE_INPUT_MOUSE_BTN then
    [EvCall (InputQueueBtn (button ev) (if pressed ev =? 0 then 0 else 1)) 0]
  else if type_ ev =? JUKE_INPUT_KEY then
    [EvCall (InputSendKeyNumber (x ev) (if pressed ev =? 0 then 0 else 1)) 0]
  else [].

(** [events[idx mod 256]] *)
Definition event_at (g : JukeInputRing) (idx : Z) : JukeInputEvent :=
  default zero_event (zidx (events g) (idx mod JUKE_INPUT_RING_SIZE)).

(** The events from index [first] on, [k] of them. *)
Definition events_from (g : JukeInputRing) (first : Z) (k : nat)
  : list JukeInputEvent :=
  map (fun i => event_at g (first + Z.of_nat i)) (seq 0 k).

(** Number of events the renderer has enqueued and QEMU has not drained:
    [(write_idx - read_idx) mod 2^32]. *)
Definition pending_count (g : JukeInputRing) : Z :=
  wrap32 (write_idx g - read_idx g).

Definition pending (g : JukeInputRing) : list JukeInputEvent :=
  events_from g (read_idx g) (Z.to_nat (pending_count g)).

(** The ring holds 256 events and 32-bit indices. *)
Definition input_ring_ok (g : JukeInputRing) : Prop :=
  0 <= write_idx g < 2 ^ 32 /\ 0 <= read_idx g < 2 ^ 32 /\
  length (events g) = Z.to_nat JUKE_INPUT_RING_SIZE.

(** ** Surface switches *)

(** [needed = sizeof(header) + 64*64*4 + sizeof(input ring) + stride*height] *)
Definition needed_size (surf : DisplaySurface) : Z :=
  sizeof_JukeShmemHeader + JUKE_CURSOR_DATA_SIZE + sizeof_JukeInputRing
  + surface_stride surf * surface_height surf.

(** A surface of the host: [int] dimensions that are not negative, a pixel
    block [stride * height] long whose size is an [int] too, a 32-bit format
    code. *)
Definition surface_ok (surf : DisplaySurface) : Prop :=
  0 <= surface_width surf <= INT_MAX /\
  0 <= surface_height surf <= INT_MAX /\
  0 <= surface_stride surf <= INT_MAX /\
  surface_stride surf * surface_height surf <= INT_MAX /\
  surface_stride surf * surface_height surf <= Z.of_nat (length (surface_data surf)) /\
  0 <= surface_format surf < 2 ^ 32.

(** The state is consistent: [shmem_size] is the capacity of the region
    that is mapped, i.e. 0 when there is none (then there is no descriptor
    either and nothing was sent), and otherwise what the header, the cursor
    slot, the input ring and the pixel buffer take together. *)
Definition display_ok (s : JukeShmemState) : Prop :=
  match shmem s with
  | None => shmem_size s = 0 /\ shmem_fd s < 0 /\ fd_sent s = false
  | Some r =>
      shmem_size s = region_overhead + Z.of_nat (length (pixels r)) /\
      shmem_size s < 2 ^ 64
  end.

(** The header [juke_shmem_gfx_switch] writes for a surface. *)
Definition switched_header (surf : DisplaySurface) : JukeShmemHeader :=
  {| magic := JUKE_SHMEM_MAGIC; version := JUKE_SHMEM_VERSION;
     width := surface_width surf; height := surface_height surf;
     stride := surface_stride surf; format := surface_format surf;
     frame_counter := 0;
     dirty_x := 0; dirty_y := 0;
     dirty_w := surface_width surf; dirty_h := surface_height surf;
     cursor_version := 0; cursor_x := 0; cursor_y := 0; cursor_visible := 0;
     cursor_width := 0; cursor_height := 0; cursor_hot_x := 0; cursor_hot_y := 0 |}.

(** The writes of a switch into the region, in program order. *)
Definition switch_events (surf : DisplaySurface) : list (Event Loc) :=
  [EvStore (Hdr F_magic) JUKE_SHMEM_MAGIC;
   EvStore (Hdr F_version) JUKE_SHMEM_VERSION;
   EvStore (Hdr F_width) (surface_width surf);
   EvStore (Hdr F_height) (surface_height surf);
   EvStore (Hdr F_stride) (surface_stride surf);
   EvStore (Hdr F_format) (surface_format surf);
   EvStore (Hdr F_frame_counter) 0;
   EvStore (Hdr F_dirty_x) 0; EvStore (Hdr F_dirty_y) 0;
   EvStore (Hdr F_dirty_w) (surface_width surf);
   EvStore (Hdr F_dirty_h) (surface_height surf);
   EvStore (Hdr F_cursor_version) 0;
   EvStore (Hdr F_cursor_x) 0; EvStore (Hdr F_cursor_y) 0;
   EvStore (Hdr F_cursor_visible) 0;
   EvStore (Hdr F_cursor_width) 0; EvStore (Hdr F_cursor_height) 0;
   EvStore (Hdr F_cursor_hot_x) 0; EvStore (Hdr F_cursor_hot_y) 0;
   EvStore RingWriteIdx 0; EvStore RingReadIdx 0;
   EvMemcpy (Pixels 0) (surface_stride surf * surface_height surf)].

(** The region after a switch: the new header, an emptied input ring, the
    surface at the start of the pixel buffer; the cursor slot and the event
    slots keep their bytes. *)
Definition switched_region (surf : DisplaySurface) (r : Region) (d : list Z) : Region :=
  {| hdr := switched_header surf;
     cursor_data := cursor_data r;
     ring := {| write_idx := 0; read_idx := 0; events := events (ring r) |};
     pixels := d |}.

(** The release of the old region, when there is one. *)
Definition freed (s : JukeShmemState) : list (Event Loc) :=
  match shmem s with
  | Some _ => [EvCall (MemfdFree (shmem_size s) (shmem_fd s)) 0]
  | None => []
  end.

(** A call to the allocator or to its release. *)
Definition is_alloc_or_free (e : Event Loc) : bool :=
  match e with
  | EvCall (MemfdAlloc _ _) _ | EvCall (MemfdFree _ _) _ => true
  | _ => false
  end.

(** A call into the input sink. *)
Definition is_input_call (e : Event Loc) : bool :=
  match e with
  | EvCall (InputQueueRel _ _) _ | EvCall (InputQueueAbs _ _ _ _) _
  | EvCall (InputQueueBtn _ _) _ | EvCall (InputSendKeyNumber _ _) _
  | EvCall InputEventSync _ => true
  | _ => false
  end.

(** ** The callbacks as operations on the state *)

(** The entries of [juke_shmem_ops]. *)
Inductive Op :=
| OpGfxUpdate (x y w h : Z)
| OpGfxSwitch (new_surface : option DisplaySurface)
| OpRefresh (fuel : nat)
| OpCursorDefine
| OpMouseSet (x y : Z) (on : bool).

Definition run_op (host : Host Loc) (op : Op) : M JukeShmemState Loc unit :=
  match op with
  | OpGfxUpdate x y w h => juke_shmem_gfx_update x y w h
  | OpGfxSwitch new_surface => juke_shmem_gfx_switch host new_surface
  | OpRefresh fuel => juke_shmem_refresh host fuel
  | OpCursorDefine => juke_shmem_cursor_define
  | OpMouseSet x y on => juke_shmem_mouse_set x y on
  end.

(** A switch to a surface (and not to none). *)
Definition is_surface_switch (op : Op) : bool :=
  match op with OpGfxSwitch (Some _) => true | _ => false end.

(** No counter of [r] is larger than in [r']. *)
Definition counters_le (r r' : Region) : Prop :=
  frame_counter (hdr r) <= frame_counter (hdr r') /\
  cursor_version (hdr r) <= cursor_version (hdr r') /\
  write_idx (ring r) <= write_idx (ring r') /\
  read_idx (ring r) <= read_idx (ring r').

(** The counters are monotone over the lifetime of a region: whatever
    callback runs, as long as it neither releases nor allocates a region, no
    counter goes down. *)
Definition counters_monotone_over_region_lifetime : Prop :=
  forall (host : Host Loc) op s r t s' r' tr,
    shmem s = Some r ->
    run_op host op s t = Done (tt, s', t ++ tr) ->
    forallb (fun e => negb (is_alloc_or_free e)) tr = true ->
    shmem s' = Some r' ->
    counters_le r r'.

(** The four counters of a region are back at 0. *)
Definition counters_zero (r : Region) : Prop :=
  frame_counter (hdr r) = 0 /\ cursor_version (hdr r) = 0 /\
  write_idx (ring r) = 0 /\ read_idx (ring r) = 0.

(** What a callback other than a switch to a surface, called in the state
    [s], has done to the counters of the region [r] that was there, [r']
    being the region afterwards: an update adds 1 to [frame_counter] if
    there is a surface (and does nothing without one), a cursor definition
    adds 1 to [cursor_version], a refresh sets [read_idx] to [write_idx];
    every other counter, [write_idx] always among them, is as it was. *)
Definition counters_moved (op : Op) (s : JukeShmemState) (r r' : Region) : Prop :=
  frame_counter (hdr r') =
    match op, surface s with
    | OpGfxUpdate _ _ _ _, Some _ => wrap64 (frame_counter (hdr r) + 1)
    | _, _ => frame_counter (hdr r)
    end /\
  cursor_version (hdr r') =
    match op with
    | OpCursorDefine => wrap32 (cursor_version (hdr r) + 1)
    | _ => cursor_version (hdr r)
    end /\
  write_idx (ring r') = write_idx (ring r) /\
  read_idx (ring r') =
    match op with
    | OpRefresh _ => write_idx (ring r)
    | _ => read_idx (ring r)
    end.

(** A one-pixel surface and a region that holds it. *)
Definition pixel_surface : DisplaySurface :=
  {| surface_width := 1; surface_height := 1; surface_stride := 4;
     surface_format := 0x20028888; surface_data := [1; 2; 3; 4] |}.

Definition pixel_region (fc cv w rd : Z) : Region :=
  {| hdr := set_field F_cursor_version cv
              (set_field F_frame_counter fc (switched_header pixel_surface));
     cursor_data := replicate (Z.to_nat JUKE_CURSOR_MAX_PIXELS) 0;
     ring := {| write_idx := w; read_idx := rd;
                events := replicate (Z.to_nat JUKE_INPUT_RING_SIZE) zero_event |};
     pixels := [1; 2; 3; 4] |}.

Definition pixel_state (fc cv w rd : Z) : JukeShmemState :=
  {| con_cursor := None; surface := Some pixel_surface;
     shmem := Some (pixel_region fc cv w rd);
     shmem_size := region_overhead + 4; shmem_fd := 7;
     socket_path := None; client_fd := -1; fd_sent := false |}.

(** A host whose allocator delivers descriptor 7 and where no renderer is
    listening. *)
Definition alloc_host : Host Loc :=
  fun _ c => match c with MemfdAlloc _ _ => 7 | _ => -1 end.

(** A 2x2 cursor with hotspot (1, 1). *)
Definition small_cursor : QEMUCursor :=
  {| cur_width := 2; cur_height := 2; hot_x := 1; hot_y := 1;
     cur_data := [11; 12; 21; 22] |}.

Definition set_con_cursor (v : option QEMUCursor) (s : JukeShmemState) :=
  {| con_cursor := v; surface := surface s; shmem := shmem s;
     shmem_size := shmem_size s; shmem_fd := shmem_fd s;
     socket_path := socket_path s; client_fd := client_fd s; fd_sent := fd_sent s |}.


(** ** The refresh interval ([juke_shmem_setup_refresh], Linux build)

    The function walks /dev/dri, asks libdrm for the CRTCs of every card
    it can open and derives the polling interval from the fastest active
    mode of the first card that has one.  What the host presents (the
    directory, the descriptors, the resources of a card) is the argument
    of the model; its result is the interval handed to
    [update_displaychangelistener], or nothing when the arithmetic divides
    by zero. *)

(** [crtc->mode]: the timings the function reads. *)
Record drmModeModeInfo := { htotal : Z; vtotal : Z; clock : Z }.

Record drmModeCrtc := { mode_valid : Z; mode : drmModeModeInfo }.

(** An entry of /dev/dri: its name, what [open] answers for it, and what
    [drmModeGetResources] answers (NULL, or the CRTCs, each as
    [drmModeGetCrtc] delivers it, which may be NULL too). *)
Record DriEntry := {
  d_name : string;
  open_fd : Z;
  resources : option (list (option drmModeCrtc))
}.

(** The body of the loop over the CRTCs of a card: the new value of
    [interval_ms]. *)
Definition crtc_interval (interval_ms : Z) (crtc : option drmModeCrtc) : option Z :=
  match crtc with
  | None => Some interval_ms
  | Some c =>
      if mode_valid c =? 0 then Some interval_ms
      else
        let htotal := wrap32 (htotal (mode c)) in
        let vtotal := wrap32 (vtotal (mode c)) in
        let clock := wrap32 (clock (mode c)) in
        if (htotal >? 0) && (vtotal >? 0) && (clock >? 0) then
          let den := wrap32 (htotal * vtotal) in
          if den =? 0 then None
          else
            let refresh_hz := int32 (wrap32 (clock * 1000) / den) in
            if refresh_hz =? 0 then None
            else
              let this_interval := Z.quot 1000 refresh_hz in
              if (this_interval >? 0)
                 && ((interval_ms =? 0) || (this_interval <? interval_ms))
              then Some this_interval
              else Some interval_ms
        else Some interval_ms
  end.

(** [for (i = 0; i < res->count_crtcs; i++) ...] *)
Fixpoint scan_crtcs (crtcs : list (option drmModeCrtc)) (interval_ms : Z)
  : option Z :=
  match crtcs with
  | [] => Some interval_ms
  | c :: rest =>
      match crtc_interval interval_ms c with
      | Some i => scan_crtcs rest i
      | None => None
      end
  end.

(** [while ((entry = readdir(dir)) != NULL) ...] *)
Fixpoint scan_cards (entries : list DriEntry) (interval_ms : Z) : option Z :=
  match entries with
  | [] => Some interval_ms
  | e :: rest =>
      if negb (String.prefix "card" (d_name e)) then scan_cards rest interval_ms
      else if open_fd e <? 0 then scan_cards rest interval_ms
      else
        match (match resources e with
               | Some crtcs => scan_crtcs crtcs interval_ms
               | None => Some interval_ms
               end) with
        | None => None
        | Some i => if i >? 0 then Some i else scan_cards rest i
        end
  end.

(** [dri] is what [opendir("/dev/dri")] gives: NULL or the entries. *)
Definition juke_shmem_setup_refresh (dri : option (list DriEntry)) : option Z :=
  match (match dri with
         | Some entries => scan_cards entries 0
         | None => Some 0
         end) with
  | None => None
  | Some interval_ms =>
      if (interval_ms >? 0) && (interval_ms <? 100) then Some interval_ms
      else Some 8
  end.

(** ** Notions used to state the properties of the refresh interval *)

(** The interval of an active mode in milliseconds, when the arithmetic of
    [crtc_interval] goes through for it. *)
Definition mode_interval (m : drmModeModeInfo) : Z :=
  Z.quot 1000 (int32 (wrap32 (wrap32 (clock m) * 1000)
                      / wrap32 (wrap32 (htotal m) * wrap32 (vtotal m)))).

(** A CRTC the scan takes into account: delivered, with a valid mode whose
    timings are all positive. *)
Definition active (crtc : option drmModeCrtc) : option drmModeModeInfo :=
  match crtc with
  | Some c =>
      if negb (mode_valid c =? 0)
         && (wrap32 (htotal (mode c)) >? 0) && (wrap32 (vtotal (mode c)) >? 0)
         && (wrap32 (clock (mode c)) >? 0)
      then Some (mode c) else None
  | None => None
  end.

(** A mode that refreshes at least once a second (and whose timings fit
    the 32-bit arithmetic): the divisions of [crtc_interval] are defined
    for it. *)
Definition at_least_one_hertz (m : drmModeModeInfo) : Prop :=
  0 < wrap32 (htotal m) * wrap32 (vtotal m) < 2 ^ 32 /\
  wrap32 (clock m) * 1000 < 2 ^ 32 /\
  wrap32 (htotal m) * wrap32 (vtotal m) <= wrap32 (clock m) * 1000.

(** The cards the scan looks into, in directory order. *)
Definition scanned (e : DriEntry) : bool :=
  String.prefix "card" (d_name e) && (0 <=? open_fd e).

Definition crtcs_of (e : DriEntry) : list (option drmModeCrtc) :=
  default [] (resources e).

(** Every active mode of every card refreshes at least once a second. *)
Definition modes_sane (entries : list DriEntry) : Prop :=
  forall e c m, In e entries -> scanned e = true ->
    In c (crtcs_of e) -> active c = Some m -> at_least_one_hertz m.

(** An entry the scan gets nothing from: not a card it can open, or a
    card without an active CRTC. *)
Definition idle (e : DriEntry) : Prop :=
  scanned e = false \/ forall c, In c (crtcs_of e) -> active c = None.

(** A card the scan stops at: it can be opened and one of its active modes
    has a positive interval. *)
Definition usable (e : DriEntry) : Prop :=
  scanned e = true /\
  exists c m, In c (crtcs_of e) /\ active c = Some m /\ 0 < mode_interval m.

(** A mode that refreshes less than once a second. *)
Definition below_one_hertz (m : drmModeModeInfo) : Prop :=
  wrap32 (clock m) * 1000 < wrap32 (htotal m) * wrap32 (vtotal m) < 2 ^ 32.

(** An entry that is no card, such as the directory itself. *)
Definition other_entry (name : string) : DriEntry :=
  {| d_name := name; open_fd := 3; resources := None |}.

(** A card with one CRTC in the given mode. *)
Definition one_card (name : string) (khz ht vt : Z) : DriEntry :=
  {| d_name := name; open_fd := 9;
     resources := Some [Some {| mode_valid := 1;
                                mode := {| htotal := ht; vtotal := vt;
                                           clock := khz |} |}] |}.

(** The 1920x1080 timings at 60 Hz. *)
Definition mode_60 : drmModeModeInfo :=
  {| htotal := 2200; vtotal := 1125; clock := 148500 |}.

(** A card at 2000 Hz, whose interval is 0 ms, and one below 1 Hz. *)
Definition fast_card : DriEntry := one_card "card0" 2000 100 10.

Definition slow_card : DriEntry := one_card "card9" 1 100 100.

(** ** The display as a whole: its states and what keeps them in order *)

Definition set_surface_data (d : list Z) (surf : DisplaySurface) : DisplaySurface :=
  {| surface_width := surface_width surf; surface_height := surface_height surf;
     surface_stride := surface_stride surf; surface_format := surface_format surf;
     surface_data := d |}.

(** The allocator never fails. *)
Definition alloc_succeeds (host : Host Loc) : Prop :=
  forall t name n, 0 <= host t (MemfdAlloc name n).

(** What the host hands over with an operation is in order: a surface is
    one of the host's. *)
Definition op_ok (op : Op) : Prop :=
  match op with
  | OpGfxSwitch (Some surf) => surface_ok surf
  | _ => True
  end.

(** The header of [r] describes the surface. *)
Definition describes (r : Region) (surf : DisplaySurface) : Prop :=
  magic (hdr r) = JUKE_SHMEM_MAGIC /\ version (hdr r) = JUKE_SHMEM_VERSION /\
  width (hdr r) = surface_width surf /\ height (hdr r) = surface_height surf /\
  stride (hdr r) = surface_stride surf /\ format (hdr r) = surface_format surf.

(** The state of the display is in order: the capacity is that of the
    region, the console cursor and the surface are the host's, the cursor
    slot and the input ring have their size, and a region that is there
    together with a surface describes that surface and has room for its
    pixels. *)
Definition display_inv (s : JukeShmemState) : Prop :=
  display_ok s /\
  match con_cursor s with Some c => cursor_ok c | None => True end /\
  match surface s with Some surf => surface_ok surf | None => True end /\
  match shmem s with
  | Some r =>
      length (cursor_data r) = Z.to_nat JUKE_CURSOR_MAX_PIXELS /\
      length (events (ring r)) = Z.to_nat JUKE_INPUT_RING_SIZE /\
      0 <= read_idx (ring r) < 2 ^ 32 /\ 0 <= write_idx (ring r) < 2 ^ 32 /\
      match surface s with
      | Some surf =>
          describes r surf /\
          surface_stride surf * surface_height surf <= Z.of_nat (length (pixels r))
      | None => True
      end
  | None => True
  end.

(** What can happen to the display: a callback of [juke_shmem_ops] runs to
    its end; the renderer enqueues input (it writes the event slots and
    [write_idx]); the guest defines another console cursor; the guest draws
    into the surface. *)
Inductive display_step (host : Host Loc) : JukeShmemState -> JukeShmemState -> Prop :=
| step_callback op s t s' t' :
    op_ok op -> run_op host op s t = Done (tt, s', t') ->
    display_step host s s'
| step_enqueue s r evs w :
    shmem s = Some r ->
    length evs = Z.to_nat JUKE_INPUT_RING_SIZE -> 0 <= w < 2 ^ 32 ->
    display_step host s
      (set_shmem (Some (set_ring {| write_idx := w; read_idx := read_idx (ring r);
                                    events := evs |} r)) s)
| step_cursor s c :
    match c with Some c => cursor_ok c | None => True end ->
    display_step host s (set_con_cursor c s)
| step_draw s surf d :
    surface s = Some surf -> length d = length (surface_data surf) ->
    display_step host s (set_surface (Some (set_surface_data d surf)) s).

(** The states of a display that [juke_shmem_init] has set up. *)
Inductive display_reachable (host : Host Loc) : JukeShmemState -> Prop :=
| reach_init con socket t s t' :
    match con with Some c => cursor_ok c | None => True end ->
    juke_shmem_init host socket (new_state con) t = Done (tt, s, t') ->
    display_reachable host s
| reach_next s s' :
    display_reachable host s -> display_step host s s' ->
    display_reachable host s'.

(** The arguments of a callback are in range for the state it is called
    in: [int] coordinates, a rectangle within the rows of the surface, fuel
    for the events that wait. *)
Definition op_in_range (s : JukeShmemState) (op : Op) : Prop :=
  match op with
  | OpGfxUpdate x y w h =>
      - 2 ^ 31 <= x < 2 ^ 31 /\ - 2 ^ 31 <= w < 2 ^ 31 /\
      match surface s with
      | Some surf => 0 <= y /\ 0 <= h /\ y + h <= surface_height surf
      | None => True
      end
  | OpGfxSwitch _ => op_ok op
  | OpRefresh fuel =>
      match shmem s with
      | Some r => (Z.to_nat (pending_count (ring r)) <= fuel)%nat
      | None => True
      end
  | OpCursorDefine => True
  | OpMouseSet _ _ _ => True
  end.

(** The region after a drain: [read_idx] has caught up with [write_idx]. *)
Definition drained (r : Region) : Region :=
  set_ring (set_read_idx (write_idx (ring r)) (ring r)) r.

(** What a drain adds to the trace: the acquire load of [write_idx], the
    calls the pending events are translated to, and, if there were any, the
    sync and the release store of [read_idx]. *)
Definition drain_events (r : Region) : list (Event Loc) :=
  [EvAtomicLoad RingWriteIdx Acquire (write_idx (ring r))]
  ++ concat (map (dispatch_calls (hdr r)) (pending (ring r)))
  ++ (if pending_count (ring r) =? 0 then []
      else [EvCall InputEventSync 0;
            EvAtomicStore RingReadIdx (write_idx (ring r)) Release]).

(** A refresh can drain the input there is: the ring is in order and the
    fuel covers the events that wait. *)
Definition refresh_ready (s : JukeShmemState) (fuel : nat) : Prop :=
  match shmem s with
  | Some r =>
      input_ring_ok (ring r) /\ (Z.to_nat (pending_count (ring r)) <= fuel)%nat
  | None => True
  end.

(** Between [s] and [s'] nothing but the connection ([client_fd],
    [fd_sent]) and the [read_idx] of the input ring has changed, and
    [read_idx] has caught up with [write_idx]. *)
Definition refreshed (s s' : JukeShmemState) : Prop :=
  con_cursor s' = con_cursor s /\ surface s' = surface s /\
  shmem_size s' = shmem_size s /\ shmem_fd s' = shmem_fd s /\
  socket_path s' = socket_path s /\
  shmem s' = option_map drained (shmem s).

(** What a refresh adds to the trace before it asks the guest for an
    update: calls other than that one, the acquire load of [write_idx] and
    the release store of [read_idx]. *)
Definition refresh_event (e : Event Loc) : Prop :=
  match e with
  | EvCall GraphicHwUpdate _ => False
  | EvCall _ _ => True
  | EvAtomicLoad RingWriteIdx Acquire _ => True
  | EvAtomicStore RingReadIdx _ Release => True
  | _ => False
  end.

(** A host that refuses everything: no memory, no socket. *)
Definition deaf_host : Host Loc := fun _ _ => -1.

(** A surface of two pixels. *)
Definition pair_surface : DisplaySurface :=
  {| surface_width := 2; surface_height := 1; surface_stride := 8;
     surface_format := 0x20028888; surface_data := [1; 2; 3; 4; 5; 6; 7; 8] |}.


End Display.
(** ** Facts about machine integers, the monad and [memcpy] *)

(** Linear arithmetic after turning boolean comparisons into propositions. *)
Ltac bool_hyps :=
  repeat match goal with
  | H : (_ && _) = true |- _ => apply andb_prop in H; destruct H
  | H : (_ || _) = false |- _ => apply orb_false_elim in H; destruct H
  | H : (_ <? _) = true |- _ => apply Z.ltb_lt in H
  | H : (_ <? _) = false |- _ => apply Z.ltb_ge in H
  | H : (_ <=? _) = true |- _ => apply Z.leb_le in H
  | H : (_ <=? _) = false |- _ => apply Z.leb_gt in H
  | H : (_ >? _) = true |- _ => rewrite Z.gtb_ltb in H
  | H : (_ >? _) = false |- _ => rewrite Z.gtb_ltb in H
  | H : (_ >=? _) = true |- _ => rewrite Z.geb_leb in H
  | H : (_ >=? _) = false |- _ => rewrite Z.geb_leb in H
  | H : (_ =? _) = true |- _ => apply Z.eqb_eq in H
  | H : (_ =? _) = false |- _ => apply Z.eqb_neq in H
  end.
Ltac blia :=
  bool_hyps;
  repeat match goal with
  | H : (_ && _) = false |- _ => apply andb_false_iff in H; destruct H; bool_hyps
  | H : (_ || _) = true |- _ => apply orb_prop in H; destruct H; bool_hyps
  end; lia.

Lemma wrap32_small z : 0 <= z < 2 ^ 32 -> wrap32 z = z.
Proof. intros H. unfold wrap32. apply Z.mod_small. exact H. Qed.

Lemma wrap64_small z : 0 <= z < 2 ^ 64 -> wrap64 z = z.
Proof. intros H. unfold wrap64. apply Z.mod_small. exact H. Qed.

Lemma wrap32_range z : 0 <= wrap32 z < 2 ^ 32.
Proof. unfold wrap32. apply Z.mod_pos_bound. lia. Qed.

Lemma int32_small z : - 2 ^ 31 <= z < 2 ^ 31 -> int32 z = z.
Proof. intros H. unfold int32. rewrite Z.mod_small; lia. Qed.

Lemma wrap32_sub_l a b : wrap32 (wrap32 a - b) = wrap32 (a - b).
Proof. unfold wrap32. apply Zminus_mod_idemp_l. Qed.

Lemma wrap32_sub_r a b : wrap32 (a - wrap32 b) = wrap32 (a - b).
Proof. unfold wrap32. apply Zminus_mod_idemp_r. Qed.

Lemma wrap32_add_l a b : wrap32 (wrap32 a + b) = wrap32 (a + b).
Proof. unfold wrap32. apply Zplus_mod_idemp_l. Qed.

(** Masking with a 32-bit mask only looks at the low 32 bits. *)
Lemma land_wrap32 a m : 0 <= m < 2 ^ 32 -> Z.land (wrap32 a) m = Z.land a m.
Proof.
  intros Hm. unfold wrap32.
  rewrite <- (Z.land_ones a 32) by lia.
  rewrite <- Z.land_assoc.
  rewrite (Z.land_comm (Z.ones 32) m).
  rewrite (Z.land_ones m 32) by lia.
  rewrite (Z.mod_small m) by lia. reflexivity.
Qed.

(** A mask never yields more than the mask. *)
Lemma land_mask_range a m : 0 <= m -> 0 <= Z.land a m <= m.
Proof.
  intros Hm. apply Z.ldiff_le; [exact Hm|].
  apply Z.bits_inj'. intros n Hn.
  rewrite Z.ldiff_spec, Z.land_spec, Z.bits_0.
  destruct (Z.testbit a n), (Z.testbit m n); reflexivity.
Qed.

Section MonadFacts.
Context {St L : Type}.

Lemma bind_Done {A B} (m : M St L A) (k : A -> M St L B) s t a s' t' :
  m s t = Done (a, s', t') -> bind m k s t = k a s' t'.
Proof. intros H. unfold bind. rewrite H. reflexivity. Qed.

Lemma bind_Fault {A B} (m : M St L A) (k : A -> M St L B) s t :
  m s t = Fault -> bind m k s t = Fault.
Proof. intros H. unfold bind. rewrite H. reflexivity. Qed.
End MonadFacts.



Lemma memcpy_Some dst off src soff n :
  0 <= off -> 0 <= soff -> 0 <= n ->
  off + n <= Z.of_nat (length dst) -> soff + n <= Z.of_nat (length src) ->
  memcpy dst off src soff n =
    Some (list_inserts (Z.to_nat off)
            (take (Z.to_nat n) (drop (Z.to_nat soff) src)) dst).
Proof.
  intros. unfold memcpy.
  repeat match goal with
  | |- context [?a <=? ?b] => rewrite (Zle_imp_le_bool a b) by assumption
  end. reflexivity.
Qed.

Lemma memcpy_length dst off src soff n d :
  memcpy dst off src soff n = Some d -> length d = length dst.
Proof.
  unfold memcpy. destruct (_ && _); [|discriminate].
  intros [= <-]. apply length_inserts.
Qed.

(** What a byte of the destination reads after a copy. *)
Lemma memcpy_lookup dst off src soff n d (p : nat) :
  memcpy dst off src soff n = Some d ->
  d !! p = if (off <=? Z.of_nat p) && (Z.of_nat p <? off + n)
           then src !! Z.to_nat (soff + (Z.of_nat p - off))
           else dst !! p.
Proof.
  unfold memcpy.
  destruct (_ && _) eqn:Hc; [|discriminate]. intros [= <-].
  repeat (apply andb_prop in Hc; destruct Hc as [Hc ?]).
  assert (Hlen : length (take (Z.to_nat n) (drop (Z.to_nat soff) src)) = Z.to_nat n).
  { rewrite length_take, length_drop. lia. }
  destruct (off <=? Z.of_nat p) eqn:Hlo; simpl.
  - destruct (Z.of_nat p <? off + n) eqn:Hhi.
    + rewrite list_lookup_inserts by lia.
      rewrite lookup_take_lt by lia. rewrite lookup_drop. f_equal. lia.
    + rewrite list_lookup_inserts_ge by lia. reflexivity.
  - rewrite list_lookup_inserts_lt by lia. reflexivity.
Qed.


(** ** Rules for [confined] *)

Section FrameFacts.
Context {St L : Type}.
Variable R : St -> St -> Prop.
Variable Q : Event L -> Prop.
Hypothesis R_refl : forall s, R s s.
Hypothesis R_trans : forall a b c, R a b -> R b c -> R a c.

Lemma confined_ret {A} (a : A) : confined R Q (ret a).
Proof.
  intros s t a' s' t' [= <- <- <-]. split; [apply R_refl|].
  exists []. rewrite app_nil_r. auto.
Qed.

Lemma confined_bind {A B} (m : M St L A) (k : A -> M St L B) :
  confined R Q m -> (forall a, confined R Q (k a)) -> confined R Q (bind m k).
Proof.
  intros Hm Hk s t b s' t'. unfold bind.
  destruct (m s t) as [[[a s1] t1]| |] eqn:E; try discriminate.
  intros H. destruct (Hm _ _ _ _ _ E) as (HR1 & tr1 & -> & HQ1).
  destruct (Hk a _ _ _ _ _ H) as (HR2 & tr2 & -> & HQ2).
  split; [eauto|]. exists (tr1 ++ tr2). rewrite app_assoc.
  split; [reflexivity|]. apply Forall_app; auto.
Qed.

Lemma confined_get : confined R Q get.
Proof.
  intros s t a s' t' [= <- <- <-]. split; [apply R_refl|].
  exists []. rewrite app_nil_r. auto.
Qed.

Lemma confined_emit e : Q e -> confined R Q (emit e).
Proof.
  intros He s t a s' t' [= <- <- <-]. split; [apply R_refl|].
  exists [e]. auto.
Qed.

Lemma confined_call (host : Host L) c :
  (forall r, Q (EvCall c r)) -> confined R Q (call host c).
Proof.
  intros He s t a s' t' [= <- <- <-]. split; [apply R_refl|].
  eexists [_]. auto.
Qed.

Lemma confined_notify c : Q (EvCall c 0) -> confined R Q (notify c).
Proof. intros H. apply confined_emit. exact H. Qed.

Lemma confined_when c (m : M St L unit) :
  confined R Q m -> confined R Q (when c m).
Proof. intros H. destruct c; [exact H|apply confined_ret]. Qed.

Lemma confined_fault {A} : confined R Q (@fault St L A).
Proof. intros s t a s' t' [=]. Qed.

Lemma confined_timeout {A} : confined R Q (@timeout St L A).
Proof. intros s t a s' t' [=]. Qed.

(** [let! s := get in put (f s)] *)
Lemma confined_update (f : St -> St) :
  (forall s, R s (f s)) -> confined R Q (bind get (fun s => put (f s))).
Proof.
  intros H s t a s' t' [= <- <- <-]. split; [apply H|].
  exists []. rewrite app_nil_r. auto.
Qed.
End FrameFacts.

Lemma confined_weaken {St L A} (R R' : St -> St -> Prop) (Q Q' : Event L -> Prop)
    (m : M St L A) :
  (forall s s', R s s' -> R' s s') -> (forall e, Q e -> Q' e) ->
  confined R Q m -> confined R' Q' m.
Proof.
  intros HR HQ Hm s t a s' t' H.
  destruct (Hm _ _ _ _ _ H) as (H1 & tr & -> & H2).
  split; [auto|]. exists tr. split; [reflexivity|].
  eapply Forall_impl; eauto.
Qed.

(** * Facts about the audio back end *)

Module AudioFacts.
Import Audio.
Local Open Scope juke_scope.

Lemma mod_sub_cases p off rb :
  0 <= p < rb -> 0 <= off < rb ->
  (p - off) mod rb = if off <=? p then p - off else p - off + rb.
Proof.
  intros Hp Ho. destruct (off <=? p) eqn:E.
  - apply Z.mod_small. lia.
  - rewrite <- (Z.mod_small (p - off + rb) rb) by lia.
    replace (p - off + rb) with (p - off + 1 * rb) by lia.
    rewrite Z.mod_add by lia. reflexivity.
Qed.

Ltac split_ifs :=
  repeat match goal with
  | |- context [if ?c then _ else _] => destruct c eqn:?
  end.

(** One copy that does not reach the end of the ring. *)
Lemma ring_written_one d d' rb off buf n :
  0 <= off < rb -> 0 <= n -> off + n <= rb ->
  memcpy d off buf 0 n = Some d' ->
  ring_written d d' rb off buf n.
Proof.
  intros Ho Hn Hfit Hm. split; [eapply memcpy_length; eauto|].
  intros p. rewrite (memcpy_lookup _ _ _ _ _ _ p Hm).
  destruct (Z.of_nat p <? rb) eqn:Hp; cbn [andb].
  - rewrite mod_sub_cases by blia.
    destruct (off <=? Z.of_nat p) eqn:Hlo; cbn [andb];
      split_ifs; try reflexivity; try (f_equal; blia); exfalso; blia.
  - split_ifs; try reflexivity; exfalso; blia.
Qed.

(** Two copies: up to the end of the ring, then from its start. *)
Lemma ring_written_two d d1 d2 rb off buf n :
  0 <= off < rb -> rb - off < n -> n <= rb ->
  memcpy d off buf 0 (rb - off) = Some d1 ->
  memcpy d1 0 buf (rb - off) (n - (rb - off)) = Some d2 ->
  ring_written d d2 rb off buf n.
Proof.
  intros Ho Hwrap Hn Hm1 Hm2. split.
  { rewrite (memcpy_length _ _ _ _ _ _ Hm2). eapply memcpy_length; eauto. }
  intros p. rewrite (memcpy_lookup _ _ _ _ _ _ p Hm2).
  rewrite (memcpy_lookup _ _ _ _ _ _ p Hm1).
  destruct (Z.of_nat p <? rb) eqn:Hp; cbn [andb].
  - rewrite mod_sub_cases by blia.
    destruct (off <=? Z.of_nat p) eqn:Hlo; cbn [andb];
      split_ifs; try reflexivity; try (f_equal; blia); exfalso; blia.
  - split_ifs; try reflexivity; exfalso; blia.
Qed.

Section Handshake.
Variable host : Host Loc.

Lemma handshake_only_refl j s : state j = Some s -> handshake_only j j.
Proof. intros H. unfold handshake_only. eauto 12. Qed.

Lemma handshake_only_trans j1 j2 j3 :
  handshake_only j1 j2 -> handshake_only j2 j3 -> handshake_only j1 j3.
Proof.
  intros (Hb & Hn & s & s' & Ha & Hb2 & Hc1 & Hc2 & Hc3 & Hc4)
         (Hb' & Hn' & u & u' & Hd & He & Hf1 & Hf2 & Hf3 & Hf4).
  rewrite Hb2 in Hd. injection Hd as <-.
  unfold handshake_only. split; [congruence|]. split; [congruence|].
  exists s, u'. repeat split; congruence.
Qed.

Ltac unfold_audio :=
  unfold juke_audio_send_fd, juke_audio_connect, atomic_load, atomic_store,
    store, load, ring_memcpy, modify_region, the_region, modify_state,
    the_state, when, notify, call, emit, bind, get, put, ret.

Lemma juke_audio_send_fd_run j s t :
  state j = Some s ->
  exists j' tr,
    juke_audio_send_fd host j t = Done (tt, j', t ++ tr) /\
    handshake_only j j' /\ forallb is_call tr = true.
Proof.
  intros Hs. unfold_audio. rewrite Hs.
  destruct (_ || _).
  - exists j, []. rewrite app_nil_r. eauto using handshake_only_refl.
  - destruct (_ <? 0).
    + eexists j, [_; _]. rewrite <- app_assoc. simpl.
      eauto using handshake_only_refl.
    + rewrite Hs. eexists _, [_; _]. rewrite <- app_assoc. simpl.
      split; [reflexivity|]. split; [|reflexivity].
      repeat split. exists s, (set_fd_sent true s). auto 10.
Qed.

(** [juke_audio_send_fd], case by case. *)
Lemma juke_audio_send_fd_noop j s t :
  state j = Some s ->
  client_fd s < 0 \/ shmem_fd s < 0 \/ fd_sent s = true ->
  juke_audio_send_fd host j t = Done (tt, j, t).
Proof.
  intros Hs H. unfold_audio. rewrite Hs.
  destruct (_ || _) eqn:E; [reflexivity|].
  exfalso. apply orb_false_elim in E as [E E3].
  apply orb_false_elim in E as [E1 E2].
  destruct H as [H|[H|H]]; [blia|blia|congruence].
Qed.

Lemma juke_audio_send_fd_ok j s t :
  state j = Some s ->
  0 <= client_fd s -> 0 <= shmem_fd s -> fd_sent s = false ->
  0 <= host t (Sendmsg (client_fd s) (shmem_fd s)) ->
  juke_audio_send_fd host j t =
    Done (tt, set_state (set_fd_sent true s) j,
          t ++ [EvCall (Sendmsg (client_fd s) (shmem_fd s))
                  (host t (Sendmsg (client_fd s) (shmem_fd s)));
                EvCall (ErrorReport "juke-audio: sent shmem fd to Juke") 0]).
Proof.
  intros Hs H1 H2 H3 H4. unfold_audio. rewrite Hs, H3.
  rewrite (proj2 (Z.ltb_ge (client_fd s) 0)) by lia.
  rewrite (proj2 (Z.ltb_ge (shmem_fd s) 0)) by lia. cbn [orb].
  rewrite (proj2 (Z.ltb_ge (host t _) 0)) by lia.
  rewrite Hs, <- app_assoc. reflexivity.
Qed.

Lemma audio_send_fd_times_sent n j s t :
  state j = Some s -> fd_sent s = true ->
  send_fd_times host n j t = Done (tt, j, t).
Proof.
  intros Hs Hsent. induction n as [|n IH]; [reflexivity|].
  cbn [send_fd_times].
  rewrite (bind_Done _ _ _ _ _ _ _
             (juke_audio_send_fd_noop j s t Hs (or_intror (or_intror Hsent)))).
  exact IH.
Qed.

Lemma juke_audio_connect_run j s t :
  state j = Some s ->
  exists r j' tr,
    juke_audio_connect host j t = Done (r, j', t ++ tr) /\
    handshake_only j j' /\ forallb is_call tr = true.
Proof.
  intros Hs. unfold juke_audio_connect.
  unfold the_state at 1. unfold bind at 1. unfold bind at 1. unfold get at 1.
  rewrite Hs. unfold ret at 1.
  destruct (_ || _).
  - exists (if 0 <=? client_fd s then 0 else -1), j, [].
    rewrite app_nil_r. unfold ret. eauto using handshake_only_refl.
  - unfold bind at 1. unfold call at 1.
    destruct (_ <? 0).
    + eexists _, j, [_]. unfold ret. eauto using handshake_only_refl.
    + unfold bind at 1. unfold call at 1.
      destruct (_ <? 0).
      * eexists _, j, [_; _; _]. unfold_audio. rewrite <- !app_assoc. simpl.
        eauto using handshake_only_refl.
      * unfold bind at 1. unfold notify at 1, emit at 1.
        unfold bind at 1. unfold modify_state at 1, the_state at 1.
        unfold bind at 1, bind at 1, get at 1. rewrite Hs. unfold ret at 1.
        unfold bind at 1, get at 1, put at 1.
        unfold bind at 1. unfold modify_state at 1, the_state at 1.
        unfold bind at 1, bind at 1, get at 1. cbn [state set_state]. unfold ret at 1.
        unfold bind at 1, get at 1, put at 1.
        unfold bind at 1. unfold the_state at 1.
        unfold bind at 1, get at 1. cbn [state set_state]. unfold ret at 1.
        unfold bind at 1.
        set (j1 := set_state _ (set_state _ j)).
        assert (H1 : handshake_only j j1).
        { repeat split. eexists s, _. split; [exact Hs|]. split; [reflexivity|]. auto 10. }
        destruct (0 <=? _); cbn [when].
        -- edestruct (juke_audio_send_fd_run j1) as (j2 & tr & -> & H2 & Hc);
             [reflexivity|].
           eexists 0, j2, (_ :: _ :: _ :: tr). unfold ret.
           rewrite <- !app_assoc. simpl. split; [reflexivity|].
           split; [eauto using handshake_only_trans|exact Hc].
        -- eexists 0, j1, [_; _; _]. unfold ret. rewrite <- !app_assoc. simpl.
           auto.
Qed.

Lemma the_state_run j s t : state j = Some s -> the_state j t = Done (s, j, t).
Proof. intros Hs. unfold_audio. rewrite Hs. reflexivity. Qed.

(** The connect-and-send prefix of [juke_write]. *)
Lemma handshake_run {A} (k : M JukeVoiceOut Loc A) j s t :
  state j = Some s ->
  exists j' s' tr,
    (let! s0 := the_state in
     do! when (client_fd s0 <? 0)
           (let! _ := juke_audio_connect host in ret tt) in
     let! s1 := the_state in
     do! when ((0 <=? client_fd s1) && negb (fd_sent s1))
           (juke_audio_send_fd host) in
     k) j t = k j' (t ++ tr) /\
    handshake_only j j' /\ state j' = Some s' /\
    forallb is_call tr = true.
Proof.
  intros Hs.
  rewrite (bind_Done _ _ _ _ _ _ _ (the_state_run j s t Hs)).
  assert (H1 : exists j1 s1 tr1,
    when (client_fd s <? 0) (let! _ := juke_audio_connect host in ret tt) j t
      = Done (tt, j1, t ++ tr1) /\
    handshake_only j j1 /\ state j1 = Some s1 /\ forallb is_call tr1 = true).
  { destruct (client_fd s <? 0); cbn [when].
    - destruct (juke_audio_connect_run j s t Hs) as (r & j1 & tr1 & Hc & Hh & Hf).
      pose proof Hh as (_ & _ & u & u' & _ & Hu' & _).
      exists j1, u', tr1. rewrite (bind_Done _ _ _ _ _ _ _ Hc). auto.
    - exists j, s, []. rewrite app_nil_r. unfold ret.
      eauto using handshake_only_refl. }
  destruct H1 as (j1 & s1 & tr1 & Hc1 & Hh1 & Hs1 & Hf1).
  rewrite (bind_Done _ _ _ _ _ _ _ Hc1).
  rewrite (bind_Done _ _ _ _ _ _ _ (the_state_run j1 s1 _ Hs1)).
  assert (H2 : exists j2 s2 tr2,
    when ((0 <=? client_fd s1) && negb (fd_sent s1)) (juke_audio_send_fd host)
      j1 (t ++ tr1) = Done (tt, j2, (t ++ tr1) ++ tr2) /\
    handshake_only j1 j2 /\ state j2 = Some s2 /\ forallb is_call tr2 = true).
  { destruct (_ && _); cbn [when].
    - destruct (juke_audio_send_fd_run j1 s1 (t ++ tr1) Hs1) as (j2 & tr2 & Hc & Hh & Hf).
      pose proof Hh as (_ & _ & u & u' & _ & Hu' & _).
      exists j2, u', tr2. auto.
    - exists j1, s1, []. rewrite app_nil_r. unfold ret.
      eauto using handshake_only_refl. }
  destruct H2 as (j2 & s2 & tr2 & Hc2 & Hh2 & Hs2 & Hf2).
  rewrite (bind_Done _ _ _ _ _ _ _ Hc2).
  exists j2, s2, (tr1 ++ tr2). rewrite app_assoc.
  split; [reflexivity|]. split; [eauto using handshake_only_trans|].
  split; [exact Hs2|]. rewrite forallb_app, Hf1, Hf2. reflexivity.
Qed.

Lemma audio_load_run f j s r t :
  state j = Some s -> shmem s = Some r ->
  load f j t = Done (get_field f (hdr r), j, t).
Proof. intros Hs Hr. unfold_audio. rewrite Hs, Hr. reflexivity. Qed.

Lemma atomic_load_run f o j s r t :
  state j = Some s -> shmem s = Some r ->
  atomic_load f o j t =
    Done (get_field f (hdr r), j, t ++ [EvAtomicLoad (Hdr f) o (get_field f (hdr r))]).
Proof. intros Hs Hr. unfold_audio. rewrite Hs, Hr. reflexivity. Qed.

Lemma atomic_store_run f v o j s r t :
  state j = Some s -> shmem s = Some r ->
  atomic_store f v o j t =
    Done (tt,
          set_state (set_shmem (Some (set_hdr (set_field f (wrap32 v) (hdr r)) r)) s) j,
          t ++ [EvAtomicStore (Hdr f) (wrap32 v) o]).
Proof. intros Hs Hr. unfold_audio. rewrite Hs, Hr. cbn. rewrite Hs. reflexivity. Qed.

Lemma audio_store_run f v j s r t :
  state j = Some s -> shmem s = Some r ->
  store f v j t =
    Done (tt,
          set_state (set_shmem (Some (set_hdr (set_field f (wrap32 v) (hdr r)) r)) s) j,
          t ++ [EvStore (Hdr f) (wrap32 v)]).
Proof. intros Hs Hr. unfold_audio. rewrite Hs, Hr. cbn. rewrite Hs. reflexivity. Qed.

Lemma modify_state_run f j s t :
  state j = Some s -> modify_state f j t = Done (tt, set_state (f s) j, t).
Proof. intros Hs. unfold_audio. rewrite Hs. reflexivity. Qed.

Lemma ring_memcpy_run off buf soff n d j s r t :
  state j = Some s -> shmem s = Some r ->
  memcpy (ring_data r) off buf soff n = Some d ->
  ring_memcpy off buf soff n j t =
    Done (tt, set_state (set_shmem (Some (set_ring_data d r)) s) j,
          t ++ [EvMemcpy (RingData off) n]).
Proof.
  intros Hs Hr Hm. unfold_audio. rewrite Hs, Hr. cbn. rewrite Hm, Hs, Hr.
  cbn. rewrite Hs. reflexivity.
Qed.
End Handshake.


Lemma ring_arith bpf r :
  ring_wf bpf r ->
  wrap32 (ring_frames (hdr r) - 1) = ring_frames (hdr r) - 1 /\
  Z.land (wrap32 (write_idx (hdr r) - read_idx (hdr r))) (ring_frames (hdr r) - 1)
    = used_frames (hdr r) /\
  0 <= used_frames (hdr r) <= ring_frames (hdr r) - 1 /\
  wrap32 (wrap32 (ring_frames (hdr r) - used_frames (hdr r)) - 1)
    = free_frames (hdr r) /\
  0 <= free_frames (hdr r) <= ring_frames (hdr r) - 1 /\
  wrap64 bpf = bpf /\
  wrap64 (ring_frames (hdr r) * bpf) = ring_frames (hdr r) * bpf /\
  wrap64 (Z.land (write_idx (hdr r)) (ring_frames (hdr r) - 1) * bpf)
    = write_offset bpf (hdr r) /\
  0 <= write_offset bpf (hdr r) <= (ring_frames (hdr r) - 1) * bpf.
Proof.
  intros (Hb & Hrf & Hw & Hr & Hlen).
  assert (Hu : 0 <= used_frames (hdr r) <= ring_frames (hdr r) - 1).
  { apply land_mask_range. lia. }
  assert (Hm : 0 <= Z.land (write_idx (hdr r)) (ring_frames (hdr r) - 1)
               <= ring_frames (hdr r) - 1).
  { apply land_mask_range. lia. }
  assert (H32 : 2 ^ 32 = 4294967296) by reflexivity.
  assert (H31 : 2 ^ 31 = 2147483648) by reflexivity.
  assert (H64 : 2 ^ 64 = 18446744073709551616) by reflexivity.
  assert (Hp1 : 0 <= ring_frames (hdr r) * bpf <= 4294967296 * 2147483648).
  { split; [nia|]. apply Z.mul_le_mono_nonneg; lia. }
  assert (Hp2 : 0 <= Z.land (write_idx (hdr r)) (ring_frames (hdr r) - 1) * bpf
                <= (ring_frames (hdr r) - 1) * bpf).
  { split; [nia|]. apply Z.mul_le_mono_nonneg_r; lia. }
  unfold free_frames, write_offset.
  rewrite (wrap32_small (_ - used_frames _)) by lia.
  repeat split; try lia;
    first [ apply land_wrap32; lia | apply wrap32_small; lia
          | apply wrap64_small; lia ].
Qed.

Section Write.
Variable host : Host Loc.

Lemma juke_write_hot j s r buf len t :
  state j = Some s -> shmem s = Some r ->
  enabled (hdr r) <> 0 ->
  ring_wf (bytes_per_frame j) r ->
  0 <= len < 2 ^ 64 -> len <= Z.of_nat (length buf) ->
  let n := Z.min (len / bytes_per_frame j) (free_frames (hdr r)) in
  0 < n ->
  exists j' s' d' pre copies,
    juke_write host buf len j t =
      Done (n * bytes_per_frame j, j',
            t ++ pre
              ++ [EvAtomicLoad (Hdr F_enabled) Acquire (enabled (hdr r));
                  EvAtomicLoad (Hdr F_read_idx) Acquire (read_idx (hdr r))]
              ++ copies
              ++ [EvAtomicStore (Hdr F_write_idx)
                    (wrap32 (write_idx (hdr r) + n)) Release]) /\
    forallb is_call pre = true /\
    forallb is_memcpy copies = true /\
    copied_bytes copies = n * bytes_per_frame j /\
    bytes_per_frame j' = bytes_per_frame j /\
    state j' = Some s' /\
    shmem s' = Some {| hdr := set_field F_write_idx
                                (wrap32 (write_idx (hdr r) + n)) (hdr r);
                       ring_data := d' |} /\
    ring_written (ring_data r) d'
      (ring_frames (hdr r) * bytes_per_frame j)
      (write_offset (bytes_per_frame j) (hdr r)) buf
      (n * bytes_per_frame j).
Proof.
  intros Hs Hr Hen Hwf Hlen Hbuf n Hn.
  unfold juke_write.
  rewrite (bind_Done get _ j t j j t) by reflexivity.
  assert (Hnr : not_ready j = false) by (unfold not_ready; rewrite Hs, Hr; reflexivity).
  rewrite Hnr.
  match goal with
  | |- context [bind the_state (fun s0 => bind (when _ _) (fun _ =>
                  bind the_state (fun s1 => bind (when _ _) (fun _ => ?k))))] =>
      destruct (handshake_run host k j s t Hs)
        as (j2 & s2 & pre & Hrun & Hho & Hs2 & Hpre)
  end.
  rewrite Hrun. clear Hrun.
  pose proof Hho as (Hbpf & _ & u & u' & Hu & Hu' & Hsh & _).
  rewrite Hs in Hu. injection Hu as <-. rewrite Hs2 in Hu'. injection Hu' as <-.
  rewrite Hr in Hsh.
  rewrite (bind_Done _ _ _ _ _ _ _ (atomic_load_run F_enabled Acquire j2 s2 r _ Hs2 Hsh)).
  cbn [get_field].
  destruct (enabled (hdr r) =? 0) eqn:E; [blia|]. clear E.
  rewrite (bind_Done _ _ _ _ _ _ _ (audio_load_run F_ring_frames j2 s2 r _ Hs2 Hsh)).
  rewrite (bind_Done _ _ _ _ _ _ _ (audio_load_run F_write_idx j2 s2 r _ Hs2 Hsh)).
  rewrite (bind_Done _ _ _ _ _ _ _ (atomic_load_run F_read_idx Acquire j2 s2 r _ Hs2 Hsh)).
  cbn [get_field].
  destruct (ring_arith _ _ Hwf) as (E1 & E2 & Hused & E3 & Hfree & E4 & E5 & E6 & Hoff).
  rewrite !E1, !E2, !E3, !E4, !E5, !E6.
  assert (Emin : (if len / bytes_per_frame j >? free_frames (hdr r)
                  then free_frames (hdr r) else len / bytes_per_frame j) = n).
  { rewrite Z.gtb_ltb. subst n. destruct (_ <? _) eqn:E; bool_hyps; lia. }
  rewrite !Emin.
  destruct Hwf as (Hb & Hrf & Hw & Hrd & Hcap).
  set (bpf := bytes_per_frame j) in *.
  set (rb := ring_frames (hdr r) * bpf) in *.
  set (off := write_offset bpf (hdr r)) in *.
  assert (Hnle : n <= len / bpf /\ n <= free_frames (hdr r)) by (subst n; lia).
  assert (Hnb : 0 < n * bpf <= len).
  { split; [nia|]. transitivity (len / bpf * bpf); [nia|].
    rewrite Z.mul_comm. apply Z.mul_div_le. lia. }
  assert (Hnrb : n * bpf <= rb - bpf) by (subst rb; nia).
  assert (Hoffrb : off <= rb - bpf) by (subst rb; lia).
  assert (H64 : 2 ^ 64 = 18446744073709551616) by reflexivity.
  assert (H31 : 2 ^ 31 = 2147483648) by reflexivity.
  assert (H32 : 2 ^ 32 = 4294967296) by reflexivity.
  assert (Hrb64 : rb <= 4294967296 * 2147483648).
  { subst rb. apply Z.mul_le_mono_nonneg; lia. }
  rewrite (wrap64_small (rb - off)) by lia.
  rewrite (wrap64_small (n * bpf)) by lia.
  destruct (bpf =? 0) eqn:E; [blia|]. clear E.
  destruct (n =? 0) eqn:E; [blia|]. clear E.
  destruct (rb - off >=? n * bpf) eqn:Hcase.
  - (* one copy *)
    rewrite Z.geb_leb in Hcase. apply Z.leb_le in Hcase.
    pose proof (memcpy_Some (ring_data r) off buf 0 (n * bpf)
                  ltac:(lia) ltac:(lia) ltac:(lia) ltac:(lia) ltac:(lia)) as Hm.
    rewrite (bind_Done _ _ _ _ _ _ _ (ring_memcpy_run _ _ _ _ _ j2 s2 r _ Hs2 Hsh Hm)).
    erewrite (bind_Done (atomic_store _ _ _));
      [|eapply atomic_store_run; reflexivity].
    eexists _, _, _, pre, [EvMemcpy (RingData off) (n * bpf)].
    split. { unfold ret. rewrite <- !app_assoc. reflexivity. }
    split; [exact Hpre|]. split; [reflexivity|].
    split; [simpl; lia|].
    split; [exact Hbpf|].
    split; [reflexivity|]. split; [reflexivity|].
    apply ring_written_one; try lia. exact Hm.
  - (* two copies, wrapping at the end of the ring *)
    rewrite Z.geb_leb in Hcase. apply Z.leb_gt in Hcase.
    pose proof (memcpy_Some (ring_data r) off buf 0 (rb - off)
                  ltac:(lia) ltac:(lia) ltac:(lia) ltac:(lia) ltac:(lia)) as Hm1.
    pose proof (memcpy_length _ _ _ _ _ _ Hm1) as Hl1.
    pose proof (memcpy_Some _ 0 buf (rb - off) (n * bpf - (rb - off))
                  ltac:(lia) ltac:(lia) ltac:(lia) ltac:(rewrite Hl1; lia) ltac:(lia)) as Hm2.
    erewrite (bind_Done (bind _ _)).
    2:{ rewrite (bind_Done _ _ _ _ _ _ _ (ring_memcpy_run _ _ _ _ _ j2 s2 r _ Hs2 Hsh Hm1)).
        eapply ring_memcpy_run; [reflexivity|reflexivity|].
        exact Hm2. }
    erewrite (bind_Done (atomic_store _ _ _));
      [|eapply atomic_store_run; reflexivity].
    eexists _, _, _, pre, [EvMemcpy (RingData off) (rb - off);
                           EvMemcpy (RingData 0) (n * bpf - (rb - off))].
    split. { unfold ret. rewrite <- !app_assoc. reflexivity. }
    split; [exact Hpre|]. split; [reflexivity|].
    split; [simpl; lia|].
    split; [exact Hbpf|].
    split; [reflexivity|]. split; [reflexivity|].
    eapply ring_written_two; try lia; eassumption.
Qed.

Lemma juke_write_cold j s r buf len t :
  state j = Some s -> shmem s = Some r ->
  enabled (hdr r) = 0 \/
    (ring_wf (bytes_per_frame j) r /\ 0 <= len /\
     Z.min (len / bytes_per_frame j) (free_frames (hdr r)) = 0) ->
  exists j' s' tr,
    juke_write host buf len j t =
      Done (host (t ++ tr) (AudioRateGetBytes len), j',
            t ++ tr ++ [EvCall (AudioRateGetBytes len)
                          (host (t ++ tr) (AudioRateGetBytes len))]) /\
    state j' = Some s' /\ shmem s' = Some r /\
    bytes_per_frame j' = bytes_per_frame j /\
    forallb (fun e => negb (writes_region e)) tr = true /\
    In (EvAtomicLoad (Hdr F_enabled) Acquire (enabled (hdr r))) tr /\
    (enabled (hdr r) <> 0 ->
     In (EvAtomicLoad (Hdr F_read_idx) Acquire (read_idx (hdr r))) tr).
Proof.
  intros Hs Hr Hwhy.
  unfold juke_write.
  rewrite (bind_Done get _ j t j j t) by reflexivity.
  assert (Hnr : not_ready j = false) by (unfold not_ready; rewrite Hs, Hr; reflexivity).
  rewrite Hnr.
  match goal with
  | |- context [bind the_state (fun s0 => bind (when _ _) (fun _ =>
                  bind the_state (fun s1 => bind (when _ _) (fun _ => ?k))))] =>
      destruct (handshake_run host k j s t Hs)
        as (j2 & s2 & pre & Hrun & Hho & Hs2 & Hpre)
  end.
  rewrite Hrun. clear Hrun.
  pose proof Hho as (Hbpf & _ & u & u' & Hu & Hu' & Hsh & _).
  rewrite Hs in Hu. injection Hu as <-. rewrite Hs2 in Hu'. injection Hu' as <-.
  rewrite Hr in Hsh.
  assert (Hpre' : forallb (fun e : Event Loc => negb (writes_region e)) pre = true).
  { clear -Hpre. induction pre as [|e pre IH]; [reflexivity|].
    simpl in *. apply andb_prop in Hpre as [He Hp].
    rewrite (IH Hp). destruct e; try discriminate; reflexivity. }
  rewrite (bind_Done _ _ _ _ _ _ _ (atomic_load_run F_enabled Acquire j2 s2 r _ Hs2 Hsh)).
  cbn [get_field].
  destruct (enabled (hdr r) =? 0) eqn:Een.
  - exists j2, s2, (pre ++ [EvAtomicLoad (Hdr F_enabled) Acquire (enabled (hdr r))]).
    unfold call. rewrite <- !app_assoc.
    split; [reflexivity|]. split; [exact Hs2|]. split; [exact Hsh|].
    split; [exact Hbpf|].
    split. { rewrite forallb_app, Hpre'. reflexivity. }
    split. { apply in_or_app. right. left. reflexivity. }
    intros Hne. blia.
  - destruct Hwhy as [H0|(Hwf & Hlen & Hn)]; [blia|].
    rewrite (bind_Done _ _ _ _ _ _ _ (audio_load_run F_ring_frames j2 s2 r _ Hs2 Hsh)).
    rewrite (bind_Done _ _ _ _ _ _ _ (audio_load_run F_write_idx j2 s2 r _ Hs2 Hsh)).
    rewrite (bind_Done _ _ _ _ _ _ _ (atomic_load_run F_read_idx Acquire j2 s2 r _ Hs2 Hsh)).
    cbn [get_field].
    destruct (ring_arith _ _ Hwf) as (E1 & E2 & Hused & E3 & Hfree & E4 & E5 & E6 & Hoff).
    rewrite !E1, !E2, !E3, !E4.
    assert (Emin : (if len / bytes_per_frame j >? free_frames (hdr r)
                    then free_frames (hdr r) else len / bytes_per_frame j) = 0).
    { rewrite Z.gtb_ltb. destruct (_ <? _) eqn:E; bool_hyps; lia. }
    rewrite !Emin.
    destruct Hwf as (Hb & _).
    destruct (bytes_per_frame j =? 0) eqn:E; [blia|]. clear E.
    cbn [Z.eqb].
    exists j2, s2, (pre ++ [EvAtomicLoad (Hdr F_enabled) Acquire (enabled (hdr r));
                            EvAtomicLoad (Hdr F_read_idx) Acquire (read_idx (hdr r))]).
    unfold call. rewrite <- !app_assoc. cbn [app].
    split; [reflexivity|]. split; [exact Hs2|]. split; [exact Hsh|].
    split; [exact Hbpf|].
    split. { rewrite forallb_app, Hpre'. reflexivity. }
    split. { apply in_or_app. right. left. reflexivity. }
    intros _. apply in_or_app. right. right. left. reflexivity.
Qed.
End Write.




Lemma small_ring_wf w rd en :
  0 <= w < 2 ^ 32 -> 0 <= rd < 2 ^ 32 -> ring_wf 2 (small_ring w rd en).
Proof. intros Hw Hr. unfold ring_wf. cbn. lia. Qed.




(** ** No overwrite *)

(** With a power-of-two ring the mask is a remainder, and the masked
    difference of the indices is the occupancy as soon as that fits. *)
Lemma land_pow2 x e : 0 <= e -> Z.land x (2 ^ e - 1) = x mod 2 ^ e.
Proof.
  intros He. rewrite <- Z.land_ones by exact He.
  rewrite Z.ones_equiv. reflexivity.
Qed.

Lemma used_is_occupancy h e :
  0 <= e < 32 -> ring_frames h = 2 ^ e ->
  occupancy h <= ring_frames h - 1 ->
  used_frames h = occupancy h.
Proof.
  intros He Hrf Hocc. unfold used_frames, occupancy in *.
  rewrite Hrf in *. rewrite land_pow2 by lia.
  assert (Hsplit : 2 ^ 32 = 2 ^ (32 - e) * 2 ^ e).
  { rewrite <- Z.pow_add_r by lia. f_equal. lia. }
  assert (Hpe : 0 < 2 ^ e) by (apply Z.pow_pos_nonneg; lia).
  pose proof (Z.mod_pos_bound (write_idx h - read_idx h) (2 ^ 32) ltac:(lia)) as Hb.
  unfold wrap32 in *.
  rewrite <- (Z.mod_mod_divide _ (2 ^ 32) (2 ^ e))
    by (exists (2 ^ (32 - e)); exact Hsplit).
  apply Z.mod_small. lia.
Qed.

(** A completed write either left the region alone or stored a positive
    number of frames, at most [free_frames], and advanced [write_idx]. *)
Lemma juke_write_outcome (host : Host Loc) j s r buf len t ret j' t' :
  state j = Some s -> shmem s = Some r ->
  ring_wf (bytes_per_frame j) r ->
  0 <= len < 2 ^ 64 -> len <= Z.of_nat (length buf) ->
  juke_write host buf len j t = Done (ret, j', t') ->
  exists s' r',
    state j' = Some s' /\ shmem s' = Some r' /\
    bytes_per_frame j' = bytes_per_frame j /\
    (r' = r \/
     exists n, 0 < n <= free_frames (hdr r) /\
       hdr r' = set_field F_write_idx (wrap32 (write_idx (hdr r) + n)) (hdr r) /\
       ring_written (ring_data r) (ring_data r')
         (ring_frames (hdr r) * bytes_per_frame j)
         (write_offset (bytes_per_frame j) (hdr r)) buf
         (n * bytes_per_frame j)).
Proof.
  intros Hs Hr Hwf Hlen Hbuf Hrun.
  set (n := Z.min (len / bytes_per_frame j) (free_frames (hdr r))).
  assert (Hn0 : 0 <= n).
  { destruct (ring_arith _ _ Hwf) as (_ & _ & _ & _ & Hfree & _).
    destruct Hwf as (Hb & _).
    assert (0 <= len / bytes_per_frame j) by (apply Z.div_pos; lia).
    subst n. lia. }
  destruct (Z.eq_dec (enabled (hdr r)) 0) as [Hen|Hen];
    [|destruct (Z.eq_dec n 0) as [Hz|Hnz]].
  - destruct (juke_write_cold host j s r buf len t Hs Hr (or_introl Hen))
      as (j2 & s2 & tr & Hrun2 & Hs2 & Hr2 & Hb2 & _).
    rewrite Hrun2 in Hrun. injection Hrun as _ <- _. eauto 10.
  - destruct (juke_write_cold host j s r buf len t Hs Hr)
      as (j2 & s2 & tr & Hrun2 & Hs2 & Hr2 & Hb2 & _).
    { right. split; [exact Hwf|]. split; [lia|exact Hz]. }
    rewrite Hrun2 in Hrun. injection Hrun as _ <- _. eauto 10.
  - destruct (juke_write_hot host j s r buf len t Hs Hr Hen Hwf Hlen Hbuf)
      as (j2 & s2 & d' & pre & copies & Hrun2 & _ & _ & _ & Hb2 & Hs2 & Hr2 & Hring).
    { fold n. lia. }
    rewrite Hrun2 in Hrun. injection Hrun as _ <- _.
    eexists s2, _. split; [exact Hs2|]. split; [exact Hr2|]. split; [exact Hb2|].
    right. exists n. split; [subst n; lia|]. split; [reflexivity|exact Hring].
Qed.

Lemma ring_inv_step (host : Host Loc) j j' :
  ring_inv j -> sched_step host j j' -> ring_inv j'.
Proof.
  intros (s & r & Hs & Hr & Hwf & (e & He & Hrf) & Hocc) Hstep.
  destruct Hstep as [buf len t ret j j' t' Hlen Hbuf Hrun | k en j s0 r0 Hs0 Hr0 Hk Hen].
  - destruct (juke_write_outcome host j s r buf len t ret j' t' Hs Hr Hwf Hlen Hbuf Hrun)
      as (s' & r' & Hs' & Hr' & Hb' & [-> | (n & Hn & Hh & Hring)]).
    + exists s', r. rewrite Hb'. eauto 10.
    + pose proof (used_is_occupancy _ e He Hrf Hocc) as Hused.
      destruct Hwf as (Hb & Hrf2 & Hw & Hrd & Hcap).
      destruct Hring as (Hlen' & _).
      exists s', r'. split; [exact Hs'|]. split; [exact Hr'|].
      unfold ring_wf, occupancy, free_frames in *. rewrite Hh, Hb', Hlen'.
      destruct (hdr r) as [a1 a2 a3 a4 a5 rf w rd a9 a10 a11 a12]. cbn in *.
      pose proof (wrap32_range (w + n)).
      split; [auto 10|]. split; [eauto|].
      rewrite wrap32_sub_l.
      replace (w + n - rd) with ((w - rd) + n) by lia.
      rewrite <- wrap32_add_l.
      pose proof (wrap32_range (w - rd)).
      rewrite wrap32_small; lia.
  - rewrite Hs in Hs0. injection Hs0 as <-. rewrite Hr in Hr0. injection Hr0 as <-.
    destruct Hwf as (Hb & Hrf2 & Hw & Hrd & Hcap).
    eexists _, _. split; [reflexivity|]. split; [reflexivity|].
    unfold ring_wf, occupancy, consume in *.
    destruct (hdr r) as [a1 a2 a3 a4 a5 rf w rd a9 a10 a11 a12]. cbn in *.
    pose proof (wrap32_range (rd + k)).
    split; [auto 10|]. split; [eauto|].
    rewrite wrap32_sub_r.
    replace (w - (rd + k)) with ((w - rd) - k) by lia.
    rewrite <- wrap32_sub_l.
    pose proof (wrap32_range (w - rd)).
    rewrite wrap32_small; lia.
Qed.

Lemma ring_start_inv j : ring_start j -> ring_inv j.
Proof.
  intros (s & r & Hs & Hr & Hwf & Hpow & Heq).
  exists s, r. split; [exact Hs|]. split; [exact Hr|]. split; [exact Hwf|].
  split; [exact Hpow|].
  unfold occupancy. rewrite Heq, Z.sub_diag.
  destruct Hwf as (_ & Hrf & _). change (wrap32 0) with 0. lia.
Qed.

Lemma reachable_inv (host : Host Loc) j : reachable host j -> ring_inv j.
Proof.
  induction 1 as [j Hstart | j j' _ IH Hstep].
  - apply ring_start_inv, Hstart.
  - eapply ring_inv_step; eassumption.
Qed.

(** The bytes a write stores never fall into a slot that still holds an
    unconsumed frame. *)
Lemma unconsumed_untouched bpf h d d' buf n e i b :
  0 < bpf -> 0 <= e < 32 -> ring_frames h = 2 ^ e ->
  occupancy h <= ring_frames h - 1 ->
  0 < n <= free_frames h ->
  ring_written d d' (ring_frames h * bpf) (write_offset bpf h) buf (n * bpf) ->
  0 <= i < occupancy h -> 0 <= b < bpf ->
  d' !! slot_byte bpf h (read_idx h + i) b = d !! slot_byte bpf h (read_idx h + i) b.
Proof.
  intros Hbpf He Hrf Hocc Hn (_ & Hring) Hi Hb.
  pose proof (used_is_occupancy h e He Hrf Hocc) as Hused.
  unfold free_frames in Hn. rewrite Hused in Hn.
  unfold slot_byte, write_offset in *. rewrite Hring. clear Hring.
  rewrite Hrf in *. rewrite land_pow2 by lia.
  set (rf := 2 ^ e) in *.
  assert (Hrfpos : 0 < rf) by (apply Z.pow_pos_nonneg; lia).
  set (sl := (read_idx h + i) mod rf).
  set (wm := write_idx h mod rf).
  pose proof (Z.mod_pos_bound (read_idx h + i) rf Hrfpos) as Hsl. fold sl in Hsl.
  pose proof (Z.mod_pos_bound (write_idx h) rf Hrfpos) as Hwm. fold wm in Hwm.
  assert (Hk : exists k, sl - wm = i - occupancy h + k * rf).
  { assert (Hsplit : 2 ^ 32 = 2 ^ (32 - e) * rf).
    { subst rf. rewrite <- Z.pow_add_r by lia. f_equal. lia. }
    pose proof (Z.div_mod (read_idx h + i) rf ltac:(lia)) as E1.
    pose proof (Z.div_mod (write_idx h) rf ltac:(lia)) as E2.
    pose proof (Z.div_mod (write_idx h - read_idx h) (2 ^ 32) ltac:(lia)) as E3.
    fold sl in E1. fold wm in E2. unfold occupancy, wrap32.
    rewrite Hsplit in E3 at 1.
    exists (write_idx h / rf - (read_idx h + i) / rf
            - 2 ^ (32 - e) * ((write_idx h - read_idx h) / 2 ^ 32)).
    lia. }
  destruct Hk as (k & Hk).
  assert (Hk01 : k = 0 \/ k = 1) by nia.
  set (p := sl * bpf + b).
  assert (Hp : 0 <= p < rf * bpf) by (subst p; nia).
  assert (Hoff : 0 <= wm * bpf < rf * bpf) by nia.
  rewrite Z2Nat.id by lia.
  rewrite mod_sub_cases by lia.
  assert (Hfar : n * bpf <= (rf + i - occupancy h) * bpf + b) by nia.
  destruct (p <? rf * bpf) eqn:E1; [|blia]. cbn [andb].
  destruct Hk01 as [-> | ->].
  - assert (Hlt : p < wm * bpf) by (subst p; nia).
    destruct (wm * bpf <=? p) eqn:E2; [blia|].
    destruct (_ <? n * bpf) eqn:E3; [|reflexivity].
    exfalso. apply Z.ltb_lt in E3. subst p. nia.
  - assert (Hge : wm * bpf <= p) by (subst p; nia).
    destruct (wm * bpf <=? p) eqn:E2; [|blia].
    destruct (_ <? n * bpf) eqn:E3; [|reflexivity].
    exfalso. apply Z.ltb_lt in E3. subst p. nia.
Qed.

(** A write always completes in a state of a schedule. *)
Lemma juke_write_total (host : Host Loc) j buf len t :
  ring_inv j -> 0 <= len < 2 ^ 64 -> len <= Z.of_nat (length buf) ->
  exists ret j' t', juke_write host buf len j t = Done (ret, j', t').
Proof.
  intros (s & r & Hs & Hr & Hwf & _) Hlen Hbuf.
  set (n := Z.min (len / bytes_per_frame j) (free_frames (hdr r))).
  assert (Hn0 : 0 <= n).
  { destruct (ring_arith _ _ Hwf) as (_ & _ & _ & _ & Hfree & _).
    destruct Hwf as (Hb & _).
    assert (0 <= len / bytes_per_frame j) by (apply Z.div_pos; lia).
    subst n. lia. }
  destruct (Z.eq_dec (enabled (hdr r)) 0) as [Hen|Hen];
    [|destruct (Z.eq_dec n 0) as [Hz|Hnz]].
  - destruct (juke_write_cold host j s r buf len t Hs Hr (or_introl Hen))
      as (j2 & s2 & tr & Hrun2 & _). eauto.
  - destruct (juke_write_cold host j s r buf len t Hs Hr)
      as (j2 & s2 & tr & Hrun2 & _); [|eauto].
    right. split; [exact Hwf|]. split; [lia|exact Hz].
  - destruct (juke_write_hot host j s r buf len t Hs Hr Hen Hwf Hlen Hbuf)
      as (j2 & s2 & d' & pre & copies & Hrun2 & _); [fold n; lia|eauto].
Qed.

(** C7.  Along every schedule of writes and consumer advances, the
    occupancy [used = (write_idx - read_idx) & (ring_frames - 1)] is at most
    [ring_frames - 1] and counts the frames not yet consumed, every write
    completes, and no write changes a byte of a slot whose frame has not
    been consumed. *)
Theorem no_overwrite (host : Host Loc) j :
  reachable host j ->
  exists s r,
    state j = Some s /\ shmem s = Some r /\
    used_frames (hdr r) <= ring_frames (hdr r) - 1 /\
    used_frames (hdr r) = occupancy (hdr r) /\
    forall buf len t,
      0 <= len < 2 ^ 64 -> len <= Z.of_nat (length buf) ->
      exists ret j' t' s' r',
        juke_write host buf len j t = Done (ret, j', t') /\
        state j' = Some s' /\ shmem s' = Some r' /\
        forall i b,
          0 <= i < used_frames (hdr r) -> 0 <= b < bytes_per_frame j ->
          ring_data r' !! slot_byte (bytes_per_frame j) (hdr r) (read_idx (hdr r) + i) b
          = ring_data r !! slot_byte (bytes_per_frame j) (hdr r) (read_idx (hdr r) + i) b.
Proof.
  intros Hreach. pose proof (reachable_inv host j Hreach) as Hinv.
  pose proof Hinv as (s & r & Hs & Hr & Hwf & (e & He & Hrf) & Hocc).
  pose proof (used_is_occupancy _ e He Hrf Hocc) as Hused.
  exists s, r. split; [exact Hs|]. split; [exact Hr|].
  split; [lia|]. split; [exact Hused|].
  intros buf len t Hlen Hbuf.
  destruct (juke_write_total host j buf len t Hinv Hlen Hbuf) as (ret & j' & t' & Hrun).
  destruct (juke_write_outcome host j s r buf len t ret j' t' Hs Hr Hwf Hlen Hbuf Hrun)
    as (s' & r' & Hs' & Hr' & _ & Hcases).
  exists ret, j', t', s', r'. split; [exact Hrun|]. split; [exact Hs'|].
  split; [exact Hr'|]. intros i b Hi Hb.
  destruct Hcases as [-> | (n & Hn & _ & Hring)]; [reflexivity|].
  destruct Hwf as (Hbpf & _).
  eapply unconsumed_untouched; eauto; lia.
Qed.

Lemma small_voice_start : ring_start (small_voice 0 0 1).
Proof.
  exists (small_state 0 0 1), (small_ring 0 0 1).
  split; [reflexivity|]. split; [reflexivity|].
  split; [apply small_ring_wf; lia|].
  split; [exists 2; split; [lia|reflexivity]|reflexivity].
Qed.

Lemma small_voice_2_reachable : reachable quiet_host small_voice_2.
Proof.
  apply (reach_step quiet_host (small_voice 0 0 1)).
  - apply reach_start, small_voice_start.
  - apply (step_write quiet_host [1; 2; 3; 4] 4 [] 4 _ _
             [EvAtomicLoad (Hdr F_enabled) Acquire 1;
              EvAtomicLoad (Hdr F_read_idx) Acquire 0;
              EvMemcpy (RingData 0) 4;
              EvAtomicStore (Hdr F_write_idx) 2 Release]).
    + lia.
    + cbn. lia.
    + reflexivity.
Qed.

Lemma no_overwrite_witness :
  exists s r,
    state small_voice_2 = Some s /\ shmem s = Some r /\
    used_frames (hdr r) <= ring_frames (hdr r) - 1 /\
    used_frames (hdr r) = occupancy (hdr r) /\
    forall buf len t,
      0 <= len < 2 ^ 64 -> len <= Z.of_nat (length buf) ->
      exists ret j' t' s' r',
        juke_write quiet_host buf len small_voice_2 t = Done (ret, j', t') /\
        state j' = Some s' /\ shmem s' = Some r' /\
        forall i b,
          0 <= i < used_frames (hdr r) ->
          0 <= b < bytes_per_frame small_voice_2 ->
          ring_data r' !! slot_byte (bytes_per_frame small_voice_2) (hdr r)
                            (read_idx (hdr r) + i) b
          = ring_data r !! slot_byte (bytes_per_frame small_voice_2) (hdr r)
                             (read_idx (hdr r) + i) b.
Proof.
  apply (no_overwrite quiet_host small_voice_2).
  exact small_voice_2_reachable.
Defined.

(** [juke_init_out] on the state [juke_audio_init] made, when the allocator
    delivers: the schedules start from what it leaves. *)
Lemma juke_init_out_start (host : Host Loc) as_ path j0 t j t' :
  juke_init_out host as_ (juke_audio_init path) j0 t = Done (0, j, t') ->
  0 < bytes_per_frame j < 2 ^ 18 ->
  ring_start j.
Proof.
  unfold juke_init_out.
  rewrite (bind_Done get _ j0 t j0 j0 t) by reflexivity.
  rewrite (bind_Done (put _) _ j0 t tt _ t) by reflexivity.
  unfold bind at 1. unfold call at 1.
  set (bpf := host t _). set (t1 := t ++ _).
  rewrite (bind_Done get _ _ t1 _ _ t1) by reflexivity.
  rewrite (bind_Done (put _) _ _ t1 tt _ t1) by reflexivity.
  cbn [state set_state].
  unfold bind at 1. unfold notify at 1, emit at 1.
  set (t2 := t1 ++ _).
  set (j1 := {| bytes_per_frame := bpf |}).
  rewrite (bind_Done _ _ _ _ _ _ _ (the_state_run j1 _ t2 eq_refl)).
  cbn [shmem juke_audio_init].
  erewrite (bind_Done (modify_state _)); [|eapply modify_state_run; reflexivity].
  unfold bind at 1. unfold call at 1.
  set (size := wrap64 _). set (fd := host t2 _). set (t3 := t2 ++ _).
  destruct (fd <? 0) eqn:Hfd.
  { unfold bind, notify, emit, ret. intros [= ]. }
  do 2 (erewrite (bind_Done (modify_state _)); [|eapply modify_state_run; reflexivity]).
  do 12 (erewrite (bind_Done (store _ _)); [|eapply audio_store_run; reflexivity]).
  unfold bind at 1. unfold notify at 1, emit at 1.
  cbn [hdr fresh_region set_hdr set_field ring_data].
  match goal with |- context [bind (juke_audio_connect _) _ ?j ?t] =>
    set (j2 := j); set (t4 := t) end.
  edestruct (juke_audio_connect_run host j2) as (rc & j3 & tr3 & Hc & Hh3 & _);
    [reflexivity|].
  rewrite (bind_Done _ _ _ _ _ _ _ Hc). clear Hc.
  pose proof Hh3 as (_ & _ & u & s3 & Hu & Hs3 & _).
  rewrite (bind_Done _ _ _ _ _ _ _ (the_state_run j3 s3 _ Hs3)).
  assert (H4 : exists j4 tr4,
    when ((0 <=? client_fd s3) && negb (fd_sent s3)) (juke_audio_send_fd host)
      j3 (t4 ++ tr3) = Done (tt, j4, (t4 ++ tr3) ++ tr4) /\ handshake_only j3 j4).
  { destruct (_ && _); cbn [when].
    - destruct (juke_audio_send_fd_run host j3 s3 (t4 ++ tr3) Hs3)
        as (j4 & tr4 & Hc & Hh & _). eauto.
    - exists j3, []. rewrite app_nil_r. unfold ret.
      eauto using handshake_only_refl. }
  destruct H4 as (j4 & tr4 & Hc4 & Hh4).
  rewrite (bind_Done _ _ _ _ _ _ _ Hc4). unfold ret. intros [= <- _] Hbpf.
  pose proof (handshake_only_trans _ _ _ Hh3 Hh4)
    as (Hb & _ & s2 & s4 & Hs2 & Hs4 & Hsh & _).
  subst j2. cbn [state set_state bytes_per_frame] in Hs2, Hb.
  injection Hs2 as <-. cbn [shmem set_shmem] in Hsh.
  eexists s4, _. split; [exact Hs4|]. split; [exact Hsh|].
  rewrite Hb in *. unfold j1 in Hbpf |- *. cbn [bytes_per_frame] in Hbpf |- *.
  assert (Hsize : size = 64 + 8192 * bpf).
  { subst size. unfold JUKE_AUDIO_RING_FRAMES, sizeof_JukeAudioHeader.
    assert (H18 : 2 ^ 18 = 262144) by reflexivity.
    rewrite int32_small by (change (2 ^ 31) with 2147483648; lia).
    rewrite (wrap64_small (8192 * bpf))
      by (change (2 ^ 64) with 18446744073709551616; lia).
    apply wrap64_small. change (2 ^ 64) with 18446744073709551616. lia. }
  split.
  { unfold ring_wf. cbn. rewrite length_replicate, Hsize.
    unfold sizeof_JukeAudioHeader.
    change (wrap32 JUKE_AUDIO_RING_FRAMES) with 8192.
    change (wrap32 0) with 0.
    assert (H18 : 2 ^ 18 = 262144) by reflexivity.
    change (2 ^ 31) with 2147483648. change (2 ^ 32) with 4294967296. lia. }
  split; [exists 13; split; [lia|reflexivity]|reflexivity].
Qed.



(** ** [juke_init_out] *)

Section InitOut.
Variable host : Host Loc.

(** The prologue of [juke_init_out]: the voice is bound to the driver
    state and takes the frame size the host computed. *)
Lemma juke_init_out_kept_run as_ s0 r j0 t :
  shmem s0 = Some r ->
  let bpf := host t (AudioPcmInitInfo (freq as_) (nchannels as_)) in
  juke_init_out host as_ s0 j0 t =
    Done (0, {| bytes_per_frame := bpf; samples := JUKE_AUDIO_RING_FRAMES;
                state := Some s0 |},
          t ++ [EvCall (AudioPcmInitInfo (freq as_) (nchannels as_)) bpf;
                EvCall AudioRateStart 0]).
Proof.
  intros Hr bpf. unfold juke_init_out.
  rewrite (bind_Done get _ j0 t j0 j0 t) by reflexivity.
  rewrite (bind_Done (put _) _ j0 t tt _ t) by reflexivity.
  unfold bind at 1. unfold call at 1. fold bpf.
  set (t1 := t ++ _).
  rewrite (bind_Done get _ _ t1 _ _ t1) by reflexivity.
  rewrite (bind_Done (put _) _ _ t1 tt _ t1) by reflexivity.
  cbn [state set_state].
  unfold bind at 1. unfold notify at 1, emit at 1.
  erewrite (bind_Done the_state); [|apply the_state_run; reflexivity].
  rewrite Hr. unfold ret. subst t1. rewrite <- app_assoc. reflexivity.
Qed.

Lemma juke_init_out_fail_run as_ s0 j0 t :
  shmem s0 = None ->
  let bpf := host t (AudioPcmInitInfo (freq as_) (nchannels as_)) in
  let t1 := t ++ [EvCall (AudioPcmInitInfo (freq as_) (nchannels as_)) bpf;
                  EvCall AudioRateStart 0] in
  let size := wrap64 (sizeof_JukeAudioHeader
                      + wrap64 (int32 (JUKE_AUDIO_RING_FRAMES * bpf))) in
  let fd := host t1 (MemfdAlloc "juke-audio" size) in
  fd < 0 ->
  juke_init_out host as_ s0 j0 t =
    Done (-1, {| bytes_per_frame := bpf; samples := JUKE_AUDIO_RING_FRAMES;
                 state := Some (set_shmem_size size s0) |},
          t1 ++ [EvCall (MemfdAlloc "juke-audio" size) fd;
                 EvCall (ErrorReport "juke-audio: failed to allocate shared memory") 0]).
Proof.
  intros Hr bpf t1 size fd Hfd. unfold juke_init_out.
  rewrite (bind_Done get _ j0 t j0 j0 t) by reflexivity.
  rewrite (bind_Done (put _) _ j0 t tt _ t) by reflexivity.
  unfold bind at 1. unfold call at 1. fold bpf.
  rewrite (bind_Done get _ _ _ _ _ _ eq_refl).
  rewrite (bind_Done (put _) _ _ _ tt _ _ eq_refl).
  cbn [state set_state].
  unfold bind at 1. unfold notify at 1, emit at 1.
  rewrite <- app_assoc. cbn [app]. fold t1.
  erewrite (bind_Done the_state); [|apply the_state_run; reflexivity].
  rewrite Hr.
  erewrite (bind_Done (modify_state _)); [|eapply modify_state_run; reflexivity].
  unfold bind at 1. unfold call at 1. fold size. fold fd.
  rewrite (proj2 (Z.ltb_lt fd 0) Hfd).
  unfold bind, notify, emit, ret. cbn [set_state bytes_per_frame samples].
  rewrite <- app_assoc. reflexivity.
Qed.

Lemma juke_init_out_alloc_run as_ s0 j0 t :
  shmem s0 = None ->
  let bpf := host t (AudioPcmInitInfo (freq as_) (nchannels as_)) in
  let t1 := t ++ [EvCall (AudioPcmInitInfo (freq as_) (nchannels as_)) bpf;
                  EvCall AudioRateStart 0] in
  let size := wrap64 (sizeof_JukeAudioHeader
                      + wrap64 (int32 (JUKE_AUDIO_RING_FRAMES * bpf))) in
  let fd := host t1 (MemfdAlloc "juke-audio" size) in
  0 <= fd ->
  exists j' s' tr,
    juke_init_out host as_ s0 j0 t =
      Done (0, j',
            t1 ++ [EvCall (MemfdAlloc "juke-audio" size) fd]
               ++ init_events as_
               ++ [EvCall (ErrorReport "juke-audio: initialized") 0] ++ tr) /\
    forallb is_call tr = true /\
    bytes_per_frame j' = bpf /\ samples j' = JUKE_AUDIO_RING_FRAMES /\
    state j' = Some s' /\
    shmem s' = Some {| hdr := init_header as_;
                       ring_data := replicate (Z.to_nat (size - sizeof_JukeAudioHeader)) 0 |} /\
    shmem_size s' = size /\ shmem_fd s' = fd /\ socket_path s' = socket_path s0.
Proof.
  intros Hr bpf t1 size fd Hfd. unfold juke_init_out.
  rewrite (bind_Done get _ j0 t j0 j0 t) by reflexivity.
  rewrite (bind_Done (put _) _ j0 t tt _ t) by reflexivity.
  unfold bind at 1. unfold call at 1. fold bpf.
  rewrite (bind_Done get _ _ _ _ _ _ eq_refl).
  rewrite (bind_Done (put _) _ _ _ tt _ _ eq_refl).
  cbn [state set_state].
  unfold bind at 1. unfold notify at 1, emit at 1.
  rewrite <- app_assoc. cbn [app]. fold t1.
  erewrite (bind_Done the_state); [|apply the_state_run; reflexivity].
  rewrite Hr.
  erewrite (bind_Done (modify_state _)); [|eapply modify_state_run; reflexivity].
  unfold bind at 1. unfold call at 1. fold size. fold fd.
  rewrite (proj2 (Z.ltb_ge fd 0) Hfd).
  do 2 (erewrite (bind_Done (modify_state _)); [|eapply modify_state_run; reflexivity]).
  do 12 (erewrite (bind_Done (store _ _)); [|eapply audio_store_run; reflexivity]).
  unfold bind at 1. unfold notify at 1, emit at 1.
  cbn [hdr fresh_region set_hdr set_field ring_data].
  match goal with |- context [bind (juke_audio_connect _) _ ?j ?t] =>
    set (j2 := j); set (t4 := t) end.
  edestruct (juke_audio_connect_run host j2) as (rc & j3 & tr3 & Hc & Hh3 & Hcalls3);
    [reflexivity|].
  rewrite (bind_Done _ _ _ _ _ _ _ Hc). clear Hc.
  pose proof Hh3 as (_ & _ & u & s3 & Hu & Hs3 & _).
  rewrite (bind_Done _ _ _ _ _ _ _ (the_state_run j3 s3 _ Hs3)).
  assert (H4 : exists j4 tr4,
    when ((0 <=? client_fd s3) && negb (fd_sent s3)) (juke_audio_send_fd host)
      j3 (t4 ++ tr3) = Done (tt, j4, (t4 ++ tr3) ++ tr4) /\ handshake_only j3 j4 /\
    forallb is_call tr4 = true).
  { destruct (_ && _); cbn [when].
    - destruct (juke_audio_send_fd_run host j3 s3 (t4 ++ tr3) Hs3)
        as (j4 & tr4 & Hc & Hh & Hcalls). eauto.
    - exists j3, []. rewrite app_nil_r. unfold ret.
      eauto using handshake_only_refl. }
  destruct H4 as (j4 & tr4 & Hc4 & Hh4 & Hcalls4).
  rewrite (bind_Done _ _ _ _ _ _ _ Hc4). unfold ret.
  pose proof (handshake_only_trans _ _ _ Hh3 Hh4)
    as (Hb & Hsm & s2 & s4 & Hs2 & Hs4 & Hsh & Hsz & Hsfd & Hpath).
  subst j2. cbn [state set_state bytes_per_frame samples] in Hs2, Hb, Hsm.
  injection Hs2 as <-.
  cbn [shmem shmem_size shmem_fd socket_path set_shmem set_shmem_fd set_shmem_size]
    in Hsh, Hsz, Hsfd, Hpath.
  exists j4, s4, (tr3 ++ tr4).
  split.
  { subst t4. rewrite <- !app_assoc. cbn [app]. unfold init_events.
    change (wrap32 JUKE_AUDIO_MAGIC) with JUKE_AUDIO_MAGIC.
    change (wrap32 JUKE_AUDIO_VERSION) with JUKE_AUDIO_VERSION.
    change (wrap32 JUKE_AUDIO_RING_FRAMES) with JUKE_AUDIO_RING_FRAMES.
    change (wrap32 0) with 0. change (wrap32 255) with 255.
    destruct (fmt_is_f32 as_); reflexivity. }
  split. { rewrite forallb_app, Hcalls3, Hcalls4. reflexivity. }
  split; [exact Hb|]. split; [exact Hsm|]. split; [exact Hs4|].
  split.
  { rewrite Hsh. unfold init_header.
    change (wrap32 JUKE_AUDIO_MAGIC) with JUKE_AUDIO_MAGIC.
    change (wrap32 JUKE_AUDIO_VERSION) with JUKE_AUDIO_VERSION.
    change (wrap32 JUKE_AUDIO_RING_FRAMES) with JUKE_AUDIO_RING_FRAMES.
    change (wrap32 0) with 0. change (wrap32 255) with 255.
    destruct (fmt_is_f32 as_); reflexivity. }
  auto.
Qed.
End InitOut.

Lemma init_size bpf :
  0 < bpf < 2 ^ 18 ->
  wrap64 (sizeof_JukeAudioHeader + wrap64 (int32 (JUKE_AUDIO_RING_FRAMES * bpf)))
    = 64 + 8192 * bpf.
Proof.
  intros H. unfold JUKE_AUDIO_RING_FRAMES, sizeof_JukeAudioHeader.
  assert (H18 : 2 ^ 18 = 262144) by reflexivity.
  rewrite int32_small by (change (2 ^ 31) with 2147483648; lia).
  rewrite (wrap64_small (8192 * bpf))
    by (change (2 ^ 64) with 18446744073709551616; lia).
  apply wrap64_small. change (2 ^ 64) with 18446744073709551616. lia.
Qed.

(** X1.  On a driver state without a region, when the allocator delivers,
    [juke_init_out] asks for [64 + 8192 * bytes_per_frame] bytes, writes the
    header (magic, version 2, the rate, the channels and the format code of
    the settings, 8192 ring frames, both indices 0, [enabled] 0, not muted,
    both volumes 255) before it tries the handshake, and returns 0.  The
    sample area is [8192 * bytes_per_frame] zero bytes: the ring is empty
    and sized for the voice. *)
Theorem init_out_allocates (host : Host Loc) as_ s0 j0 t :
  shmem s0 = None ->
  let bpf := host t (AudioPcmInitInfo (freq as_) (nchannels as_)) in
  let t1 := t ++ [EvCall (AudioPcmInitInfo (freq as_) (nchannels as_)) bpf;
                  EvCall AudioRateStart 0] in
  let size := 64 + 8192 * bpf in
  let fd := host t1 (MemfdAlloc "juke-audio" size) in
  0 < bpf < 2 ^ 18 -> 0 <= fd ->
  exists j' s' r' tr,
    juke_init_out host as_ s0 j0 t =
      Done (0, j',
            t1 ++ [EvCall (MemfdAlloc "juke-audio" size) fd]
               ++ init_events as_
               ++ [EvCall (ErrorReport "juke-audio: initialized") 0] ++ tr) /\
    forallb is_call tr = true /\
    bytes_per_frame j' = bpf /\ state j' = Some s' /\ shmem s' = Some r' /\
    shmem_size s' = size /\ shmem_fd s' = fd /\
    hdr r' = init_header as_ /\
    ring_data r' = replicate (Z.to_nat (8192 * bpf)) 0 /\
    ring_start j'.
Proof.
  intros Hr bpf t1 size fd Hbpf Hfd.
  pose proof (juke_init_out_alloc_run host as_ s0 j0 t Hr) as H.
  cbv zeta in H. fold bpf in H. fold t1 in H.
  rewrite (init_size bpf Hbpf) in H. fold size in H. fold fd in H.
  destruct (H Hfd) as (j' & s' & tr & Hrun & Hcalls & Hb & _ & Hs' & Hsh & Hsz & Hsfd & _).
  eexists j', s', _, tr.
  split; [exact Hrun|]. split; [exact Hcalls|]. split; [exact Hb|].
  split; [exact Hs'|]. split; [exact Hsh|]. split; [exact Hsz|].
  split; [exact Hsfd|]. split; [reflexivity|].
  assert (Hlen : size - sizeof_JukeAudioHeader = 8192 * bpf)
    by (subst size; unfold sizeof_JukeAudioHeader; lia).
  split. { cbn [ring_data]. rewrite Hlen. reflexivity. }
  eexists s', _. split; [exact Hs'|]. split; [exact Hsh|].
  rewrite Hb.
  split.
  { unfold ring_wf. cbn [hdr ring_data init_header ring_frames write_idx read_idx].
    rewrite length_replicate, Hlen. unfold JUKE_AUDIO_RING_FRAMES.
    assert (H18 : 2 ^ 18 = 262144) by reflexivity.
    change (2 ^ 31) with 2147483648. change (2 ^ 32) with 4294967296. lia. }
  split; [exists 13; split; [lia|reflexivity]|reflexivity].
Qed.

Lemma init_out_allocates_witness :
  exists j' s' r' tr,
    juke_init_out audio_alloc_host cd_settings (juke_audio_init None) blank_voice [] =
      Done (0, j',
            ([] ++ [EvCall (AudioPcmInitInfo 44100 2) 4; EvCall AudioRateStart 0])
               ++ [EvCall (MemfdAlloc "juke-audio" (64 + 8192 * 4)) 5]
               ++ init_events cd_settings
               ++ [EvCall (ErrorReport "juke-audio: initialized") 0] ++ tr) /\
    state j' = Some s' /\ shmem s' = Some r' /\
    shmem_size s' = 64 + 8192 * 4 /\ shmem_fd s' = 5 /\
    hdr r' = init_header cd_settings /\
    length (ring_data r') = Z.to_nat (8192 * 4).
Proof.
  destruct (init_out_allocates audio_alloc_host cd_settings (juke_audio_init None)
              blank_voice [] eq_refl)
    as (j' & s' & r' & tr & Hrun & _ & _ & Hs & Hr & Hsz & Hfd & Hh & Hd & _).
  - vm_compute. split; reflexivity.
  - vm_compute. intros H; discriminate H.
  - exists j', s', r', tr. split; [exact Hrun|]. split; [exact Hs|].
    split; [exact Hr|]. split; [exact Hsz|]. split; [exact Hfd|].
    split; [exact Hh|]. rewrite Hd. apply length_replicate.
Defined.

(** X2.  When the allocator fails, [juke_init_out] reports it and returns
    -1 without a region and without trying the handshake.  The voice stays
    usable: a write is throttled by the rate controller and touches
    nothing, a volume change does nothing, and the next [juke_init_out]
    asks the allocator again. *)
Theorem init_out_alloc_failure (host : Host Loc) as_ s0 j0 t :
  shmem s0 = None ->
  let bpf := host t (AudioPcmInitInfo (freq as_) (nchannels as_)) in
  let t1 := t ++ [EvCall (AudioPcmInitInfo (freq as_) (nchannels as_)) bpf;
                  EvCall AudioRateStart 0] in
  let size := wrap64 (sizeof_JukeAudioHeader
                      + wrap64 (int32 (JUKE_AUDIO_RING_FRAMES * bpf))) in
  let fd := host t1 (MemfdAlloc "juke-audio" size) in
  fd < 0 ->
  exists j' s',
    juke_init_out host as_ s0 j0 t =
      Done (-1, j',
            t1 ++ [EvCall (MemfdAlloc "juke-audio" size) fd;
                   EvCall (ErrorReport "juke-audio: failed to allocate shared memory") 0]) /\
    state j' = Some s' /\ shmem s' = None /\
    (forall buf len t',
       juke_write host buf len j' t' =
         Done (host t' (AudioRateGetBytes len), j',
               t' ++ [EvCall (AudioRateGetBytes len) (host t' (AudioRateGetBytes len))])) /\
    (forall v t', juke_volume_out v j' t' = Done (tt, j', t')) /\
    (forall as2 j t', exists ret j'' tr size2 fd2,
       juke_init_out host as2 s' j t' = Done (ret, j'', t' ++ tr) /\
       In (EvCall (MemfdAlloc "juke-audio" size2) fd2) tr).
Proof.
  intros Hr bpf t1 size fd Hfd.
  pose proof (juke_init_out_fail_run host as_ s0 j0 t Hr Hfd) as Hrun.
  fold bpf t1 size fd in Hrun.
  eexists _, _. split; [exact Hrun|]. split; [reflexivity|].
  split; [exact Hr|].
  split.
  { intros buf len t'. unfold juke_write, bind, get.
    cbn [not_ready state shmem set_shmem_size]. rewrite Hr. reflexivity. }
  split.
  { intros v t'. unfold juke_volume_out, bind, get.
    cbn [not_ready state shmem set_shmem_size]. rewrite Hr. reflexivity. }
  intros as2 j t'.
  assert (Hr' : shmem (set_shmem_size size s0) = None) by exact Hr.
  set (s' := set_shmem_size size s0) in *.
  set (b2 := host t' (AudioPcmInitInfo (freq as2) (nchannels as2))).
  set (t2 := t' ++ [EvCall (AudioPcmInitInfo (freq as2) (nchannels as2)) b2;
                    EvCall AudioRateStart 0]).
  set (size2 := wrap64 (sizeof_JukeAudioHeader
                        + wrap64 (int32 (JUKE_AUDIO_RING_FRAMES * b2)))).
  destruct (Z_lt_dec (host t2 (MemfdAlloc "juke-audio" size2)) 0) as [Hlt|Hge].
  - pose proof (juke_init_out_fail_run host as2 s' j t' Hr' Hlt) as Hrun2.
    fold b2 t2 size2 in Hrun2.
    eexists _, _, _, size2, _. subst t2. rewrite <- app_assoc in Hrun2.
    split; [exact Hrun2|]. cbn [app]. right. right. left. reflexivity.
  - destruct (juke_init_out_alloc_run host as2 s' j t' Hr' ltac:(fold b2 t2 size2; lia))
      as (j'' & s'' & tr & Hrun2 & _).
    fold b2 t2 size2 in Hrun2.
    eexists _, j'', _, size2, _. subst t2. rewrite <- !app_assoc in Hrun2.
    split; [exact Hrun2|]. cbn [app]. right. right. left. reflexivity.
Qed.

Lemma init_out_alloc_failure_witness :
  exists j' s',
    juke_init_out quiet_host cd_settings (juke_audio_init None) blank_voice [] =
      Done (-1, j',
            ([] ++ [EvCall (AudioPcmInitInfo 44100 2) (-1); EvCall AudioRateStart 0])
              ++ [EvCall (MemfdAlloc "juke-audio"
                            (wrap64 (sizeof_JukeAudioHeader
                               + wrap64 (int32 (JUKE_AUDIO_RING_FRAMES * -1))))) (-1);
                  EvCall (ErrorReport "juke-audio: failed to allocate shared memory") 0]) /\
    state j' = Some s' /\ shmem s' = None /\
    juke_write quiet_host [1; 2] 2 j' [] =
      Done (123, j', [] ++ [EvCall (AudioRateGetBytes 2) 123]).
Proof.
  destruct (init_out_alloc_failure quiet_host cd_settings (juke_audio_init None)
              blank_voice [] eq_refl)
    as (j' & s' & Hrun & Hs & Hr & Hw & _).
  - vm_compute. reflexivity.
  - exists j', s'. split; [exact Hrun|]. split; [exact Hs|]. split; [exact Hr|].
    exact (Hw [1; 2] 2 []).
Defined.

(** X3.  [juke_init_out] leaves [enabled] at 0, so whatever is written
    right after a successful initialisation is held back: the write returns
    the estimate of the rate controller and stores nothing, until the
    renderer enables the ring. *)
Theorem write_waits_for_enable (host : Host Loc) as_ s0 j0 t j1 t1 :
  shmem s0 = None ->
  juke_init_out host as_ s0 j0 t = Done (0, j1, t1) ->
  exists s1 r1,
    state j1 = Some s1 /\ shmem s1 = Some r1 /\ enabled (hdr r1) = 0 /\
    forall buf len, exists est j2 s2 tr,
      juke_write host buf len j1 t1 =
        Done (est, j2, t1 ++ tr ++ [EvCall (AudioRateGetBytes len) est]) /\
      est = host (t1 ++ tr) (AudioRateGetBytes len) /\
      forallb (fun e => negb (writes_region e)) tr = true /\
      state j2 = Some s2 /\ shmem s2 = Some r1.
Proof.
  intros Hr Hrun.
  set (bpf := host t (AudioPcmInitInfo (freq as_) (nchannels as_))).
  set (t0 := t ++ [EvCall (AudioPcmInitInfo (freq as_) (nchannels as_)) bpf;
                   EvCall AudioRateStart 0]).
  set (size := wrap64 (sizeof_JukeAudioHeader
                       + wrap64 (int32 (JUKE_AUDIO_RING_FRAMES * bpf)))).
  destruct (Z_lt_dec (host t0 (MemfdAlloc "juke-audio" size)) 0) as [Hlt|Hge].
  - pose proof (juke_init_out_fail_run host as_ s0 j0 t Hr Hlt) as Hrun2.
    rewrite Hrun in Hrun2. discriminate Hrun2.
  - destruct (juke_init_out_alloc_run host as_ s0 j0 t Hr ltac:(fold bpf t0 size; lia))
      as (j' & s' & tr & Hrun2 & _ & _ & _ & Hs' & Hsh & _).
    rewrite Hrun in Hrun2. injection Hrun2 as -> _.
    eexists s', _. split; [exact Hs'|]. split; [exact Hsh|].
    split; [reflexivity|].
    intros buf len.
    destruct (juke_write_cold host j' s' _ buf len t1 Hs' Hsh (or_introl eq_refl))
      as (j2 & s2 & tr2 & Hw & Hs2 & Hsh2 & _ & Hnw & _).
    eexists _, j2, s2, tr2. split; [exact Hw|]. auto.
Qed.

Lemma write_waits_for_enable_witness :
  exists j1 t1 s1 r1,
    juke_init_out audio_alloc_host cd_settings (juke_audio_init None) blank_voice []
      = Done (0, j1, t1) /\
    state j1 = Some s1 /\ shmem s1 = Some r1 /\ enabled (hdr r1) = 0 /\
    exists est j2 s2 tr,
      juke_write audio_alloc_host [1; 2; 3; 4] 4 j1 t1 =
        Done (est, j2, t1 ++ tr ++ [EvCall (AudioRateGetBytes 4) est]) /\
      state j2 = Some s2 /\ shmem s2 = Some r1.
Proof.
  destruct (juke_init_out_alloc_run audio_alloc_host cd_settings (juke_audio_init None)
              blank_voice [] eq_refl)
    as (j1 & s' & tr & Hrun & _).
  - vm_compute. intros H; discriminate H.
  - destruct (write_waits_for_enable audio_alloc_host cd_settings (juke_audio_init None)
                blank_voice [] j1 _ eq_refl Hrun)
      as (s1 & r1 & Hs1 & Hr1 & Hen & Hw).
    destruct (Hw [1; 2; 3; 4] 4) as (est & j2 & s2 & tr2 & Hw2 & _ & _ & Hs2 & Hr2).
    eexists j1, _, s1, r1. split; [exact Hrun|]. split; [exact Hs1|].
    split; [exact Hr1|]. split; [exact Hen|].
    exists est, j2, s2, tr2. auto.
Defined.

(** X4.  A later [juke_init_out] on a driver state that has its region
    allocates nothing and writes nothing: the region, with the rate, the
    channels and the format of the first initialisation and with whatever
    the ring holds, stays as it is, while the voice takes the frame size of
    the new settings. *)
Theorem init_out_keeps_region (host : Host Loc) as_ s0 r j0 t :
  shmem s0 = Some r ->
  let bpf := host t (AudioPcmInitInfo (freq as_) (nchannels as_)) in
  exists j',
    juke_init_out host as_ s0 j0 t =
      Done (0, j',
            t ++ [EvCall (AudioPcmInitInfo (freq as_) (nchannels as_)) bpf;
                  EvCall AudioRateStart 0]) /\
    state j' = Some s0 /\ bytes_per_frame j' = bpf.
Proof.
  intros Hr bpf. eexists. split; [eapply juke_init_out_kept_run; exact Hr|].
  split; reflexivity.
Qed.

Lemma init_out_keeps_region_witness :
  exists j',
    juke_init_out audio_alloc_host cd_settings (small_state 3 2 1) blank_voice [] =
      Done (0, j', [] ++ [EvCall (AudioPcmInitInfo 44100 2) 4; EvCall AudioRateStart 0]) /\
    state j' = Some (small_state 3 2 1) /\ bytes_per_frame j' = 4.
Proof.
  exact (init_out_keeps_region audio_alloc_host cd_settings (small_state 3 2 1)
           (small_ring 3 2 1) blank_voice [] eq_refl).
Defined.

(** ** Writes past the mapping *)

Lemma memcpy_None dst off src soff n :
  Z.of_nat (length dst) < off + n -> memcpy dst off src soff n = None.
Proof.
  intros H. unfold memcpy.
  rewrite (proj2 (Z.leb_gt (off + n) (Z.of_nat (length dst))) H).
  rewrite andb_false_r. reflexivity.
Qed.

Lemma ring_memcpy_fault off buf soff n j s r t :
  state j = Some s -> shmem s = Some r ->
  memcpy (ring_data r) off buf soff n = None ->
  ring_memcpy off buf soff n j t = Fault.
Proof.
  intros Hs Hr Hm. unfold ring_memcpy, the_region, the_state, bind, get, ret.
  rewrite Hs, Hr, Hm. reflexivity.
Qed.

(** [juke_write] takes the size of the ring from the header and the frame
    size from the voice; it does not look at the size of the mapping. *)
Lemma juke_write_overrun (host : Host Loc) j s r buf len t :
  state j = Some s -> shmem s = Some r ->
  enabled (hdr r) <> 0 ->
  0 < bytes_per_frame j < 2 ^ 31 ->
  1 <= ring_frames (hdr r) < 2 ^ 32 ->
  0 <= write_idx (hdr r) < 2 ^ 32 -> 0 <= read_idx (hdr r) < 2 ^ 32 ->
  0 <= len < 2 ^ 64 ->
  let bpf := bytes_per_frame j in
  let n := Z.min (len / bpf) (free_frames (hdr r)) in
  0 < n ->
  Z.of_nat (length (ring_data r))
    < write_offset bpf (hdr r)
      + Z.min (n * bpf) (ring_frames (hdr r) * bpf - write_offset bpf (hdr r)) ->
  juke_write host buf len j t = Fault.
Proof.
  intros Hs Hr Hen Hb Hrf Hw Hrd Hlen bpf n Hn Hover.
  set (r0 := set_ring_data
               (replicate (Z.to_nat (ring_frames (hdr r) * bpf)) 0) r).
  assert (Hwf : ring_wf bpf r0).
  { unfold ring_wf, r0. cbn [hdr ring_data set_ring_data].
    rewrite length_replicate. repeat split; first [lia|nia]. }
  unfold juke_write.
  rewrite (bind_Done get _ j t j j t) by reflexivity.
  assert (Hnr : not_ready j = false) by (unfold not_ready; rewrite Hs, Hr; reflexivity).
  rewrite Hnr.
  match goal with
  | |- context [bind the_state (fun s0 => bind (when _ _) (fun _ =>
                  bind the_state (fun s1 => bind (when _ _) (fun _ => ?k))))] =>
      destruct (handshake_run host k j s t Hs)
        as (j2 & s2 & pre & Hrun & Hho & Hs2 & Hpre)
  end.
  rewrite Hrun. clear Hrun.
  pose proof Hho as (Hbpf & _ & u & u' & Hu & Hu' & Hsh & _).
  rewrite Hs in Hu. injection Hu as <-. rewrite Hs2 in Hu'. injection Hu' as <-.
  rewrite Hr in Hsh.
  rewrite (bind_Done _ _ _ _ _ _ _ (atomic_load_run F_enabled Acquire j2 s2 r _ Hs2 Hsh)).
  cbn [get_field].
  destruct (enabled (hdr r) =? 0) eqn:E; [blia|]. clear E.
  rewrite (bind_Done _ _ _ _ _ _ _ (audio_load_run F_ring_frames j2 s2 r _ Hs2 Hsh)).
  rewrite (bind_Done _ _ _ _ _ _ _ (audio_load_run F_write_idx j2 s2 r _ Hs2 Hsh)).
  rewrite (bind_Done _ _ _ _ _ _ _ (atomic_load_run F_read_idx Acquire j2 s2 r _ Hs2 Hsh)).
  cbn [get_field].
  destruct (ring_arith _ _ Hwf) as (E1 & E2 & Hused & E3 & Hfree & E4 & E5 & E6 & Hoff).
  cbn [hdr r0 set_ring_data] in E1, E2, Hused, E3, Hfree, E5, E6, Hoff.
  fold bpf. rewrite !E1, !E2, !E3, !E4, !E5, !E6.
  assert (Emin : (if len / bpf >? free_frames (hdr r)
                  then free_frames (hdr r) else len / bpf) = n).
  { rewrite Z.gtb_ltb. subst n. destruct (_ <? _) eqn:E; bool_hyps; lia. }
  rewrite !Emin.
  set (rb := ring_frames (hdr r) * bpf) in *.
  set (off := write_offset bpf (hdr r)) in *.
  assert (Hnle : n <= len / bpf /\ n <= free_frames (hdr r)) by (subst n; lia).
  assert (Hnb : 0 < n * bpf <= len).
  { split; [nia|]. transitivity (len / bpf * bpf); [nia|].
    rewrite Z.mul_comm. apply Z.mul_div_le. lia. }
  assert (Hnrb : n * bpf <= rb - bpf) by (subst rb; nia).
  assert (Hoffrb : off <= rb - bpf) by (subst rb; lia).
  assert (H64 : 2 ^ 64 = 18446744073709551616) by reflexivity.
  assert (H31 : 2 ^ 31 = 2147483648) by reflexivity.
  assert (H32 : 2 ^ 32 = 4294967296) by reflexivity.
  assert (Hrb64 : rb <= 4294967296 * 2147483648).
  { subst rb. apply Z.mul_le_mono_nonneg; lia. }
  rewrite (wrap64_small (rb - off)) by lia.
  rewrite (wrap64_small (n * bpf)) by lia.
  destruct (bpf =? 0) eqn:E; [blia|]. clear E.
  destruct (n =? 0) eqn:E; [blia|]. clear E.
  apply bind_Fault.
  destruct (rb - off >=? n * bpf) eqn:Hcase.
  - rewrite Z.geb_leb in Hcase. apply Z.leb_le in Hcase.
    eapply ring_memcpy_fault; [exact Hs2|exact Hsh|].
    apply memcpy_None. lia.
  - rewrite Z.geb_leb in Hcase. apply Z.leb_gt in Hcase.
    apply bind_Fault.
    eapply ring_memcpy_fault; [exact Hs2|exact Hsh|].
    apply memcpy_None. lia.
Qed.

(** X5.  The region is sized once, for the frames of the first
    [juke_init_out]; a later [juke_init_out] with larger frames keeps it,
    and [juke_write] then takes the ring to be [8192] of the larger frames:
    once the renderer has enabled the ring, a write of more bytes than the
    region holds runs past the end of the mapping. *)
Theorem reinit_with_larger_frames_overruns (host : Host Loc)
    as1 as2 path j0 t b1 b2 buf len :
  (forall t', host t' (AudioPcmInitInfo (freq as1) (nchannels as1)) = b1) ->
  (forall t', host t' (AudioPcmInitInfo (freq as2) (nchannels as2)) = b2) ->
  (forall t' n, 0 <= host t' (MemfdAlloc "juke-audio" n)) ->
  0 < b1 < b2 -> b2 < 2 ^ 18 ->
  0 <= len < 2 ^ 64 -> len <= Z.of_nat (length buf) ->
  8192 * b1 < Z.min (len / b2) 8191 * b2 ->
  exists j1 t1 s1 r1,
    juke_init_out host as1 (juke_audio_init path) j0 t = Done (0, j1, t1) /\
    state j1 = Some s1 /\ shmem s1 = Some r1 /\
    Z.of_nat (length (ring_data r1)) = 8192 * b1 /\
    exists j2 t2,
      juke_init_out host as2 (set_shmem (Some (consume 0 1 r1)) s1) j1 t1
        = Done (0, j2, t2) /\
      bytes_per_frame j2 = b2 /\
      juke_write host buf len j2 t2 = Fault.
Proof.
  intros Hb1 Hb2 Halloc Hb Hb18 Hlen Hbuf Hbig.
  assert (H18 : 2 ^ 18 = 262144) by reflexivity.
  destruct (juke_init_out_alloc_run host as1 (juke_audio_init path) j0 t eq_refl
              ltac:(apply Halloc))
    as (j1 & s1 & tr & Hrun & _ & Hbpf1 & _ & Hs1 & Hr1 & _).
  rewrite Hb1 in Hrun, Hbpf1, Hr1.
  rewrite (init_size b1 ltac:(lia)) in Hrun, Hr1.
  eexists j1, _, s1, _. split; [exact Hrun|]. split; [exact Hs1|].
  split; [exact Hr1|].
  split.
  { cbn [ring_data]. rewrite length_replicate. unfold sizeof_JukeAudioHeader. lia. }
  eexists _, _. split.
  { eapply juke_init_out_kept_run. reflexivity. }
  rewrite Hb2. split; [reflexivity|].
  eapply juke_write_overrun; [reflexivity|reflexivity|..];
    cbn [bytes_per_frame hdr set_hdr set_shmem consume set_field init_header
         enabled ring_frames write_idx read_idx ring_data];
    unfold JUKE_AUDIO_RING_FRAMES;
    change (2 ^ 31) with 2147483648; change (2 ^ 32) with 4294967296;
    try (change (wrap32 (0 + 0)) with 0); try lia.
  - change (free_frames _) with 8191.
    set (m := Z.min (len / b2) 8191) in *. nia.
  - change (free_frames _) with 8191. change (write_offset _ _) with (0 * b2).
    rewrite length_replicate. unfold sizeof_JukeAudioHeader.
    set (m := Z.min (len / b2) 8191) in *.
    assert (m <= 8191) by (subst m; lia). nia.
Qed.

Lemma reinit_with_larger_frames_overruns_witness :
  exists j1 t1 s1 r1,
    juke_init_out audio_alloc_host mono_settings (juke_audio_init None) blank_voice []
      = Done (0, j1, t1) /\
    state j1 = Some s1 /\ shmem s1 = Some r1 /\
    Z.of_nat (length (ring_data r1)) = 8192 * 2 /\
    exists j2 t2,
      juke_init_out audio_alloc_host cd_settings
        (set_shmem (Some (consume 0 1 r1)) s1) j1 t1 = Done (0, j2, t2) /\
      bytes_per_frame j2 = 4 /\
      juke_write audio_alloc_host (replicate (Z.to_nat 32764) 0) 32764 j2 t2 = Fault.
Proof.
  apply (reinit_with_larger_frames_overruns audio_alloc_host mono_settings
           cd_settings None blank_voice [] 2 4 (replicate (Z.to_nat 32764) 0) 32764).
  - intros t'. reflexivity.
  - intros t'. reflexivity.
  - intros t' n. vm_compute. intros H; discriminate H.
  - lia.
  - vm_compute. reflexivity.
  - vm_compute. split; [intros H; discriminate H|reflexivity].
  - rewrite length_replicate. lia.
  - vm_compute. reflexivity.
Defined.

(** ** [juke_volume_out] *)

(** X6.  [juke_volume_out] does nothing on a voice without a region.  With
    one, it publishes the mixer setting by three release stores, in this
    order: [muted] (1 or 0), [volume_left] (the level of channel 0) and
    [volume_right] (the level of channel 1, or that of channel 0 again for
    a setting with a single channel); nothing else in the region
    changes. *)
Theorem volume_out_publishes (v : Volume) j t :
  (not_ready j = true -> juke_volume_out v j t = Done (tt, j, t)) /\
  (forall s r l rt,
     state j = Some s -> shmem s = Some r ->
     vol v !! 0%nat = Some l -> 0 <= l < 256 ->
     (if 1 <? vol_channels v then vol v !! 1%nat = Some rt /\ 0 <= rt < 256
      else rt = l) ->
     let m := if mute v then 1 else 0 in
     exists j' s',
       juke_volume_out v j t =
         Done (tt, j',
               t ++ [EvAtomicStore (Hdr F_muted) m Release;
                     EvAtomicStore (Hdr F_volume_left) l Release;
                     EvAtomicStore (Hdr F_volume_right) rt Release]) /\
       bytes_per_frame j' = bytes_per_frame j /\ state j' = Some s' /\
       shmem s' = Some {| hdr := set_field F_volume_right rt
                                   (set_field F_volume_left l
                                      (set_field F_muted m (hdr r)));
                          ring_data := ring_data r |} /\
       shmem_size s' = shmem_size s /\ shmem_fd s' = shmem_fd s /\
       client_fd s' = client_fd s /\ fd_sent s' = fd_sent s).
Proof.
  split.
  { intros Hnr. unfold juke_volume_out, bind, get. rewrite Hnr. reflexivity. }
  intros s r l rt Hs Hr Hl Hlr Hrt m.
  unfold juke_volume_out.
  rewrite (bind_Done get _ j t j j t) by reflexivity.
  assert (Hnr : not_ready j = false) by (unfold not_ready; rewrite Hs, Hr; reflexivity).
  rewrite Hnr.
  erewrite (bind_Done (atomic_store _ _ _)); [|eapply atomic_store_run; eassumption].
  fold m.
  assert (Hm : wrap32 m = m) by (subst m; destruct (mute v); reflexivity).
  rewrite Hm.
  assert (H0 : zidx (vol v) 0 = Some l) by exact Hl.
  rewrite H0.
  assert (Hwl : wrap32 l = l)
    by (apply wrap32_small; change (2 ^ 32) with 4294967296; lia).
  rewrite Hwl.
  assert (Hright :
    (if vol_channels v >? 1
     then match zidx (vol v) 1 with
          | Some v1 => ret (wrap32 v1)
          | None => fault
          end
     else ret l) = (ret rt : M JukeVoiceOut Loc Z)).
  { rewrite Z.gtb_ltb. destruct (1 <? vol_channels v).
    - destruct Hrt as (H1 & Hr1).
      assert (H1' : zidx (vol v) 1 = Some rt) by exact H1.
      rewrite H1'. rewrite wrap32_small
        by (change (2 ^ 32) with 4294967296; lia). reflexivity.
    - rewrite Hrt. reflexivity. }
  rewrite Hright.
  rewrite (bind_Done (ret rt) _ _ _ rt _ _ eq_refl).
  erewrite (bind_Done (atomic_store _ _ _)); [|eapply atomic_store_run; reflexivity].
  erewrite atomic_store_run; [|reflexivity|reflexivity].
  assert (Hwr : wrap32 rt = rt).
  { apply wrap32_small. change (2 ^ 32) with 4294967296.
    destruct (1 <? vol_channels v); [lia|]. subst rt. lia. }
  rewrite Hwl, Hwr. rewrite <- !app_assoc.
  eexists _, _. split; [reflexivity|].
  cbn [bytes_per_frame state set_state shmem set_shmem hdr set_hdr ring_data
       shmem_size shmem_fd client_fd fd_sent].
  auto 10.
Qed.

Lemma volume_out_publishes_witness :
  exists j' s',
    juke_volume_out (stereo_volume true 200 100) (small_voice 3 2 1) [] =
      Done (tt, j',
            [] ++ [EvAtomicStore (Hdr F_muted) 1 Release;
                   EvAtomicStore (Hdr F_volume_left) 200 Release;
                   EvAtomicStore (Hdr F_volume_right) 100 Release]) /\
    state j' = Some s' /\
    shmem s' = Some {| hdr := set_field F_volume_right 100
                                (set_field F_volume_left 200
                                   (set_field F_muted 1 (hdr (small_ring 3 2 1))));
                       ring_data := ring_data (small_ring 3 2 1) |}.
Proof.
  destruct (volume_out_publishes (stereo_volume true 200 100) (small_voice 3 2 1) [])
    as (_ & H).
  destruct (H (small_state 3 2 1) (small_ring 3 2 1) 200 100 eq_refl eq_refl eq_refl)
    as (j' & s' & Hrun & _ & Hs & Hr & _).
  - lia.
  - vm_compute. split; [reflexivity|]. split; [intros E; discriminate E|reflexivity].
  - exists j', s'. split; [exact Hrun|]. split; [exact Hs|exact Hr].
Defined.

(** ** [juke_audio_connect] *)

Lemma juke_audio_send_fd_fail (host : Host Loc) j s t :
  state j = Some s ->
  0 <= client_fd s -> 0 <= shmem_fd s -> fd_sent s = false ->
  host t (Sendmsg (client_fd s) (shmem_fd s)) < 0 ->
  juke_audio_send_fd host j t =
    Done (tt, j,
          t ++ [EvCall (Sendmsg (client_fd s) (shmem_fd s))
                  (host t (Sendmsg (client_fd s) (shmem_fd s)));
                EvCall (ErrorReport "juke-audio: failed to send fd") 0]).
Proof.
  intros Hs H1 H2 H3 H4.
  unfold juke_audio_send_fd, the_state, notify, call, emit, bind, get, ret.
  rewrite Hs, H3.
  rewrite (proj2 (Z.ltb_ge (client_fd s) 0)) by lia.
  rewrite (proj2 (Z.ltb_ge (shmem_fd s) 0)) by lia. cbn [orb].
  rewrite (proj2 (Z.ltb_lt (host t _) 0)) by lia.
  rewrite <- app_assoc. reflexivity.
Qed.

(** X7.  [juke_audio_connect] answers 0 exactly when the driver has a
    connection afterwards, and -1 otherwise.  With a connection already, or
    without a socket path, it does nothing at all.  When it fails after a
    socket was made, it closes that socket and leaves the state as it was.
    When it succeeds, the new socket is the connection, and the descriptor
    of the region, if there is one, is offered at once; the region itself is
    never touched. *)
Theorem audio_connect_result (host : Host Loc) j s t :
  state j = Some s ->
  exists ret j' s' tr,
    juke_audio_connect host j t = Done (ret, j', t ++ tr) /\
    state j' = Some s' /\ shmem s' = shmem s /\
    (ret = 0 /\ 0 <= client_fd s' \/ ret = -1 /\ client_fd s' < 0) /\
    (0 <= client_fd s \/ socket_path s = None -> j' = j /\ tr = []) /\
    (ret = -1 ->
     j' = j /\
     forall fd, In (EvCall Socket fd) tr -> 0 <= fd ->
       exists a, tr = [EvCall Socket fd; a; EvCall (Close fd) 0]) /\
    (client_fd s < 0 -> ret = 0 ->
     client_fd s' = host t Socket /\
     (0 <= shmem_fd s ->
      exists a, In (EvCall (Sendmsg (client_fd s') (shmem_fd s)) a) tr) /\
     (fd_sent s' = true -> 0 <= shmem_fd s)).
Proof.
  intros Hs. unfold juke_audio_connect.
  rewrite (bind_Done _ _ _ _ _ _ _ (the_state_run j s t Hs)).
  destruct (bool_decide (socket_path s = None)) eqn:Hpath.
  { apply bool_decide_eq_true in Hpath. cbn [orb].
    exists (if 0 <=? client_fd s then 0 else -1), j, s, [].
    rewrite app_nil_r. unfold ret.
    split; [reflexivity|]. split; [exact Hs|]. split; [reflexivity|].
    destruct (0 <=? client_fd s) eqn:Hc; bool_hyps.
    - split; [left; split; [reflexivity|lia]|].
      split; [intros _; split; reflexivity|]. split; [intros [=]|]. intros; lia.
    - split; [right; split; [reflexivity|lia]|].
      split; [intros _; split; reflexivity|]. split; [|intros _ [=]].
      intros _. split; [reflexivity|]. intros fd []. }
  apply bool_decide_eq_false in Hpath. cbn [orb].
  destruct (0 <=? client_fd s) eqn:Hc; bool_hyps.
  { exists 0, j, s, []. rewrite app_nil_r. unfold ret.
    split; [reflexivity|]. split; [exact Hs|]. split; [reflexivity|].
    split; [left; split; [reflexivity|lia]|].
    split; [intros _; split; reflexivity|]. split; [intros [=]|]. intros; lia. }
  unfold bind at 1. unfold call at 1.
  set (fd := host t Socket).
  destruct (fd <? 0) eqn:Hfd; bool_hyps.
  { eexists (-1), j, s, [_]. unfold ret.
    split; [reflexivity|]. split; [exact Hs|]. split; [reflexivity|].
    split; [right; split; [reflexivity|lia]|].
    split; [intros [?|?]; [lia|contradiction]|].
    split; [|intros _ [=]].
    intros _. split; [reflexivity|].
    intros fd' [[= <-]|[]] Hge. lia. }
  unfold bind at 1. unfold call at 1.
  set (t1 := t ++ [EvCall Socket fd]).
  set (path := sun_path _).
  set (c := host t1 (Connect fd path)).
  destruct (c <? 0) eqn:Hcn; bool_hyps.
  { eexists (-1), j, s, [_; _; _]. unfold bind, notify, emit, ret.
    subst t1. rewrite <- !app_assoc. cbn [app].
    split; [reflexivity|]. split; [exact Hs|]. split; [reflexivity|].
    split; [right; split; [reflexivity|lia]|].
    split; [intros [?|?]; [lia|contradiction]|].
    split; [|intros _ [=]].
    intros _. split; [reflexivity|].
    intros fd' [[= <-]|[[=]|[[=]|[]]]] Hge. eexists. reflexivity. }
  unfold bind at 1. unfold notify at 1, emit at 1.
  erewrite (bind_Done (modify_state _)); [|eapply modify_state_run; exact Hs].
  erewrite (bind_Done (modify_state _)); [|eapply modify_state_run; reflexivity].
  cbn [set_state state].
  erewrite (bind_Done the_state); [|eapply the_state_run; reflexivity].
  cbn [shmem_fd set_fd_sent set_client_fd].
  set (s1 := set_fd_sent false (set_client_fd fd s)).
  set (j1 := set_state s1 (set_state (set_client_fd fd s) j)).
  set (t2 := (t1 ++ _) ++ _).
  assert (Ht2 : t2 = t ++ [EvCall Socket fd; EvCall (Connect fd path) c;
                           EvCall (ErrorReport "juke-audio: connected") 0]).
  { subst t2 t1. rewrite <- !app_assoc. reflexivity. }
  destruct (0 <=? shmem_fd s) eqn:Hsh; bool_hyps; cbn [when].
  - (* the descriptor is offered *)
    set (a := host t2 (Sendmsg fd (shmem_fd s))).
    destruct (Z_lt_dec a 0) as [Ha|Ha].
    + rewrite (bind_Done _ _ _ _ _ _ _
                 (juke_audio_send_fd_fail host j1 s1 t2 eq_refl
                    ltac:(change (0 <= fd); lia) ltac:(change (0 <= shmem_fd s); lia) eq_refl Ha)).
      eexists 0, j1, s1, [_; _; _; _; _]. unfold ret.
      rewrite Ht2, <- !app_assoc. cbn [app].
      split; [reflexivity|]. split; [reflexivity|]. split; [reflexivity|].
      split; [left; split; [reflexivity|cbn; lia]|].
      split; [intros [?|?]; [lia|contradiction]|].
      split; [intros [=]|].
      intros _ _. split; [reflexivity|].
      split; [|intros [=]].
      intros _. exists a. right. right. right. left.
      subst a. rewrite Ht2. reflexivity.
    + rewrite (bind_Done _ _ _ _ _ _ _
                 (juke_audio_send_fd_ok host j1 s1 t2 eq_refl
                    ltac:(change (0 <= fd); lia) ltac:(change (0 <= shmem_fd s); lia) eq_refl ltac:(change (0 <= a); lia))).
      eexists 0, _, _, [_; _; _; _; _]. unfold ret.
      rewrite Ht2, <- !app_assoc. cbn [app].
      split; [reflexivity|]. split; [reflexivity|]. split; [reflexivity|].
      split; [left; split; [reflexivity|cbn; lia]|].
      split; [intros [?|?]; [lia|contradiction]|].
      split; [intros [=]|].
      intros _ _. split; [reflexivity|].
      split; [|intros _; lia].
      intros _. exists a. right. right. right. left.
      subst a. rewrite Ht2. reflexivity.
  - eexists 0, j1, s1, [_; _; _]. unfold bind, ret.
    rewrite Ht2.
    split; [reflexivity|]. split; [reflexivity|]. split; [reflexivity|].
    split; [left; split; [reflexivity|cbn; lia]|].
    split; [intros [?|?]; [lia|contradiction]|].
    split; [intros [=]|].
    intros _ _. split; [reflexivity|].
    split; [intros; lia|intros [=]].
Qed.

Lemma audio_connect_result_witness :
  exists ret j' s' tr,
    juke_audio_connect quiet_host (small_voice 0 0 1) [] = Done (ret, j', [] ++ tr) /\
    state j' = Some s' /\ shmem s' = shmem (small_state 0 0 1) /\
    (ret = 0 /\ 0 <= client_fd s' \/ ret = -1 /\ client_fd s' < 0).
Proof.
  destruct (audio_connect_result quiet_host (small_voice 0 0 1) (small_state 0 0 1) []
              eq_refl)
    as (ret & j' & s' & tr & Hrun & Hs & Hr & Hret & _).
  exists ret, j', s', tr. auto.
Defined.

(** ** What the callbacks leave alone *)

Lemma renderer_fields_kept_refl r : renderer_fields_kept r r.
Proof. split; auto. Qed.

Lemma renderer_fields_kept_trans r1 r2 r3 :
  renderer_fields_kept r1 r2 -> renderer_fields_kept r2 r3 ->
  renderer_fields_kept r1 r3.
Proof.
  intros (H1 & L1) (H2 & L2). split; [|congruence].
  intros f Ha Hb Hc Hd. rewrite H2, H1 by assumption. reflexivity.
Qed.

Lemma voice_region_kept_refl j : voice_region_kept j j.
Proof.
  intros s r Hs Hr. exists s, r. auto using renderer_fields_kept_refl.
Qed.

Lemma voice_region_kept_trans j1 j2 j3 :
  voice_region_kept j1 j2 -> voice_region_kept j2 j3 -> voice_region_kept j1 j3.
Proof.
  intros H1 H2 s r Hs Hr.
  destruct (H1 s r Hs Hr) as (s2 & r2 & Hs2 & Hr2 & Hz2 & Hf2 & Hk2).
  destruct (H2 s2 r2 Hs2 Hr2) as (s3 & r3 & Hs3 & Hr3 & Hz3 & Hf3 & Hk3).
  exists s3, r3. split; [exact Hs3|]. split; [exact Hr3|].
  split; [congruence|]. split; [congruence|].
  eauto using renderer_fields_kept_trans.
Qed.

Lemma handshake_only_kept j j' : handshake_only j j' -> voice_region_kept j j'.
Proof.
  intros (_ & _ & s & s' & Hs & Hs' & Hsh & Hsz & Hfd & _) u r Hu Hr.
  rewrite Hs in Hu. injection Hu as <-.
  exists s', r. split; [exact Hs'|]. split; [congruence|].
  auto using renderer_fields_kept_refl.
Qed.

(** A store to one of the fields QEMU owns. *)
Lemma producer_store_kept f v r :
  f = F_write_idx \/ f = F_muted \/ f = F_volume_left \/ f = F_volume_right ->
  renderer_fields_kept r (set_hdr (set_field f v (hdr r)) r).
Proof.
  intros Hf. split; [|reflexivity].
  intros f' Ha Hb Hc Hd. cbn [hdr set_hdr].
  destruct (hdr r).
  destruct Hf as [-> | [-> | [-> | ->]]]; destruct f'; try reflexivity; congruence.
Qed.

Section Kept.
Variable host : Host Loc.

Local Abbreviation kept := (confined voice_region_kept (fun _ : Event Loc => True)).

Lemma kept_ret {A} (a : A) : kept (ret a).
Proof. apply confined_ret, voice_region_kept_refl. Qed.

Lemma kept_bind {A B} (m : M JukeVoiceOut Loc A) (k : A -> M JukeVoiceOut Loc B) :
  kept m -> (forall a, kept (k a)) -> kept (bind m k).
Proof. apply confined_bind, voice_region_kept_trans. Qed.

Lemma kept_of_run {A} (m : M JukeVoiceOut Loc A) :
  (forall j t a j' t', m j t = Done (a, j', t') ->
     voice_region_kept j j' /\ exists tr, t' = t ++ tr) ->
  kept m.
Proof.
  intros H j t a j' t' Hrun. destruct (H _ _ _ _ _ Hrun) as (Hk & tr & ->).
  split; [exact Hk|]. exists tr. split; [reflexivity|].
  apply Forall_forall. auto.
Qed.

Lemma kept_the_state : kept the_state.
Proof.
  apply kept_of_run. intros j t a j' t'. unfold the_state, bind, get, ret.
  destruct (state j); [|discriminate]. intros [= <- <- <-].
  split; [apply voice_region_kept_refl|]. exists []. symmetry. apply app_nil_r.
Qed.

Lemma kept_the_region : kept the_region.
Proof.
  apply kept_bind; [apply kept_the_state|]. intros s.
  destruct (shmem s); [apply kept_ret|apply confined_fault].
Qed.

(** A change of the driver state that leaves the region to QEMU's fields. *)
Lemma kept_modify_state f :
  (forall s, shmem_size (f s) = shmem_size s /\ shmem_fd (f s) = shmem_fd s /\
             forall r, shmem s = Some r ->
               exists r', shmem (f s) = Some r' /\ renderer_fields_kept r r') ->
  kept (modify_state f).
Proof.
  intros Hf. apply kept_of_run. intros j t a j' t'.
  unfold modify_state, the_state, bind, get, put, ret.
  destruct (state j) as [s|] eqn:Hs; [|discriminate]. intros [= <- <- <-].
  split; [|exists []; symmetry; apply app_nil_r].
  intros u r Hu Hr. rewrite Hs in Hu. injection Hu as <-.
  destruct (Hf s) as (Hz & Hfd & Hreg). destruct (Hreg r Hr) as (r' & Hr' & Hk).
  exists (f s), r'. auto.
Qed.

Lemma kept_modify_region g :
  (forall r, renderer_fields_kept r (g r)) -> kept (modify_region g).
Proof.
  intros Hg. apply kept_of_run. intros j t a j' t'.
  unfold modify_region, the_region, modify_state, the_state, bind, get, put, ret.
  destruct (state j) as [s|] eqn:Hs; [|discriminate].
  destruct (shmem s) as [r|] eqn:Hr; [|discriminate].
  rewrite Hs. intros [= <- <- <-].
  split; [|exists []; symmetry; apply app_nil_r].
  intros u r0 Hu Hr0. rewrite Hs in Hu. injection Hu as <-.
  rewrite Hr in Hr0. injection Hr0 as <-.
  eexists _, _. split; [reflexivity|]. split; [reflexivity|]. auto.
Qed.

Lemma kept_atomic_store f v o :
  f = F_write_idx \/ f = F_muted \/ f = F_volume_left \/ f = F_volume_right ->
  kept (atomic_store f v o).
Proof.
  intros Hf. apply kept_bind.
  - apply kept_modify_region. intros r. apply producer_store_kept, Hf.
  - intros _. apply confined_emit; [apply voice_region_kept_refl|exact I].
Qed.

Lemma kept_load f : kept (load f).
Proof. apply kept_bind; [apply kept_the_region|intros r; apply kept_ret]. Qed.

Lemma kept_atomic_load f o : kept (atomic_load f o).
Proof.
  apply kept_bind; [apply kept_load|]. intros v.
  apply kept_bind; [|intros _; apply kept_ret].
  apply confined_emit; [apply voice_region_kept_refl|exact I].
Qed.

Lemma kept_ring_memcpy off buf soff n : kept (ring_memcpy off buf soff n).
Proof.
  apply kept_of_run. intros j t a j' t'.
  unfold ring_memcpy, modify_region, the_region, modify_state, the_state,
    bind, get, put, emit, ret.
  destruct (state j) as [s|] eqn:Hs; [|discriminate].
  destruct (shmem s) as [r|] eqn:Hr; [|discriminate].
  destruct (memcpy _ _ _ _ _) as [d|] eqn:Hm; [|discriminate].
  rewrite Hs, Hr, Hs. intros [= <- <- <-].
  split; [|eexists; reflexivity].
  intros u r0 Hu Hr0. rewrite Hs in Hu. injection Hu as <-.
  rewrite Hr in Hr0. injection Hr0 as <-.
  eexists _, _. split; [reflexivity|]. split; [reflexivity|].
  split; [reflexivity|]. split; [reflexivity|].
  split; [auto|]. cbn. eapply memcpy_length. exact Hm.
Qed.

Lemma kept_send_fd : kept (juke_audio_send_fd host).
Proof.
  apply kept_of_run. intros j t a j' t' Hrun.
  destruct (state j) as [s|] eqn:Hs.
  - destruct (juke_audio_send_fd_run host j s t Hs) as (j2 & tr & Hrun2 & Hh & _).
    rewrite Hrun in Hrun2. injection Hrun2 as _ -> ->.
    split; [apply handshake_only_kept, Hh|]. eauto.
  - unfold juke_audio_send_fd, the_state, bind, get in Hrun.
    rewrite Hs in Hrun. discriminate.
Qed.

Lemma kept_connect : kept (juke_audio_connect host).
Proof.
  apply kept_of_run. intros j t a j' t' Hrun.
  destruct (state j) as [s|] eqn:Hs.
  - destruct (juke_audio_connect_run host j s t Hs) as (r & j2 & tr & Hrun2 & Hh & _).
    rewrite Hrun in Hrun2. injection Hrun2 as _ -> ->.
    split; [apply handshake_only_kept, Hh|]. eauto.
  - unfold juke_audio_connect, the_state in Hrun.
    unfold bind at 1 in Hrun. unfold bind at 1 in Hrun. unfold get in Hrun.
    rewrite Hs in Hrun. discriminate.
Qed.

Ltac kept_step :=
  first
    [ apply kept_ret | apply confined_fault | apply confined_get; apply voice_region_kept_refl
    | apply kept_the_state | apply kept_load | apply kept_atomic_load
    | apply kept_atomic_store; auto | apply kept_ring_memcpy
    | apply kept_send_fd | apply kept_connect
    | apply confined_call; [apply voice_region_kept_refl|intros; exact I]
    | apply confined_notify; [apply voice_region_kept_refl|exact I]
    | apply confined_when; [apply voice_region_kept_refl|]
    | apply kept_bind; [|intros ?]
    | match goal with
      | |- confined _ _ (if ?c then _ else _) => destruct c
      | |- confined _ _ (match ?c with _ => _ end) => destruct c
      end ].

Lemma kept_juke_write buf len : kept (juke_write host buf len).
Proof. unfold juke_write. repeat kept_step. Qed.

Lemma kept_juke_volume_out v : kept (juke_volume_out v).
Proof. unfold juke_volume_out. repeat kept_step. Qed.

Lemma kept_run_op op : kept (run_op host op).
Proof.
  destruct op as [as_| |buf len|enable|v]; cbn [run_op].
  - apply kept_of_run. intros j t a j' t'.
    unfold bind at 1. unfold the_state, bind at 1, get, ret.
    destruct (state j) as [s|] eqn:Hs; [|discriminate].
    destruct (shmem s) as [r|] eqn:Hr.
    + rewrite (juke_init_out_kept_run host as_ s r j t Hr). intros [= <- <- <-].
      split; [|eauto]. intros u r0 Hu Hr0.
      rewrite Hs in Hu. injection Hu as <-.
      exists s, r0. auto using renderer_fields_kept_refl.
    + intros Hrun. split.
      * intros u r0 Hu Hr0. rewrite Hs in Hu. injection Hu as <-. congruence.
      * set (bpf := host t (AudioPcmInitInfo (freq as_) (nchannels as_))) in *.
        set (t0 := t ++ [EvCall (AudioPcmInitInfo (freq as_) (nchannels as_)) bpf;
                         EvCall AudioRateStart 0]).
        set (size := wrap64 (sizeof_JukeAudioHeader
                             + wrap64 (int32 (JUKE_AUDIO_RING_FRAMES * bpf)))).
        destruct (Z_lt_dec (host t0 (MemfdAlloc "juke-audio" size)) 0) as [Hlt|Hge].
        -- pose proof (juke_init_out_fail_run host as_ s j t Hr Hlt) as Hrun2.
           rewrite Hrun in Hrun2. injection Hrun2 as _ _ ->.
           rewrite <- app_assoc. eauto.
        -- destruct (juke_init_out_alloc_run host as_ s j t Hr
                       ltac:(fold bpf t0 size; lia)) as (j2 & s2 & tr & Hrun2 & _).
           rewrite Hrun in Hrun2. injection Hrun2 as _ _ ->.
           rewrite <- app_assoc. eauto.
  - unfold juke_fini_out. repeat kept_step.
  - apply kept_juke_write.
  - unfold juke_enable_out. repeat kept_step.
  - apply kept_bind; [apply kept_juke_volume_out|intros _; apply kept_ret].
Qed.

Lemma kept_run_ops ops : kept (run_ops host ops).
Proof.
  induction ops as [|op ops IH]; cbn [run_ops]; [apply kept_ret|].
  apply kept_bind; [apply kept_run_op|intros _; exact IH].
Qed.
End Kept.

(** X8.  However many callbacks of the voice run ([juke_init_out],
    [juke_fini_out], [juke_write], [juke_enable_out], [juke_volume_out], in
    any order and with any arguments), a region that is there stays, with
    its size and its descriptor, and QEMU writes none of the fields that
    belong to the renderer or describe the stream: [read_idx], [enabled],
    [magic], [version], [sample_rate], [channels], [format] and
    [ring_frames] read as before, and the sample area keeps its length. *)
Theorem audio_ops_keep_renderer_fields (host : Host Loc) ops j s r t j' t' :
  state j = Some s -> shmem s = Some r ->
  run_ops host ops j t = Done (tt, j', t') ->
  exists s' r',
    state j' = Some s' /\ shmem s' = Some r' /\
    shmem_size s' = shmem_size s /\ shmem_fd s' = shmem_fd s /\
    read_idx (hdr r') = read_idx (hdr r) /\ enabled (hdr r') = enabled (hdr r) /\
    magic (hdr r') = magic (hdr r) /\ version (hdr r') = version (hdr r) /\
    sample_rate (hdr r') = sample_rate (hdr r) /\
    channels (hdr r') = channels (hdr r) /\ format (hdr r') = format (hdr r) /\
    ring_frames (hdr r') = ring_frames (hdr r) /\
    length (ring_data r') = length (ring_data r).
Proof.
  intros Hs Hr Hrun.
  destruct (kept_run_ops host ops _ _ _ _ _ Hrun) as (Hk & _).
  destruct (Hk s r Hs Hr) as (s' & r' & Hs' & Hr' & Hz & Hfd & Hf & Hlen).
  exists s', r'. split; [exact Hs'|]. split; [exact Hr'|].
  split; [exact Hz|]. split; [exact Hfd|].
  split; [apply (Hf F_read_idx); discriminate|].
  split; [apply (Hf F_enabled); discriminate|].
  split; [apply (Hf F_magic); discriminate|].
  split; [apply (Hf F_version); discriminate|].
  split; [apply (Hf F_sample_rate); discriminate|].
  split; [apply (Hf F_channels); discriminate|].
  split; [apply (Hf F_format); discriminate|].
  split; [apply (Hf F_ring_frames); discriminate|exact Hlen].
Qed.

Lemma audio_ops_keep_renderer_fields_witness :
  exists j' t' s' r',
    run_ops quiet_host [OpVolumeOut (stereo_volume false 9 8);
                        OpWrite [1; 2; 3; 4] 4; OpEnableOut true]
      (small_voice 0 0 1) [] = Done (tt, j', t') /\
    state j' = Some s' /\ shmem s' = Some r' /\
    read_idx (hdr r') = 0 /\ enabled (hdr r') = 1 /\ ring_frames (hdr r') = 4.
Proof.
  eexists _, _.
  assert (Hrun : run_ops quiet_host [OpVolumeOut (stereo_volume false 9 8);
                                     OpWrite [1; 2; 3; 4] 4; OpEnableOut true]
                   (small_voice 0 0 1) [] = Done (tt, _, _))
    by (vm_compute; reflexivity).
  destruct (audio_ops_keep_renderer_fields quiet_host _ (small_voice 0 0 1)
              (small_state 0 0 1) (small_ring 0 0 1) [] _ _ eq_refl eq_refl Hrun)
    as (s' & r' & Hs & Hr & _ & _ & Hrd & Hen & _ & _ & _ & _ & _ & Hrf & _).
  exists s', r'. split; [exact Hrun|]. auto.
Defined.

(** ** [juke_audio_fini] *)

(** X9.  The region [juke_init_out] mapped is the one [juke_audio_fini]
    releases: whatever callbacks ran in between, the size and the
    descriptor handed to [qemu_memfd_free] are those of the allocation, and
    the connection is closed first if there is one. *)
Theorem audio_fini_releases_the_mapping (host : Host Loc)
    as_ s0 j0 t j1 t1 ops j2 t2 :
  shmem s0 = None ->
  juke_init_out host as_ s0 j0 t = Done (0, j1, t1) ->
  run_ops host ops j1 t1 = Done (tt, j2, t2) ->
  exists size fd tr s2,
    t1 = t ++ tr /\ In (EvCall (MemfdAlloc "juke-audio" size) fd) tr /\ 0 <= fd /\
    state j2 = Some s2 /\
    juke_audio_fini s2 t2 =
      Done (tt, s2,
            t2 ++ (if 0 <=? client_fd s2 then [EvCall (Close (client_fd s2)) 0] else [])
               ++ [EvCall (MemfdFree size fd) 0]).
Proof.
  intros Hr Hinit Hops.
  set (bpf := host t (AudioPcmInitInfo (freq as_) (nchannels as_))).
  set (t0 := t ++ [EvCall (AudioPcmInitInfo (freq as_) (nchannels as_)) bpf;
                   EvCall AudioRateStart 0]).
  set (size := wrap64 (sizeof_JukeAudioHeader
                       + wrap64 (int32 (JUKE_AUDIO_RING_FRAMES * bpf)))).
  destruct (Z_lt_dec (host t0 (MemfdAlloc "juke-audio" size)) 0) as [Hlt|Hge].
  { pose proof (juke_init_out_fail_run host as_ s0 j0 t Hr Hlt) as Hrun2.
    rewrite Hinit in Hrun2. discriminate Hrun2. }
  destruct (juke_init_out_alloc_run host as_ s0 j0 t Hr ltac:(fold bpf t0 size; lia))
    as (j' & s1 & tr & Hrun2 & _ & _ & _ & Hs1 & Hsh1 & Hsz1 & Hfd1 & _).
  fold bpf t0 size in Hrun2, Hsh1, Hsz1, Hfd1.
  rewrite Hinit in Hrun2. injection Hrun2 as -> ->.
  destruct (kept_run_ops host ops _ _ _ _ _ Hops) as (Hk & _).
  destruct (Hk s1 _ Hs1 Hsh1) as (s2 & r2 & Hs2 & Hr2 & Hz & Hfd & _).
  eexists size, (host t0 (MemfdAlloc "juke-audio" size)), _, s2.
  split. { subst t0. rewrite <- app_assoc. reflexivity. }
  split. { cbn [app]. right. right. left. reflexivity. }
  split; [lia|]. split; [exact Hs2|].
  unfold juke_audio_fini.
  rewrite (bind_Done get _ s2 t2 s2 s2 t2) by reflexivity.
  rewrite Hr2, Hz, Hfd, Hsz1, Hfd1.
  destruct (0 <=? client_fd s2); cbn [when]; unfold bind, notify, emit, ret.
  - rewrite <- app_assoc. reflexivity.
  - reflexivity.
Qed.

Lemma audio_fini_releases_the_mapping_witness :
  exists j1 t1 j2 t2 size fd tr s2,
    juke_init_out audio_alloc_host cd_settings (juke_audio_init None) blank_voice []
      = Done (0, j1, t1) /\
    run_ops audio_alloc_host [OpEnableOut true] j1 t1 = Done (tt, j2, t2) /\
    t1 = [] ++ tr /\ In (EvCall (MemfdAlloc "juke-audio" size) fd) tr /\ 0 <= fd /\
    state j2 = Some s2 /\
    juke_audio_fini s2 t2 =
      Done (tt, s2,
            t2 ++ (if 0 <=? client_fd s2 then [EvCall (Close (client_fd s2)) 0] else [])
               ++ [EvCall (MemfdFree size fd) 0]).
Proof.
  destruct (juke_init_out_alloc_run audio_alloc_host cd_settings (juke_audio_init None)
              blank_voice [] eq_refl)
    as (j1 & s' & tr0 & Hrun & _).
  - vm_compute. intros H; discriminate H.
  - match type of Hrun with _ = Done (_, _, ?u) => set (t1 := u) in Hrun end.
    assert (Hops : run_ops audio_alloc_host [OpEnableOut true] j1 t1
                   = Done (tt, j1, t1 ++ [EvCall AudioRateStart 0])) by reflexivity.
    destruct (audio_fini_releases_the_mapping audio_alloc_host cd_settings
                (juke_audio_init None) blank_voice [] j1 t1 [OpEnableOut true] j1 _
                eq_refl Hrun Hops)
      as (size & fd & tr & s2 & H1 & H2 & H3 & H4 & H5).
    eexists j1, _, j1, _, size, fd, tr, s2.
    split; [exact Hrun|]. split; [exact Hops|]. auto.
Defined.

(** ** What the renderer reads back *)

(** X10.  Frame [i] of a write lands in the slot of frame index
    [write_idx + i], i.e. slot [(write_idx + i) mod ring_frames]: a renderer
    that reads the frames between the old and the new [write_idx] from
    their slots gets the bytes of the buffer, in order. *)
Theorem juke_write_readback (host : Host Loc) j s r buf len t e :
  state j = Some s -> shmem s = Some r ->
  enabled (hdr r) <> 0 ->
  ring_wf (bytes_per_frame j) r ->
  0 <= e < 32 -> ring_frames (hdr r) = 2 ^ e ->
  0 <= len < 2 ^ 64 -> len <= Z.of_nat (length buf) ->
  let bpf := bytes_per_frame j in
  let n := Z.min (len / bpf) (free_frames (hdr r)) in
  0 < n ->
  exists j' s' r' t',
    juke_write host buf len j t = Done (n * bpf, j', t') /\
    state j' = Some s' /\ shmem s' = Some r' /\
    write_idx (hdr r') = wrap32 (write_idx (hdr r) + n) /\
    forall i b, 0 <= i < n -> 0 <= b < bpf ->
      ring_data r' !! slot_byte bpf (hdr r) (write_idx (hdr r) + i) b
      = buf !! Z.to_nat (i * bpf + b).
Proof.
  intros Hs Hr Hen Hwf He Hpow Hlen Hbuf bpf n Hn.
  destruct (juke_write_hot host j s r buf len t Hs Hr Hen Hwf Hlen Hbuf Hn)
    as (j' & s' & d' & pre & copies & Hrun & _ & _ & _ & _ & Hs' & Hr' & Hwr).
  fold bpf n in Hrun, Hwr.
  eexists j', s', _, _. split; [exact Hrun|]. split; [exact Hs'|].
  split; [exact Hr'|]. split; [destruct (hdr r); reflexivity|].
  intros i b Hi Hb. cbn [ring_data].
  destruct (ring_arith _ _ Hwf) as (_ & _ & _ & _ & Hfree & _).
  destruct Hwf as (Hbpf & Hrf & Hw & Hrd & Hcap). fold bpf in Hbpf, Hcap.
  destruct Hwr as (_ & Hlook).
  set (rf := ring_frames (hdr r)) in *.
  set (w := write_idx (hdr r)) in *.
  assert (Hoff : write_offset bpf (hdr r) = (w mod rf) * bpf).
  { unfold write_offset. fold w rf. rewrite Hpow. rewrite land_pow2 by lia.
    reflexivity. }
  rewrite Hoff in Hlook.
  assert (Hwm : 0 <= w mod rf < rf) by (apply Z.mod_pos_bound; lia).
  assert (Hin : n <= rf - 1) by (subst n; lia).
  set (q := (w + i) mod rf).
  assert (Hq : q = w mod rf + i \/ q = w mod rf + i - rf).
  { subst q. rewrite <- (Zplus_mod_idemp_l w i rf).
    destruct (Z_lt_dec (w mod rf + i) rf) as [Hlt|Hge].
    - left. apply Z.mod_small. lia.
    - right. symmetry. apply (Z.mod_unique_pos _ _ 1). lia. lia. }
  assert (Hqr : 0 <= q < rf) by (subst q; apply Z.mod_pos_bound; lia).
  unfold slot_byte. fold rf w q.
  set (p := q * bpf + b).
  assert (Hqb : 0 <= q * bpf <= (rf - 1) * bpf).
  { split; [apply Z.mul_nonneg_nonneg; lia|].
    apply Z.mul_le_mono_nonneg_r; lia. }
  assert (Hib : 0 <= i * bpf <= (n - 1) * bpf).
  { split; [apply Z.mul_nonneg_nonneg; lia|].
    apply Z.mul_le_mono_nonneg_r; lia. }
  assert (Hnb : (n - 1) * bpf <= (rf - 2) * bpf).
  { apply Z.mul_le_mono_nonneg_r; lia. }
  assert (Hp : 0 <= p < rf * bpf) by (subst p; lia).
  specialize (Hlook (Z.to_nat p)). rewrite Z2Nat.id in Hlook by lia.
  assert (Hmod : (p - w mod rf * bpf) mod (rf * bpf) = i * bpf + b).
  { destruct Hq as [Hq|Hq].
    - replace (p - w mod rf * bpf) with (i * bpf + b) by (subst p; rewrite Hq; ring).
      apply Z.mod_small. lia.
    - symmetry. apply (Z.mod_unique_pos _ _ (-1)); [lia|].
      subst p. rewrite Hq. ring. }
  rewrite Hmod in Hlook. rewrite Hlook.
  rewrite (proj2 (Z.ltb_lt p (rf * bpf))) by lia.
  rewrite (proj2 (Z.ltb_lt (i * bpf + b) (n * bpf))) by lia.
  reflexivity.
Qed.

Lemma juke_write_readback_witness :
  exists j' s' r' t',
    juke_write quiet_host [1; 2; 3; 4; 5; 6; 7; 8] 8 (small_voice 3 2 1) []
      = Done (2 * 2, j', t') /\
    state j' = Some s' /\ shmem s' = Some r' /\
    write_idx (hdr r') = wrap32 (3 + 2) /\
    forall i b, 0 <= i < 2 -> 0 <= b < 2 ->
      ring_data r' !! slot_byte 2 (hdr (small_ring 3 2 1)) (3 + i) b
      = [1; 2; 3; 4; 5; 6; 7; 8] !! Z.to_nat (i * 2 + b).
Proof.
  apply (juke_write_readback quiet_host (small_voice 3 2 1) (small_state 3 2 1)
           (small_ring 3 2 1) [1; 2; 3; 4; 5; 6; 7; 8] 8 [] 2 eq_refl eq_refl).
  - vm_compute. intros H; discriminate H.
  - apply small_ring_wf; vm_compute; split; first [reflexivity|intros H; discriminate H].
  - lia.
  - reflexivity.
  - vm_compute. split; [intros H; discriminate H|reflexivity].
  - vm_compute. intros H; discriminate H.
  - reflexivity.
Defined.

(** ** A write after the frames have grown *)

End AudioFacts.

(** * Facts about the display back end *)

Module DisplayFacts.
Import Display.
Local Open Scope juke_scope.

Ltac unfold_display :=
  unfold juke_shmem_send_fd, atomic_fetch_add, store, load, pixels_memcpy,
    cursor_memcpy, modify_region, the_region, modify, when, notify, call,
    emit, bind, get, put, ret.

Lemma set_shmem_same s r : shmem s = Some r -> set_shmem (Some r) s = s.
Proof. intros H. unfold set_shmem. rewrite <- H. reflexivity. Qed.

Lemma set_pixels_same r : set_pixels (pixels r) r = r.
Proof. reflexivity. Qed.

(** Projections of updated structures are reduced at once, so that the
    states of a long run of stores stay small. *)
Tactic Notation "norm_state" :=
  cbn [set_shmem set_shmem_size set_shmem_fd set_client_fd set_fd_sent
       set_surface set_hdr set_ring set_pixels set_cursor_data set_field
       set_write_idx set_read_idx
       con_cursor surface shmem shmem_size shmem_fd socket_path client_fd fd_sent
       hdr cursor_data ring pixels write_idx read_idx events
       magic version width height stride format frame_counter
       dirty_x dirty_y dirty_w dirty_h cursor_version cursor_x cursor_y
       cursor_visible cursor_width cursor_height cursor_hot_x cursor_hot_y].
Tactic Notation "norm_state" "in" hyp(H) :=
  cbn [set_shmem set_shmem_size set_shmem_fd set_client_fd set_fd_sent
       set_surface set_hdr set_ring set_pixels set_cursor_data set_field
       set_write_idx set_read_idx
       con_cursor surface shmem shmem_size shmem_fd socket_path client_fd fd_sent
       hdr cursor_data ring pixels write_idx read_idx events
       magic version width height stride format frame_counter
       dirty_x dirty_y dirty_w dirty_h cursor_version cursor_x cursor_y
       cursor_visible cursor_width cursor_height cursor_hot_x cursor_hot_y] in H.

Section Primitives.
Variable host : Host Loc.

Lemma the_region_run s r t : shmem s = Some r -> the_region s t = Done (r, s, t).
Proof. intros Hr. unfold_display. rewrite Hr. reflexivity. Qed.

Lemma load_run f s r t :
  shmem s = Some r -> load f s t = Done (get_field f (hdr r), s, t).
Proof. intros Hr. unfold_display. rewrite Hr. reflexivity. Qed.

Lemma modify_region_run g s r t :
  shmem s = Some r ->
  modify_region g s t = Done (tt, set_shmem (Some (g r)) s, t).
Proof. intros Hr. unfold_display. rewrite Hr. reflexivity. Qed.

Lemma store_run f v s r t :
  shmem s = Some r ->
  store f v s t =
    Done (tt, set_shmem (Some (set_hdr (set_field f (conv (field_type f) v) (hdr r)) r)) s,
          t ++ [EvStore (Hdr f) (conv (field_type f) v)]).
Proof. intros Hr. unfold_display. rewrite Hr. reflexivity. Qed.

Lemma atomic_fetch_add_run f v o s r t :
  shmem s = Some r ->
  atomic_fetch_add f v o s t =
    Done (tt,
          set_shmem (Some (set_hdr (set_field f
                       (conv (field_type f) (get_field f (hdr r) + v)) (hdr r)) r)) s,
          t ++ [EvAtomicAdd (Hdr f) v o]).
Proof. intros Hr. unfold_display. rewrite Hr. cbn. rewrite Hr. reflexivity. Qed.

Lemma pixels_memcpy_run off src soff n d s r t :
  shmem s = Some r ->
  memcpy (pixels r) off src soff n = Some d ->
  pixels_memcpy off src soff n s t =
    Done (tt, set_shmem (Some (set_pixels d r)) s, t ++ [EvMemcpy (Pixels off) n]).
Proof. intros Hr Hm. unfold_display. rewrite Hr. cbn. rewrite Hm, Hr. reflexivity. Qed.

Lemma cursor_memcpy_run idx src sidx n d s r t :
  shmem s = Some r ->
  memcpy (cursor_data r) idx src sidx n = Some d ->
  cursor_memcpy idx src sidx n s t =
    Done (tt, set_shmem (Some (set_cursor_data d r)) s,
          t ++ [EvMemcpy (CursorData idx) (n * 4)]).
Proof. intros Hr Hm. unfold_display. rewrite Hr. cbn. rewrite Hm, Hr. reflexivity. Qed.

(** [juke_shmem_send_fd], case by case. *)
Lemma juke_shmem_send_fd_noop s t :
  client_fd s < 0 \/ shmem_fd s < 0 \/ fd_sent s = true ->
  juke_shmem_send_fd host s t = Done (tt, s, t).
Proof.
  intros H. unfold_display.
  destruct (_ || _) eqn:E; [reflexivity|].
  exfalso. apply orb_false_elim in E as [E E3].
  apply orb_false_elim in E as [E1 E2].
  destruct H as [H|[H|H]]; [blia|blia|congruence].
Qed.

Lemma juke_shmem_send_fd_ok s t :
  0 <= client_fd s -> 0 <= shmem_fd s -> fd_sent s = false ->
  0 <= host t (Sendmsg (client_fd s) (shmem_fd s)) ->
  juke_shmem_send_fd host s t =
    Done (tt, set_fd_sent true s,
          t ++ [EvCall (Sendmsg (client_fd s) (shmem_fd s))
                  (host t (Sendmsg (client_fd s) (shmem_fd s)))]).
Proof.
  intros H1 H2 H3 H4. unfold_display. rewrite H3.
  rewrite (proj2 (Z.ltb_ge (client_fd s) 0)) by lia.
  rewrite (proj2 (Z.ltb_ge (shmem_fd s) 0)) by lia. cbn [orb].
  rewrite (proj2 (Z.ltb_ge (host t _) 0)) by lia. reflexivity.
Qed.

Lemma juke_shmem_send_fd_fail s t :
  0 <= client_fd s -> 0 <= shmem_fd s -> fd_sent s = false ->
  host t (Sendmsg (client_fd s) (shmem_fd s)) < 0 ->
  juke_shmem_send_fd host s t =
    Done (tt, s,
          t ++ [EvCall (Sendmsg (client_fd s) (shmem_fd s))
                  (host t (Sendmsg (client_fd s) (shmem_fd s)));
                EvCall (ErrorReport "juke-shmem: failed to send fd") 0]).
Proof.
  intros H1 H2 H3 H4. unfold_display. rewrite H3.
  rewrite (proj2 (Z.ltb_ge (client_fd s) 0)) by lia.
  rewrite (proj2 (Z.ltb_ge (shmem_fd s) 0)) by lia. cbn [orb].
  rewrite (proj2 (Z.ltb_lt (host t _) 0)) by lia.
  rewrite <- app_assoc. reflexivity.
Qed.

Lemma send_fd_times_sent n s t :
  fd_sent s = true -> send_fd_times host n s t = Done (tt, s, t).
Proof.
  intros Hs. induction n as [|n IH]; [reflexivity|].
  cbn [send_fd_times].
  rewrite (bind_Done _ _ _ _ _ _ _ (juke_shmem_send_fd_noop s t (or_intror (or_intror Hs)))).
  exact IH.
Qed.
End Primitives.

(** ** [juke_shmem_gfx_update] *)

Lemma seqZ_S a (k : nat) : seqZ a (Z.of_nat (S k)) = a :: seqZ (a + 1) (Z.of_nat k).
Proof.
  rewrite seqZ_cons by lia. f_equal. f_equal; lia.
Qed.

(** The row loop: rows [a .. a + k) are copied, byte for byte. *)
Lemma copy_rows_run surf (k : nat) : forall a s r t,
  shmem s = Some r ->
  0 <= a -> 0 <= surface_stride surf ->
  (a + Z.of_nat k) * surface_stride surf <= INT_MAX ->
  (a + Z.of_nat k) * surface_stride surf <= Z.of_nat (length (pixels r)) ->
  (a + Z.of_nat k) * surface_stride surf <= Z.of_nat (length (surface_data surf)) ->
  exists d,
    for_each (seqZ a (Z.of_nat k))
      (fun row =>
         pixels_memcpy (int32 (row * surface_stride surf)) (surface_data surf)
           (int32 (row * surface_stride surf)) (wrap64 (surface_stride surf))) s t
    = Done (tt, set_shmem (Some (set_pixels d r)) s,
            t ++ row_copies (surface_stride surf) a (Z.of_nat k)) /\
    length d = length (pixels r) /\
    forall p : nat,
      d !! p =
        if (a * surface_stride surf <=? Z.of_nat p)
           && (Z.of_nat p <? (a + Z.of_nat k) * surface_stride surf)
        then surface_data surf !! p else pixels r !! p.
Proof.
  set (stride := surface_stride surf).
  induction k as [|k IH]; intros a s r t Hr Ha Hst Hint Hpx Hsrc.
  - exists (pixels r).
    replace (set_shmem (Some (set_pixels (pixels r) r)) s) with s
      by (symmetry; apply set_shmem_same; exact Hr).
    cbn. rewrite app_nil_r.
    split; [reflexivity|]. split; [reflexivity|].
    intros p. destruct (_ && _) eqn:E; [exfalso; blia|reflexivity].
  - unfold row_copies. rewrite seqZ_S. cbn [for_each map].
    assert (Hrow : 0 <= a * stride /\ a * stride + stride <= (a + Z.of_nat (S k)) * stride)
      by nia.
    assert (H31 : INT_MAX = 2147483647) by reflexivity.
    rewrite int32_small by (change (2 ^ 31) with 2147483648; lia).
    assert (Hw : wrap64 stride = stride)
      by (apply wrap64_small; change (2 ^ 64) with 18446744073709551616; lia).
    rewrite Hw in IH |- *.
    assert (exists d1, memcpy (pixels r) (a * stride) (surface_data surf)
                         (a * stride) stride = Some d1) as (d1 & Hm)
      by (eexists; apply memcpy_Some; lia).
    rewrite (bind_Done _ _ _ _ _ _ _ (pixels_memcpy_run _ _ _ _ _ s r t Hr Hm)).
    pose proof (memcpy_length _ _ _ _ _ _ Hm) as Hl1.
    destruct (IH (a + 1) (set_shmem (Some (set_pixels d1 r)) s) (set_pixels d1 r)
                (t ++ [EvMemcpy (Pixels (a * stride)) stride]) eq_refl)
      as (d & Hrun & Hlen & Hd); try (cbn [pixels set_pixels]; rewrite ?Hl1; lia).
    exists d. split.
    { rewrite Hrun. rewrite <- app_assoc. reflexivity. }
    split; [cbn [pixels set_pixels] in Hlen; lia|].
    intros p. rewrite Hd. cbn [pixels set_pixels].
    rewrite (memcpy_lookup _ _ _ _ _ _ p Hm).
    replace (a * stride + (Z.of_nat p - a * stride)) with (Z.of_nat p) by lia.
    rewrite Nat2Z.id.
    destruct ((a + 1) * stride <=? Z.of_nat p) eqn:E1;
      destruct (Z.of_nat p <? (a + 1 + Z.of_nat k) * stride) eqn:E2;
      destruct (a * stride <=? Z.of_nat p) eqn:E3;
      destruct (Z.of_nat p <? a * stride + stride) eqn:E4;
      destruct (Z.of_nat p <? (a + Z.of_nat (S k)) * stride) eqn:E5;
      cbn [andb]; try reflexivity; exfalso; bool_hyps; nia.
Qed.

(** The rows the loop of an update runs over, [row < y + h] being an [int]
    comparison: those of the rectangle, or none when [y + h] is no [int]
    (which, for rows that fit, takes a stride of 0). *)
Lemma seqZ_to_nat a n : seqZ a n = seqZ a (Z.of_nat (Z.to_nat n)).
Proof. unfold seqZ. rewrite Nat2Z.id. reflexivity. Qed.

Lemma int32_le z : 0 <= z -> int32 z <= z.
Proof.
  intros Hz. unfold int32.
  pose proof (Z.mod_le (z + 2 ^ 31) (2 ^ 32) ltac:(lia) ltac:(lia)). lia.
Qed.

Lemma update_rows surf r y h :
  update_fits surf r y h ->
  let k := Z.to_nat (int32 (y + h) - y) in
  seqZ y (int32 (y + h) - y) = seqZ y (Z.of_nat k) /\
  (y + Z.of_nat k) * surface_stride surf = (y + h) * surface_stride surf /\
  (y + h <= INT_MAX -> Z.of_nat k = h) /\
  (INT_MAX < y + h -> y <= INT_MAX -> h <= INT_MAX -> Z.of_nat k = 0).
Proof.
  intros (Hy & Hh & Hst & Hint & _) k.
  assert (H31 : INT_MAX = 2147483647) by reflexivity.
  pose proof (int32_le (y + h) ltac:(lia)) as Hle.
  assert (Hsmall : y + h <= INT_MAX -> Z.of_nat k = h).
  { intros Hs. subst k.
    rewrite int32_small by (change (2 ^ 31) with 2147483648; lia). lia. }
  split; [apply seqZ_to_nat|]. split; [|split; [exact Hsmall|]].
  - destruct (Z.eq_dec (surface_stride surf) 0) as [-> |Hne]; [lia|].
    rewrite Hsmall; [reflexivity|]. nia.
  - intros Hbig Hy' Hh'. subst k.
    assert (E : int32 (y + h) = y + h - 2 ^ 32).
    { unfold int32. change (2 ^ 31) with 2147483648. change (2 ^ 32) with 4294967296.
      assert (Em : (y + h + 2147483648) mod 4294967296 = y + h - 2147483648).
      { symmetry. apply (Z.mod_unique_pos _ _ 1); lia. }
      lia. }
    rewrite E. change (2 ^ 32) with 4294967296. lia.
Qed.

(** C4.  With a region and a surface present, [gfx_update x y w h] copies
    the full [stride] bytes of every surface row in [y .. y + h) to the same
    place of the shared pixel buffer (and touches no other pixel byte; the
    loop runs over these rows, or over none when [y + h] is no [int], which
    rows that fit allow for a stride of 0 only),
    sets [dirty_x], [dirty_y], [dirty_w], [dirty_h] to [x], [y], [w], [h]
    and then adds 1 to [frame_counter] with release ordering: that
    fetch-and-add is the last event of the call and its only atomic one. *)
Theorem gfx_update_publishes s r surf x y w h t :
  shmem s = Some r -> surface s = Some surf ->
  update_fits surf r y h ->
  0 <= x <= INT_MAX -> y <= INT_MAX -> 0 <= w <= INT_MAX -> h <= INT_MAX ->
  let stride := surface_stride surf in
  let rows := if y + h <=? INT_MAX then h else 0 in
  exists r',
    juke_shmem_gfx_update x y w h s t =
      Done (tt, set_shmem (Some r') s,
            t ++ row_copies stride y rows
              ++ [EvStore (Hdr F_dirty_x) x; EvStore (Hdr F_dirty_y) y;
                  EvStore (Hdr F_dirty_w) w; EvStore (Hdr F_dirty_h) h;
                  EvAtomicAdd (Hdr F_frame_counter) 1 Release]) /\
    forallb (fun e => negb (is_atomic e)) (row_copies stride y rows) = true /\
    (forall row b, y <= row < y + h -> 0 <= b < stride ->
       pixels r' !! Z.to_nat (row * stride + b)
       = surface_data surf !! Z.to_nat (row * stride + b)) /\
    (forall p : nat,
       Z.of_nat p < y * stride \/ (y + h) * stride <= Z.of_nat p ->
       pixels r' !! p = pixels r !! p) /\
    hdr r' = set_field F_frame_counter (wrap64 (frame_counter (hdr r) + 1))
               (set_field F_dirty_h h (set_field F_dirty_w w
                  (set_field F_dirty_y y (set_field F_dirty_x x (hdr r))))) /\
    cursor_data r' = cursor_data r /\ ring r' = ring r.
Proof.
  intros Hr Hsurf Hfits Hx Hy' Hw Hh' stride rows.
  destruct (update_rows surf r y h Hfits) as (Hseq & Hend & Hsmall & Hbig).
  destruct Hfits as (Hy & Hh & Hst & Hint & Hpx & Hsrc).
  set (k := Z.to_nat (int32 (y + h) - y)) in *.
  assert (Hrows : Z.of_nat k = rows).
  { subst rows. destruct (y + h <=? INT_MAX) eqn:E; [apply Hsmall|apply Hbig]; blia. }
  unfold juke_shmem_gfx_update.
  rewrite (bind_Done get _ s t s s t) by reflexivity.
  rewrite Hr, Hsurf, Hseq, Hrows.
  destruct (copy_rows_run surf k y s r t Hr Hy Hst)
    as (d & Hrun & Hlen & Hd); try (rewrite Hend; assumption).
  rewrite Hend in Hd. rewrite Hrows in Hrun.
  fold stride in Hrun, Hd |- *.
  rewrite (bind_Done _ _ _ _ _ _ _ Hrun).
  do 4 (erewrite (bind_Done (store _ _)); [|eapply store_run; reflexivity]).
  erewrite atomic_fetch_add_run by reflexivity.
  assert (H31 : INT_MAX = 2147483647) by reflexivity.
  cbn [field_type conv hdr set_hdr set_pixels get_field set_field frame_counter].
  rewrite !wrap32_small by (change (2 ^ 32) with 4294967296; lia).
  eexists. split.
  { rewrite <- !app_assoc. reflexivity. }
  split.
  { unfold row_copies. rewrite forallb_forall. intros e He.
    apply in_map_iff in He as (row & <- & _). reflexivity. }
  split.
  { intros row b Hrow Hb. cbn [pixels]. rewrite Hd.
    rewrite Z2Nat.id by nia.
    destruct (_ && _) eqn:E; [reflexivity|]. exfalso.
    apply andb_false_iff in E as [E|E]; bool_hyps; nia. }
  split.
  { intros p Hp. cbn [pixels]. rewrite Hd.
    destruct (_ && _) eqn:E; [|reflexivity]. exfalso. blia. }
  split; [reflexivity|]. split; reflexivity.
Qed.

Lemma gfx_update_publishes_witness :
  exists r',
    juke_shmem_gfx_update 0 0 1 1 (pixel_state 5 0 0 0) [] =
      Done (tt, set_shmem (Some r') (pixel_state 5 0 0 0),
            [] ++ row_copies 4 0 1
               ++ [EvStore (Hdr F_dirty_x) 0; EvStore (Hdr F_dirty_y) 0;
                   EvStore (Hdr F_dirty_w) 1; EvStore (Hdr F_dirty_h) 1;
                   EvAtomicAdd (Hdr F_frame_counter) 1 Release]) /\
    frame_counter (hdr r') = 6 /\
    dirty_w (hdr r') = 1 /\ dirty_h (hdr r') = 1.
Proof.
  destruct (gfx_update_publishes (pixel_state 5 0 0 0) (pixel_region 5 0 0 0)
              pixel_surface 0 0 1 1 [] eq_refl eq_refl)
    as (r' & Hrun & _ & _ & _ & Hhdr & _).
  - unfold update_fits, INT_MAX. cbn. lia.
  - unfold INT_MAX. lia.
  - unfold INT_MAX. lia.
  - unfold INT_MAX. lia.
  - unfold INT_MAX. lia.
  - exists r'. split; [exact Hrun|]. rewrite Hhdr. cbn. auto.
Defined.

(** ** [juke_shmem_cursor_define] *)

(** The row loop: rows [a .. a + k) of the cursor, [w] pixels each. *)
Lemma copy_cursor_run c w (k : nat) : forall a s r t,
  shmem s = Some r ->
  0 <= a -> 0 <= w <= 64 -> w <= cur_width c -> cur_width c < 2 ^ 16 ->
  a + Z.of_nat k <= 64 ->
  4096 <= Z.of_nat (length (cursor_data r)) ->
  (a + Z.of_nat k) * cur_width c <= Z.of_nat (length (cur_data c)) ->
  exists d,
    for_each (seqZ a (Z.of_nat k))
      (fun y =>
         cursor_memcpy (wrap32 (y * JUKE_CURSOR_MAX_SIZE)) (cur_data c)
           (wrap32 (y * cur_width c)) w) s t
    = Done (tt, set_shmem (Some (set_cursor_data d r)) s,
            t ++ cursor_copies w a (Z.of_nat k)) /\
    length d = length (cursor_data r) /\
    forall p : nat,
      d !! p =
        if (a <=? Z.of_nat p / 64) && (Z.of_nat p / 64 <? a + Z.of_nat k)
           && (Z.of_nat p mod 64 <? w)
        then cur_data c !! Z.to_nat (Z.of_nat p / 64 * cur_width c + Z.of_nat p mod 64)
        else cursor_data r !! p.
Proof.
  induction k as [|k IH]; intros a s r t Hr Ha Hw Hwc Hc16 Hk Hlen Hsrc.
  - exists (cursor_data r).
    replace (set_shmem (Some (set_cursor_data (cursor_data r) r)) s) with s
      by (symmetry; apply set_shmem_same; exact Hr).
    cbn. rewrite app_nil_r.
    split; [reflexivity|]. split; [reflexivity|].
    intros p. destruct (_ && _) eqn:E; [exfalso; blia|reflexivity].
  - unfold cursor_copies. rewrite seqZ_S. cbn [for_each map].
    unfold JUKE_CURSOR_MAX_SIZE in *.
    assert (H16 : 2 ^ 16 = 65536) by reflexivity.
    assert (Hrow : 0 <= a * cur_width c /\
                   a * cur_width c + w <= (a + Z.of_nat (S k)) * cur_width c) by nia.
    assert (Hsmall : a * cur_width c < 64 * 65536) by nia.
    rewrite !wrap32_small by (change (2 ^ 32) with 4294967296; lia).
    assert (exists d1, memcpy (cursor_data r) (a * 64) (cur_data c)
                         (a * cur_width c) w = Some d1) as (d1 & Hm)
      by (eexists; apply memcpy_Some; lia).
    rewrite (bind_Done _ _ _ _ _ _ _ (cursor_memcpy_run _ _ _ _ _ s r t Hr Hm)).
    pose proof (memcpy_length _ _ _ _ _ _ Hm) as Hl1.
    destruct (IH (a + 1) (set_shmem (Some (set_cursor_data d1 r)) s)
                (set_cursor_data d1 r)
                (t ++ [EvMemcpy (CursorData (a * 64)) (w * 4)]) eq_refl)
      as (d & Hrun & Hlen' & Hd);
      try (cbn [cursor_data set_cursor_data]; rewrite ?Hl1; lia).
    exists d. split.
    { rewrite Hrun. rewrite <- app_assoc. reflexivity. }
    split; [cbn [cursor_data set_cursor_data] in Hlen'; lia|].
    intros p. rewrite Hd. cbn [cursor_data set_cursor_data].
    rewrite (memcpy_lookup _ _ _ _ _ _ p Hm).
    pose proof (Z.div_mod (Z.of_nat p) 64 ltac:(lia)) as Hdm.
    pose proof (Z.mod_pos_bound (Z.of_nat p) 64 ltac:(lia)) as Hmb.
    set (q := Z.of_nat p / 64) in *. set (m := Z.of_nat p mod 64) in *.
    destruct (a + 1 <=? q) eqn:E1; destruct (q <? a + 1 + Z.of_nat k) eqn:E2;
      destruct (m <? w) eqn:E3; destruct (a <=? q) eqn:E4;
      destruct (q <? a + Z.of_nat (S k)) eqn:E5;
      destruct (a * 64 <=? Z.of_nat p) eqn:E6;
      destruct (Z.of_nat p <? a * 64 + w) eqn:E7;
      cbn [andb]; try reflexivity; try (exfalso; bool_hyps; lia).
    bool_hyps. assert (Hq : q = a) by lia. rewrite Hq. f_equal. lia.
Qed.

(** Without a console cursor the dimensions are cleared. *)
Lemma cursor_define_updates_run_none s r t :
  shmem s = Some r -> con_cursor s = None ->
  juke_shmem_cursor_define s t =
    Done (tt,
          set_shmem (Some (set_hdr
            (set_field F_cursor_version (wrap32 (cursor_version (hdr r) + 1))
               (set_field F_cursor_height 0
                  (set_field F_cursor_width 0 (hdr r)))) r)) s,
          t ++ [EvStore (Hdr F_cursor_width) 0; EvStore (Hdr F_cursor_height) 0;
                EvAtomicAdd (Hdr F_cursor_version) 1 Release]).
Proof.
  intros Hr Hc. unfold juke_shmem_cursor_define.
  rewrite (bind_Done get _ s t s s t) by reflexivity. rewrite Hr, Hc.
  do 2 (erewrite (bind_Done (store _ _));
        [|eapply store_run; first [eassumption|reflexivity]]).
  erewrite atomic_fetch_add_run by first [eassumption|reflexivity].
  rewrite <- !app_assoc. reflexivity.
Qed.

(** C8.  With a region present, [cursor_define] reads the cursor of the
    console.  If there is one, its width and height are clamped to 64, the
    clamped dimensions and the hotspot are stored, the clamped window is
    copied row by row into the 64-pixel-wide slot (every pixel outside the
    window keeps its value) and [cursor_version] is then incremented once,
    by a release fetch-and-add that ends the call.  If there is none,
    [cursor_width] and [cursor_height] are set to 0 and [cursor_version] is
    incremented once in the same way. *)
Theorem cursor_define_updates s r t :
  shmem s = Some r ->
  4096 <= Z.of_nat (length (cursor_data r)) ->
  (con_cursor s = None ->
   juke_shmem_cursor_define s t =
     Done (tt,
           set_shmem (Some (set_hdr
             (set_field F_cursor_version (wrap32 (cursor_version (hdr r) + 1))
                (set_field F_cursor_height 0
                   (set_field F_cursor_width 0 (hdr r)))) r)) s,
           t ++ [EvStore (Hdr F_cursor_width) 0; EvStore (Hdr F_cursor_height) 0;
                 EvAtomicAdd (Hdr F_cursor_version) 1 Release])) /\
  (forall c, con_cursor s = Some c -> cursor_ok c ->
   let w := Z.min (cur_width c) 64 in
   let h := Z.min (cur_height c) 64 in
   exists r',
     juke_shmem_cursor_define s t =
       Done (tt, set_shmem (Some r') s,
             t ++ [EvStore (Hdr F_cursor_width) w; EvStore (Hdr F_cursor_height) h;
                   EvStore (Hdr F_cursor_hot_x) (hot_x c);
                   EvStore (Hdr F_cursor_hot_y) (hot_y c)]
               ++ cursor_copies w 0 h
               ++ [EvAtomicAdd (Hdr F_cursor_version) 1 Release]) /\
     forallb (fun e => negb (is_atomic e)) (cursor_copies w 0 h) = true /\
     hdr r' = set_field F_cursor_version (wrap32 (cursor_version (hdr r) + 1))
                (set_field F_cursor_hot_y (hot_y c)
                   (set_field F_cursor_hot_x (hot_x c)
                      (set_field F_cursor_height h
                         (set_field F_cursor_width w (hdr r))))) /\
     (forall row col, 0 <= row < h -> 0 <= col < w ->
        cursor_data r' !! Z.to_nat (row * 64 + col)
        = cur_data c !! Z.to_nat (row * cur_width c + col)) /\
     (forall p : nat,
        h <= Z.of_nat p / 64 \/ w <= Z.of_nat p mod 64 ->
        cursor_data r' !! p = cursor_data r !! p) /\
     pixels r' = pixels r /\ ring r' = ring r).
Proof.
  intros Hr Hlen. split.
  - intros Hc. apply cursor_define_updates_run_none; assumption.
  - intros c Hc (Hcw & Hch & Hhx & Hhy & Hdata) w h.
    unfold juke_shmem_cursor_define.
    rewrite (bind_Done get _ s t s s t) by reflexivity. rewrite Hr, Hc.
    unfold JUKE_CURSOR_MAX_SIZE. fold w. fold h.
    assert (H16 : 2 ^ 16 = 65536) by reflexivity.
    assert (Hw : 0 <= w <= 64 /\ w <= cur_width c) by (subst w; lia).
    assert (Hh : 0 <= h <= 64 /\ h <= cur_height c) by (subst h; lia).
    rewrite (wrap32_small w), (wrap32_small h)
      by (change (2 ^ 32) with 4294967296; lia).
    do 4 (erewrite (bind_Done (store _ _)); [|eapply store_run; first [eassumption|reflexivity]]).
    cbn [field_type conv hdr set_hdr].
    rewrite (wrap32_small w), (wrap32_small h)
      by (change (2 ^ 32) with 4294967296; lia).
    rewrite !int32_small by assumption.
    match goal with
    | |- context [bind (for_each _ _) _ ?s0 ?t0] =>
        destruct (copy_cursor_run c w (Z.to_nat h) 0 s0 _ t0 eq_refl)
          as (d & Hrun & Hlen' & Hd);
          [lia | lia | lia | lia | lia | exact Hlen | nia |]
    end.
    rewrite Z2Nat.id in Hrun, Hd by lia.
    change (fun y : Z => cursor_memcpy (wrap32 (y * 64)) (cur_data c)
                           (wrap32 (y * cur_width c)) w)
      with (fun y : Z => cursor_memcpy (wrap32 (y * JUKE_CURSOR_MAX_SIZE)) (cur_data c)
                           (wrap32 (y * cur_width c)) w).
    rewrite (bind_Done _ _ _ _ _ _ _ Hrun).
    erewrite atomic_fetch_add_run by first [eassumption|reflexivity].
    eexists. split.
    { rewrite <- !app_assoc. reflexivity. }
    split.
    { unfold cursor_copies. rewrite forallb_forall. intros e He.
      apply in_map_iff in He as (row & <- & _). reflexivity. }
    split; [reflexivity|].
    split.
    { intros row col Hrow Hcol. cbn [cursor_data set_cursor_data set_hdr].
      rewrite Hd. rewrite Z2Nat.id by lia.
      assert (Hq : (row * 64 + col) / 64 = row).
      { symmetry. apply (Z.div_unique_pos _ 64 row col); lia. }
      assert (Hm : (row * 64 + col) mod 64 = col).
      { symmetry. apply (Z.mod_unique_pos _ 64 row col); lia. }
      rewrite Hq, Hm.
      destruct (_ && _) eqn:E; [reflexivity|]. exfalso. blia. }
    split.
    { intros p Hp. cbn [cursor_data set_cursor_data set_hdr]. rewrite Hd.
      destruct (_ && _) eqn:E; [|reflexivity]. exfalso. blia. }
    split; reflexivity.
Qed.

Lemma cursor_define_updates_witness :
  exists r',
    juke_shmem_cursor_define
      (set_con_cursor (Some small_cursor) (pixel_state 0 3 0 0)) [] =
      Done (tt, set_shmem (Some r')
                  (set_con_cursor (Some small_cursor) (pixel_state 0 3 0 0)),
            [] ++ [EvStore (Hdr F_cursor_width) 2; EvStore (Hdr F_cursor_height) 2;
                   EvStore (Hdr F_cursor_hot_x) 1; EvStore (Hdr F_cursor_hot_y) 1]
               ++ cursor_copies 2 0 2
               ++ [EvAtomicAdd (Hdr F_cursor_version) 1 Release]) /\
    cursor_version (hdr r') = 4 /\
    cursor_width (hdr r') = 2 /\ cursor_height (hdr r') = 2.
Proof.
  destruct (cursor_define_updates
              (set_con_cursor (Some small_cursor) (pixel_state 0 3 0 0))
              (pixel_region 0 3 0 0) [] eq_refl) as (_ & Hsome).
  - cbn [cursor_data pixel_region]. rewrite length_replicate.
    unfold JUKE_CURSOR_MAX_PIXELS, JUKE_CURSOR_MAX_SIZE. lia.
  - destruct (Hsome small_cursor eq_refl) as (r' & Hrun & _ & Hhdr & _).
    + unfold cursor_ok. cbn. lia.
    + exists r'. split; [exact Hrun|]. rewrite Hhdr. cbn. auto.
Defined.

(** ** [juke_shmem_process_input] *)

Lemma dispatch_run ev s r t :
  shmem s = Some r ->
  dispatch ev s t = Done (tt, s, t ++ dispatch_calls (hdr r) ev).
Proof.
  intros Hr. unfold dispatch, dispatch_calls.
  destruct (type_ ev =? JUKE_INPUT_MOUSE_REL).
  { unfold_display. rewrite <- app_assoc. reflexivity. }
  destruct (type_ ev =? JUKE_INPUT_MOUSE_ABS).
  { unfold_display. rewrite Hr. cbn. rewrite Hr, <- app_assoc. reflexivity. }
  destruct (type_ ev =? JUKE_INPUT_MOUSE_BTN); [reflexivity|].
  destruct (type_ ev =? JUKE_INPUT_KEY); [reflexivity|].
  unfold ret. rewrite app_nil_r. reflexivity.
Qed.

Lemma events_from_S g first k :
  events_from g first (S k) = event_at g first :: events_from g (first + 1) k.
Proof.
  unfold events_from. cbn [seq map]. rewrite Z.add_0_r. f_equal.
  rewrite <- seq_shift, map_map. apply map_ext. intros i. f_equal. lia.
Qed.

Lemma event_at_wrap32 g a : event_at g (wrap32 a) = event_at g a.
Proof.
  unfold event_at, wrap32, JUKE_INPUT_RING_SIZE. f_equal. f_equal.
  apply Z.mod_mod_divide. exists (2 ^ 24). reflexivity.
Qed.

Lemma events_from_wrap32 g a k : events_from g (wrap32 a) k = events_from g a k.
Proof.
  unfold events_from. apply map_ext. intros i.
  rewrite <- (event_at_wrap32 g (wrap32 a + Z.of_nat i)).
  rewrite <- (event_at_wrap32 g (a + Z.of_nat i)). f_equal.
  apply wrap32_add_l.
Qed.

Lemma event_at_lookup g idx :
  length (events g) = Z.to_nat JUKE_INPUT_RING_SIZE ->
  zidx (events g) (idx mod JUKE_INPUT_RING_SIZE) = Some (event_at g idx).
Proof.
  intros Hlen. unfold event_at, zidx.
  pose proof (Z.mod_pos_bound idx JUKE_INPUT_RING_SIZE ltac:(reflexivity)) as Hb.
  rewrite (Zle_imp_le_bool 0 _) by lia.
  destruct (events g !! _) as [ev|] eqn:E; [reflexivity|].
  apply lookup_ge_None in E. lia.
Qed.

(** The loop: with enough fuel it stops at [write_idx] after dispatching
    the pending events in order. *)
Lemma drain_run (k : nat) : forall fuel r0 w s r t,
  shmem s = Some r ->
  length (events (ring r)) = Z.to_nat JUKE_INPUT_RING_SIZE ->
  0 <= r0 < 2 ^ 32 -> 0 <= w < 2 ^ 32 ->
  wrap32 (w - r0) = Z.of_nat k -> (k <= fuel)%nat ->
  drain fuel r0 w s t =
    Done (w, s, t ++ concat (map (dispatch_calls (hdr r)) (events_from (ring r) r0 k))).
Proof.
  induction k as [|k IH]; intros fuel r0 w s r t Hr Hlen Hr0 Hw Hk Hfuel.
  - assert (r0 = w).
    { unfold wrap32 in Hk. change (Z.of_nat 0) with 0 in Hk.
      apply Z.mod_divide in Hk; [|lia]. destruct Hk as (q & Hq).
      change (2 ^ 32) with 4294967296 in *. lia. }
    subst r0. cbn. rewrite app_nil_r.
    destruct fuel; cbn [drain]; rewrite Z.eqb_refl; reflexivity.
  - destruct fuel as [|fuel]; [lia|]. cbn [drain].
    destruct (r0 =? w) eqn:E.
    { apply Z.eqb_eq in E. subst r0. rewrite Z.sub_diag in Hk. discriminate. }
    rewrite (bind_Done _ _ _ _ _ _ _ (the_region_run s r t Hr)).
    rewrite (event_at_lookup _ _ Hlen).
    rewrite (bind_Done _ _ _ _ _ _ _ (dispatch_run _ s r t Hr)).
    rewrite (IH fuel (wrap32 (r0 + 1)) w s r _ Hr Hlen (wrap32_range _) Hw); [| |lia].
    + rewrite events_from_S. cbn [map concat]. rewrite <- app_assoc.
      rewrite events_from_wrap32. reflexivity.
    + rewrite wrap32_sub_r. replace (w - (r0 + 1)) with ((w - r0) - 1) by lia.
      rewrite <- wrap32_sub_l, Hk.
      pose proof (wrap32_range (w - r0)) as Hb. rewrite Hk in Hb.
      rewrite wrap32_small by lia. lia.
Qed.

Lemma pending_count_0 g :
  0 <= write_idx g < 2 ^ 32 -> 0 <= read_idx g < 2 ^ 32 ->
  (pending_count g =? 0) = (write_idx g =? read_idx g).
Proof.
  intros Hw Hr. unfold pending_count, wrap32.
  destruct (write_idx g =? read_idx g) eqn:E.
  - apply Z.eqb_eq in E. rewrite E, Z.sub_diag. reflexivity.
  - apply Z.eqb_neq in E. apply Z.eqb_neq. intros H0.
    apply Z.mod_divide in H0; [|lia]. destruct H0 as (q & Hq).
    change (2 ^ 32) with 4294967296 in *. lia.
Qed.

(** C5.  A drain starts from [r = read_idx] and the acquire-loaded
    [w = write_idx].  Given fuel for them, it decodes exactly
    [(w - r) mod 2^32] events, [events[r mod 256]], [events[(r+1) mod 256]]
    and so on, and dispatches them in that order.  If there was at least one,
    it then calls the sync of the input sink and after it stores [w] into
    [read_idx] with release ordering; if the ring was empty it writes
    nothing. *)
Theorem process_input_drains s r t fuel :
  shmem s = Some r -> input_ring_ok (ring r) ->
  (Z.to_nat (pending_count (ring r)) <= fuel)%nat ->
  let g := ring r in
  juke_shmem_process_input fuel s t =
    Done (tt,
          (if pending_count g =? 0 then s
           else set_shmem (Some (set_ring (set_read_idx (write_idx g) g) r)) s),
          t ++ [EvAtomicLoad RingWriteIdx Acquire (write_idx g)]
            ++ concat (map (dispatch_calls (hdr r)) (pending g))
            ++ (if pending_count g =? 0 then []
                else [EvCall InputEventSync 0;
                      EvAtomicStore RingReadIdx (write_idx g) Release])) /\
  length (pending g) = Z.to_nat (pending_count g) /\
  forall i : nat,
    (i < length (pending g))%nat ->
    pending g !! i = zidx (events g) ((read_idx g + Z.of_nat i) mod 256).
Proof.
  intros Hr (Hw & Hrd & Hlen) Hfuel g. split; [|split].
  - unfold juke_shmem_process_input.
    rewrite (bind_Done _ _ _ _ _ _ _ (the_region_run s r t Hr)).
    unfold bind at 1. unfold emit at 1. fold g.
    pose proof (wrap32_range (write_idx g - read_idx g)) as Hn.
    rewrite (bind_Done _ _ _ _ _ _ _
               (drain_run (Z.to_nat (pending_count g)) fuel (read_idx g) (write_idx g)
                  s r _ Hr Hlen Hrd Hw
                  ltac:(unfold pending_count; rewrite Z2Nat.id; [reflexivity|lia])
                  Hfuel)).
    rewrite (bind_Done _ _ _ _ _ _ _ (the_region_run s r _ Hr)).
    fold g. rewrite (pending_count_0 g Hw Hrd).
    destruct (write_idx g =? read_idx g) eqn:E; cbn [negb].
    + unfold ret. rewrite app_nil_r, <- app_assoc. reflexivity.
    + unfold bind at 1. unfold notify at 1, emit at 1.
      rewrite (bind_Done _ _ _ _ _ _ _ (modify_region_run _ s r _ Hr)).
      unfold emit. rewrite (wrap32_small (write_idx g)) by exact Hw.
      rewrite <- !app_assoc. reflexivity.
  - unfold pending, events_from. rewrite length_map, length_seq. reflexivity.
  - intros i Hi. unfold pending, events_from in *.
    rewrite length_map, length_seq in Hi.
    rewrite list_lookup_fmap, lookup_seq_lt by exact Hi. cbn.
    symmetry. apply event_at_lookup. exact Hlen.
Qed.

Lemma pixel_ring_ok w rd :
  0 <= w < 2 ^ 32 -> 0 <= rd < 2 ^ 32 -> input_ring_ok (ring (pixel_region 0 0 w rd)).
Proof.
  intros Hw Hrd. unfold input_ring_ok. cbn [ring pixel_region write_idx read_idx events].
  rewrite length_replicate. auto.
Qed.

Lemma process_input_drains_witness :
  juke_shmem_process_input 3 (pixel_state 0 0 3 0) [] =
    Done (tt,
          set_shmem (Some (set_ring (set_read_idx 3 (ring (pixel_region 0 0 3 0)))
                             (pixel_region 0 0 3 0)))
            (pixel_state 0 0 3 0),
          [] ++ [EvAtomicLoad RingWriteIdx Acquire 3]
             ++ concat (map (dispatch_calls (hdr (pixel_region 0 0 3 0)))
                          (pending (ring (pixel_region 0 0 3 0))))
             ++ [EvCall InputEventSync 0; EvAtomicStore RingReadIdx 3 Release]) /\
  length (pending (ring (pixel_region 0 0 3 0))) = 3%nat.
Proof.
  destruct (process_input_drains (pixel_state 0 0 3 0) (pixel_region 0 0 3 0) [] 3
              eq_refl) as (Hrun & Hlen & _).
  - apply pixel_ring_ok; lia.
  - vm_compute. lia.
  - split; [exact Hrun|exact Hlen].
Defined.

(** ** [juke_shmem_gfx_switch] *)

Lemma pixel_surface_ok : surface_ok pixel_surface.
Proof. unfold surface_ok, INT_MAX. cbn. lia. Qed.

Lemma pixel_state_ok fc cv w rd : display_ok (pixel_state fc cv w rd).
Proof. unfold display_ok. cbn. split; reflexivity. Qed.


(** Once a region that can hold the surface is in place, the switch writes
    the header, empties the ring, copies the surface and offers the
    descriptor to the peer. *)
Lemma gfx_switch_fill_run (host : Host Loc) surf s r t :
  shmem s = Some r -> surface_ok surf ->
  surface_stride surf * surface_height surf <= Z.of_nat (length (pixels r)) ->
  exists d,
    memcpy (pixels r) 0 (surface_data surf) 0
      (surface_stride surf * surface_height surf) = Some d /\
    gfx_switch_fill host surf (surface_width surf) (surface_height surf)
      (surface_stride surf) (surface_stride surf * surface_height surf) s t
    = when ((0 <=? client_fd s) && negb (fd_sent s)) (juke_shmem_send_fd host)
        (set_shmem (Some (switched_region surf r d)) s)
        (t ++ switch_events surf).
Proof.
  intros Hr (Hw & Hh & Hst & Hn & Hdata & Hfmt) Hfit.
  assert (Hn0 : 0 <= surface_stride surf * surface_height surf) by nia.
  assert (exists d, memcpy (pixels r) 0 (surface_data surf) 0
            (surface_stride surf * surface_height surf) = Some d) as (d & Hm)
    by (eexists; apply memcpy_Some; lia).
  exists d. split; [exact Hm|].
  unfold gfx_switch_fill.
  do 19 (erewrite (bind_Done (store _ _));
         [|eapply store_run; first [eassumption|reflexivity]];
         norm_state).
  do 2 (erewrite (bind_Done (modify_region _));
          [|eapply modify_region_run; reflexivity];
        unfold bind at 1; unfold emit at 1; norm_state).
  erewrite (bind_Done (pixels_memcpy _ _ _ _));
    [|eapply pixels_memcpy_run; [reflexivity|exact Hm]].
  norm_state.
  rewrite (bind_Done get _ _ _ _ _ _ eq_refl).
  assert (H31 : INT_MAX = 2147483647) by reflexivity.
  cbn [field_type conv].
  rewrite !(wrap32_small (surface_width surf)),
          !(wrap32_small (surface_height surf)),
          !(wrap32_small (surface_stride surf)),
          !(wrap32_small (surface_format surf))
    by (change (2 ^ 32) with 4294967296; lia).
  rewrite <- !app_assoc. reflexivity.
Qed.

(** The offer of the descriptor that ends a switch. *)
Lemma send_tail_run (host : Host Loc) s t :
  exists b tr,
    when ((0 <=? client_fd s) && negb (fd_sent s)) (juke_shmem_send_fd host) s t
      = Done (tt, set_fd_sent b s, t ++ tr) /\
    (fd_sent s = true -> b = true /\ tr = []) /\
    (fd_sent s = false -> b = true ->
     exists a, tr = [EvCall (Sendmsg (client_fd s) (shmem_fd s)) a]) /\
    forallb is_call tr = true /\
    forallb (fun e => negb (is_alloc_or_free e)) tr = true /\
    forallb (fun e => negb (is_input_call e)) tr = true.
Proof.
  assert (Hsame : set_fd_sent (fd_sent s) s = s) by reflexivity.
  destruct (fd_sent s) eqn:Hsent.
  - exists true, []. rewrite andb_false_r, app_nil_r, Hsame. cbn [when]. unfold ret.
    split; [reflexivity|]. split; [auto|].
    split; [intros; congruence|]. split; [reflexivity|]. split; reflexivity.
  - rewrite andb_true_r.
    destruct (0 <=? client_fd s) eqn:Hc; cbn [when].
    + destruct (Z_lt_dec (shmem_fd s) 0) as [Hfd|Hfd].
      * exists false, []. rewrite app_nil_r, Hsame.
        rewrite juke_shmem_send_fd_noop by auto.
        split; [reflexivity|]. split; [intros; congruence|].
        split; [intros; congruence|]. split; [reflexivity|]. split; reflexivity.
      * destruct (Z_lt_dec (host t (Sendmsg (client_fd s) (shmem_fd s))) 0) as [Ha|Ha].
        -- eexists false, _. rewrite Hsame.
           rewrite juke_shmem_send_fd_fail by (try assumption; blia).
           split; [reflexivity|]. split; [intros; congruence|].
           split; [intros; congruence|]. split; [reflexivity|]. split; reflexivity.
        -- eexists true, _.
           rewrite juke_shmem_send_fd_ok by (try assumption; blia).
           split; [reflexivity|]. split; [intros; congruence|].
           split; [intros; eexists; reflexivity|]. split; [reflexivity|]. split; reflexivity.
    + exists false, []. rewrite app_nil_r, Hsame. unfold ret.
      split; [reflexivity|]. split; [intros; congruence|].
      split; [intros; congruence|]. split; [reflexivity|]. split; reflexivity.
Qed.


Lemma needed_size_model surf :
  surface_ok surf ->
  wrap64 (int32 (surface_stride surf * surface_height surf))
    = surface_stride surf * surface_height surf /\
  wrap64 (sizeof_JukeShmemHeader + JUKE_CURSOR_DATA_SIZE + sizeof_JukeInputRing
          + surface_stride surf * surface_height surf) = needed_size surf /\
  needed_size surf = region_overhead + surface_stride surf * surface_height surf /\
  0 <= surface_stride surf * surface_height surf.
Proof.
  intros (Hw & Hh & Hst & Hn & Hdata & Hfmt).
  assert (Hn0 : 0 <= surface_stride surf * surface_height surf) by nia.
  assert (H31 : INT_MAX = 2147483647) by reflexivity.
  rewrite int32_small by (change (2 ^ 31) with 2147483648; lia).
  rewrite wrap64_small by (change (2 ^ 64) with 18446744073709551616; lia).
  unfold needed_size, region_overhead.
  change sizeof_JukeShmemHeader with 80. change JUKE_CURSOR_DATA_SIZE with 16384.
  change sizeof_JukeInputRing with 3088.
  rewrite wrap64_small by (change (2 ^ 64) with 18446744073709551616; lia).
  auto.
Qed.

(** A switch that finds room in the region that is mapped. *)
Lemma gfx_switch_kept_run (host : Host Loc) s r surf t :
  shmem s = Some r -> surface_ok surf -> display_ok s ->
  needed_size surf <= shmem_size s ->
  exists d b tr,
    memcpy (pixels r) 0 (surface_data surf) 0
      (surface_stride surf * surface_height surf) = Some d /\
    juke_shmem_gfx_switch host (Some surf) s t =
      Done (tt,
            set_fd_sent b (set_shmem (Some (switched_region surf r d))
                             (set_surface (Some surf) s)),
            t ++ switch_events surf ++ tr) /\
    (fd_sent s = true -> b = true /\ tr = []) /\
    forallb is_call tr = true /\
    forallb (fun e => negb (is_alloc_or_free e)) tr = true /\
    forallb (fun e => negb (is_input_call e)) tr = true.
Proof.
  intros Hr Hsurf Hok Hfits.
  destruct (needed_size_model surf Hsurf) as (E1 & E2 & E3 & Hn0).
  unfold juke_shmem_gfx_switch.
  rewrite (bind_Done (modify _) _ s t tt (set_surface (Some surf) s) t eq_refl).
  rewrite (bind_Done get _ _ _ _ _ _ eq_refl).
  rewrite E1, E2. cbn [shmem_size set_surface].
  rewrite Z.gtb_ltb, (proj2 (Z.ltb_ge _ _) Hfits).
  unfold display_ok in Hok. rewrite Hr in Hok. destruct Hok as (Hcap & _).
  destruct (gfx_switch_fill_run host surf (set_surface (Some surf) s) r t
              Hr Hsurf ltac:(lia)) as (d & Hm & Hfill).
  rewrite Hfill. clear Hfill.
  match goal with
  | |- context [when _ _ ?s2 ?t2] =>
      destruct (send_tail_run host s2 t2)
        as (b & tr & Hrun2 & Hb1 & _ & Hcalls & Hnoalloc & Hnoinput)
  end.
  cbn [client_fd fd_sent set_shmem set_surface] in Hrun2, Hb1 |- *.
  rewrite Hrun2. exists d, b, tr. rewrite <- !app_assoc. auto 10.
Qed.

(** After a failed allocation [shmem] is NULL while [shmem_size] already
    holds the size that was asked for: a later switch that fits that size
    skips the allocation and dereferences NULL.  [display_ok] leaves that
    state out. *)
Lemma gfx_switch_after_failed_alloc (host : Host Loc) s surf t :
  shmem s = None -> surface_ok surf -> needed_size surf <= shmem_size s ->
  juke_shmem_gfx_switch host (Some surf) s t = Fault.
Proof.
  intros Hr Hsurf Hfits.
  destruct (needed_size_model surf Hsurf) as (E1 & E2 & _).
  unfold juke_shmem_gfx_switch.
  rewrite (bind_Done (modify _) _ s t tt (set_surface (Some surf) s) t eq_refl).
  rewrite (bind_Done get _ _ _ _ _ _ eq_refl).
  rewrite E1, E2. cbn [shmem_size set_surface].
  rewrite Z.gtb_ltb, (proj2 (Z.ltb_ge _ _) Hfits).
  unfold gfx_switch_fill. apply bind_Fault.
  unfold store. apply bind_Fault. unfold modify_region. apply bind_Fault.
  unfold the_region, bind, get. cbn [shmem set_surface]. rewrite Hr. reflexivity.
Qed.



Lemma new_state_ok con : display_ok (new_state con).
Proof. unfold display_ok. cbn. split; [reflexivity|]. split; [lia|reflexivity]. Qed.



(** ** The counters *)

(** C2, as stated, fails: a switch to a surface that fits keeps the region
    (nothing is released or allocated, the descriptor stays 7) and sets
    [frame_counter] back from 1 to 0. *)
Lemma counters_not_monotone :
  (exists s' r' tr,
     run_op alloc_host (OpGfxSwitch (Some pixel_surface)) (pixel_state 1 0 0 0) []
       = Done (tt, s', [] ++ tr) /\
     forallb (fun e => negb (is_alloc_or_free e)) tr = true /\
     shmem (pixel_state 1 0 0 0) = Some (pixel_region 1 0 0 0) /\
     shmem s' = Some r' /\ shmem_fd s' = 7 /\
     frame_counter (hdr (pixel_region 1 0 0 0)) = 1 /\
     frame_counter (hdr r') = 0) /\
  ~ counters_monotone_over_region_lifetime.
Proof.
  set (s := pixel_state 1 0 0 0).
  destruct (gfx_switch_kept_run alloc_host s (pixel_region 1 0 0 0)
              pixel_surface [] eq_refl pixel_surface_ok (pixel_state_ok 1 0 0 0))
    as (d & b & tr & _ & Hrun & _ & _ & Hnoalloc & _).
  { subst s. vm_compute. intros H; discriminate H. }
  assert (Hna : forallb (fun e => negb (is_alloc_or_free e))
                  (switch_events pixel_surface ++ tr) = true).
  { rewrite forallb_app, Hnoalloc. reflexivity. }
  split.
  - eexists _, _, _. split; [exact Hrun|]. split; [exact Hna|].
    repeat (split; [reflexivity|]). reflexivity.
  - intros Hclaim.
    assert (Hfc : counters_le (pixel_region 1 0 0 0)
                    (switched_region pixel_surface (pixel_region 1 0 0 0) d)).
    { eapply (Hclaim alloc_host (OpGfxSwitch (Some pixel_surface)) s
                (pixel_region 1 0 0 0) [] _ _ (switch_events pixel_surface ++ tr)
                eq_refl Hrun Hna). reflexivity. }
    destruct Hfc as (Hfc & _). cbn in Hfc. lia.
Qed.

(** Only the pixels change in the row loop of an update. *)
Lemma copy_rows_state src stride (l : list Z) : forall s r t s' t',
  shmem s = Some r ->
  for_each l (fun row => pixels_memcpy (int32 (row * stride)) src
                           (int32 (row * stride)) (wrap64 stride)) s t
    = Done (tt, s', t') ->
  exists d, s' = set_shmem (Some (set_pixels d r)) s.
Proof.
  induction l as [|row l IH]; intros s r t s' t' Hr Hrun.
  - cbn in Hrun. injection Hrun as <- _. exists (pixels r).
    symmetry. apply set_shmem_same. exact Hr.
  - cbn [for_each] in Hrun. unfold bind at 1 in Hrun.
    unfold pixels_memcpy at 1 in Hrun.
    rewrite (bind_Done _ _ _ _ _ _ _ (the_region_run s r t Hr)) in Hrun.
    destruct (memcpy _ _ _ _ _) as [d1|]; [|discriminate].
    rewrite (bind_Done _ _ _ _ _ _ _ (modify_region_run _ s r t Hr)) in Hrun.
    unfold emit in Hrun.
    apply (IH _ (set_pixels d1 r)) in Hrun; [|reflexivity].
    destruct Hrun as (d & ->). exists d. reflexivity.
Qed.

(** Only the cursor slot changes in the row loop of a cursor definition. *)
Lemma copy_cursor_state src cw w (l : list Z) : forall s r t s' t',
  shmem s = Some r ->
  for_each l (fun y => cursor_memcpy (wrap32 (y * JUKE_CURSOR_MAX_SIZE)) src
                         (wrap32 (y * cw)) w) s t
    = Done (tt, s', t') ->
  exists d, s' = set_shmem (Some (set_cursor_data d r)) s.
Proof.
  induction l as [|row l IH]; intros s r t s' t' Hr Hrun.
  - cbn in Hrun. injection Hrun as <- _. exists (cursor_data r).
    symmetry. apply set_shmem_same. exact Hr.
  - cbn [for_each] in Hrun. unfold bind at 1 in Hrun.
    unfold cursor_memcpy at 1 in Hrun.
    rewrite (bind_Done _ _ _ _ _ _ _ (the_region_run s r t Hr)) in Hrun.
    destruct (memcpy _ _ _ _ _) as [d1|]; [|discriminate].
    rewrite (bind_Done _ _ _ _ _ _ _ (modify_region_run _ s r t Hr)) in Hrun.
    unfold emit in Hrun.
    apply (IH _ (set_cursor_data d1 r)) in Hrun; [|reflexivity].
    destruct Hrun as (d & ->). exists d. reflexivity.
Qed.

(** The drain loop leaves the state alone and ends at [write_idx]. *)
Lemma drain_state (fuel : nat) : forall r0 w s r t res s' t',
  shmem s = Some r ->
  drain fuel r0 w s t = Done (res, s', t') -> s' = s /\ res = w.
Proof.
  induction fuel as [|fuel IH]; intros r0 w s r t res s' t' Hr Hrun.
  - cbn [drain] in Hrun. destruct (r0 =? w) eqn:E; [|discriminate].
    injection Hrun as <- <- _. apply Z.eqb_eq in E. auto.
  - cbn [drain] in Hrun. destruct (r0 =? w) eqn:E.
    { injection Hrun as <- <- _. apply Z.eqb_eq in E. auto. }
    rewrite (bind_Done _ _ _ _ _ _ _ (the_region_run s r t Hr)) in Hrun.
    destruct (zidx _ _) as [ev|]; [|discriminate].
    rewrite (bind_Done _ _ _ _ _ _ _ (dispatch_run ev s r t Hr)) in Hrun.
    eapply IH; eassumption.
Qed.

(** The handshake code leaves the region alone. *)
Lemma juke_shmem_send_fd_shmem (host : Host Loc) s t s' t' :
  juke_shmem_send_fd host s t = Done (tt, s', t') -> shmem s' = shmem s.
Proof.
  unfold_display. destruct (_ || _); [intros [= <- _]; reflexivity|].
  destruct (_ <? 0); intros [= <- _]; reflexivity.
Qed.

Lemma juke_shmem_connect_shmem (host : Host Loc) s t res s' t' :
  juke_shmem_connect host s t = Done (res, s', t') -> shmem s' = shmem s.
Proof.
  unfold juke_shmem_connect.
  rewrite (bind_Done get _ s t s s t eq_refl).
  destruct (socket_path s) as [path|]; [|intros [= _ <- _]; reflexivity].
  unfold bind at 1. unfold call at 1.
  destruct (_ <? 0).
  { unfold bind, notify, emit, ret. intros [= _ <- _]. reflexivity. }
  unfold bind at 1. unfold call at 1.
  destruct (_ <? 0).
  { unfold bind, notify, emit, ret. intros [= _ <- _]. reflexivity. }
  unfold bind at 1. unfold notify at 1, emit at 1.
  rewrite (bind_Done (modify _) _ _ _ tt _ _ eq_refl).
  rewrite (bind_Done (modify _) _ _ _ tt _ _ eq_refl).
  rewrite (bind_Done get _ _ _ _ _ _ eq_refl).
  destruct (0 <=? _); cbn [when].
  - unfold bind at 1.
    destruct (juke_shmem_send_fd host _ _) as [[[[] s1] t1]| |] eqn:Hsend;
      try discriminate.
    apply juke_shmem_send_fd_shmem in Hsend.
    unfold ret. intros [= _ <- _]. rewrite Hsend. reflexivity.
  - unfold bind, ret. intros [= _ <- _]. reflexivity.
Qed.

(** A drain that ends after at least one step has reached a [write_idx]
    that is a 32-bit value. *)
Lemma drain_range (fuel : nat) : forall r0 w s r t res s' t',
  shmem s = Some r ->
  drain fuel r0 w s t = Done (res, s', t') -> r0 = w \/ 0 <= w < 2 ^ 32.
Proof.
  induction fuel as [|fuel IH]; intros r0 w s r t res s' t' Hr Hrun.
  - cbn [drain] in Hrun. destruct (r0 =? w) eqn:E; [|discriminate].
    left. apply Z.eqb_eq. exact E.
  - cbn [drain] in Hrun. destruct (r0 =? w) eqn:E.
    { left. apply Z.eqb_eq. exact E. }
    rewrite (bind_Done _ _ _ _ _ _ _ (the_region_run s r t Hr)) in Hrun.
    destruct (zidx _ _) as [ev|]; [|discriminate].
    rewrite (bind_Done _ _ _ _ _ _ _ (dispatch_run ev s r t Hr)) in Hrun.
    right. destruct (IH _ _ _ _ _ _ _ _ Hr Hrun) as [<-|Hw]; [|exact Hw].
    apply wrap32_range.
Qed.

(** A completed drain of the input: of the region only [read_idx] may have
    changed, and it is [write_idx] afterwards. *)
Lemma process_input_counters fuel s r t s' t' :
  shmem s = Some r ->
  juke_shmem_process_input fuel s t = Done (tt, s', t') ->
  exists r', shmem s' = Some r' /\ hdr r' = hdr r /\
    write_idx (ring r') = write_idx (ring r) /\
    read_idx (ring r') = write_idx (ring r).
Proof.
  intros Hr. unfold juke_shmem_process_input.
  rewrite (bind_Done _ _ _ _ _ _ _ (the_region_run s r t Hr)).
  unfold bind at 1. unfold emit at 1. unfold bind at 1.
  destruct (drain _ _ _ _ _) as [[[res s1] t1]| |] eqn:Hdrain; try discriminate.
  pose proof (drain_range _ _ _ _ _ _ _ _ _ Hr Hdrain) as Hrange.
  destruct (drain_state _ _ _ _ _ _ _ _ _ Hr Hdrain) as (-> & ->).
  rewrite (bind_Done _ _ _ _ _ _ _ (the_region_run s r t1 Hr)).
  destruct (write_idx (ring r) =? read_idx (ring r)) eqn:E; cbn [negb].
  - intros [= <- _]. exists r. apply Z.eqb_eq in E. auto.
  - unfold bind at 1. unfold notify at 1, emit at 1.
    rewrite (bind_Done _ _ _ _ _ _ _ (modify_region_run _ s r _ Hr)).
    unfold emit. intros [= <- _]. eexists. split; [reflexivity|].
    cbn. split; [reflexivity|]. split; [reflexivity|].
    apply wrap32_small. destruct Hrange as [Heq|Hw]; [|exact Hw].
    apply Z.eqb_neq in E. congruence.
Qed.

(** Whatever the state it starts from, the part of a switch that fills the
    region either goes wrong or leaves a region with all counters at 0. *)
Lemma gfx_switch_fill_counters (host : Host Loc) surf w h stride n s t s' t' :
  gfx_switch_fill host surf w h stride n s t = Done (tt, s', t') ->
  exists r', shmem s' = Some r' /\ counters_zero r'.
Proof.
  destruct (shmem s) as [r|] eqn:Hr.
  2:{ intros Hrun. exfalso. revert Hrun. unfold gfx_switch_fill.
      rewrite bind_Fault; [discriminate|].
      unfold store. apply bind_Fault. unfold modify_region. apply bind_Fault.
      unfold the_region, bind, get. rewrite Hr. reflexivity. }
  unfold gfx_switch_fill.
  do 19 (erewrite (bind_Done (store _ _));
         [|eapply store_run; first [eassumption|reflexivity]];
         norm_state).
  do 2 (erewrite (bind_Done (modify_region _));
          [|eapply modify_region_run; reflexivity];
        unfold bind at 1; unfold emit at 1; norm_state).
  unfold bind at 1. unfold pixels_memcpy at 1.
  erewrite (bind_Done the_region); [|apply the_region_run; reflexivity].
  destruct (memcpy _ _ _ _ _) as [d|]; [|discriminate].
  erewrite (bind_Done (modify_region _)); [|eapply modify_region_run; reflexivity].
  unfold emit at 1. norm_state.
  rewrite (bind_Done get _ _ _ _ _ _ eq_refl).
  match goal with
  | |- when ?c _ ?s0 _ = _ -> _ =>
      destruct c; cbn [when]; intros Hrun;
        [apply juke_shmem_send_fd_shmem in Hrun|injection Hrun as <- _];
        eexists; (split; [first [exact Hrun|reflexivity]|]);
        unfold counters_zero; repeat split; reflexivity
  end.
Qed.

(** C2, amended.  Of a completed callback other than a switch to a
    surface: a region that is there stays, [gfx_update] has added exactly 1
    to [frame_counter] (modulo 2^64) if there is a surface and nothing
    otherwise, [cursor_define] has added exactly 1 to [cursor_version]
    (modulo 2^32), a refresh has set [read_idx] to [write_idx], and no
    other counter has moved; [write_idx] is never written.  Of a completed
    switch to a surface: the region there is afterwards, kept or new, has
    all four counters at 0. *)
Theorem counters_advance_between_switches (host : Host Loc) op s t s' t' :
  run_op host op s t = Done (tt, s', t') ->
  if is_surface_switch op then
    forall r', shmem s' = Some r' -> counters_zero r'
  else
    forall r, shmem s = Some r ->
      exists r', shmem s' = Some r' /\ counters_moved op s r r'.
Proof.
  intros Hrun.
  destruct op as [x y w h|[surf|]|fuel| |x y on];
    cbn [run_op is_surface_switch] in *.
  - (* gfx_update *)
    intros r Hr.
    unfold juke_shmem_gfx_update in Hrun.
    rewrite (bind_Done get _ s t s s t eq_refl) in Hrun. rewrite Hr in Hrun.
    unfold counters_moved.
    destruct (surface s) as [surf|].
    + unfold bind at 1 in Hrun.
      destruct (for_each _ _ _ _) as [[[[] s1] t1]| |] eqn:Hloop; try discriminate.
      destruct (copy_rows_state _ _ _ _ _ _ _ _ Hr Hloop) as (d & ->).
      do 4 (erewrite (bind_Done (store _ _)) in Hrun;
            [|eapply store_run; reflexivity]; norm_state in Hrun).
      erewrite atomic_fetch_add_run in Hrun by reflexivity.
      injection Hrun as <- _. eexists. split; [reflexivity|].
      cbn. auto.
    + injection Hrun as <- _. exists r. auto.
  - (* gfx_switch to a surface *)
    intros r' Hr'.
    unfold juke_shmem_gfx_switch in Hrun.
    rewrite (bind_Done (modify _) _ s t tt _ t eq_refl) in Hrun.
    rewrite (bind_Done get _ _ _ _ _ _ eq_refl) in Hrun.
    destruct (_ >? _).
    + unfold bind at 1 in Hrun.
      match type of Hrun with
      | match ?m with _ => _ end = _ =>
          assert (exists s1 t1, m = Done (tt, s1, t1) /\ shmem s1 = None)
            as (s1 & t1 & Hfree & Hs1)
      end.
      { destruct (shmem (set_surface (Some surf) s)) eqn:E;
          unfold bind, notify, emit, modify, get, put, ret;
          eexists _, _; (split; [reflexivity|]); [reflexivity|exact E]. }
      rewrite Hfree in Hrun.
      rewrite (bind_Done (modify _) _ _ _ tt _ _ eq_refl) in Hrun.
      unfold bind at 1 in Hrun. unfold call at 1 in Hrun.
      destruct (_ <? 0).
      * unfold notify, emit in Hrun. injection Hrun as <- _.
        cbn [shmem set_shmem_size] in Hr'. congruence.
      * rewrite (bind_Done (modify _) _ _ _ tt _ _ eq_refl) in Hrun.
        rewrite (bind_Done (modify _) _ _ _ tt _ _ eq_refl) in Hrun.
        destruct (gfx_switch_fill_counters _ _ _ _ _ _ _ _ _ _ Hrun) as (r2 & Hr2 & Hz).
        congruence.
    + destruct (gfx_switch_fill_counters _ _ _ _ _ _ _ _ _ _ Hrun) as (r2 & Hr2 & Hz).
      congruence.
  - (* gfx_switch to no surface *)
    intros r Hr.
    unfold juke_shmem_gfx_switch in Hrun.
    rewrite (bind_Done (modify _) _ s t tt _ t eq_refl) in Hrun.
    injection Hrun as <- _. exists r. unfold counters_moved. auto.
  - (* refresh *)
    intros r Hr.
    unfold juke_shmem_refresh in Hrun.
    rewrite (bind_Done get _ s t s s t eq_refl) in Hrun.
    unfold bind at 1 in Hrun.
    destruct (when _ _ s t) as [[[[] s1] t1]| |] eqn:H1; try discriminate.
    assert (Hs1 : shmem s1 = Some r).
    { match type of H1 with when ?c _ _ _ = _ => destruct c end; cbn [when] in H1.
      - unfold bind at 1 in H1.
        destruct (juke_shmem_connect host s t) as [[[res s2] t2]| |] eqn:Hc;
          try discriminate.
        apply juke_shmem_connect_shmem in Hc. injection H1 as <- _. congruence.
      - injection H1 as <- _. exact Hr. }
    rewrite (bind_Done get _ s1 t1 s1 s1 t1 eq_refl) in Hrun.
    unfold bind at 1 in Hrun.
    destruct (when _ _ s1 t1) as [[[[] s2] t2]| |] eqn:H2; try discriminate.
    assert (Hs2 : shmem s2 = Some r).
    { match type of H2 with when ?c _ _ _ = _ => destruct c end; cbn [when] in H2.
      - apply juke_shmem_send_fd_shmem in H2. congruence.
      - injection H2 as <- _. exact Hs1. }
    rewrite (bind_Done get _ s2 t2 s2 s2 t2 eq_refl) in Hrun.
    unfold bind at 1 in Hrun.
    destruct (when _ _ s2 t2) as [[[[] s3] t3]| |] eqn:H3; try discriminate.
    unfold notify, emit in Hrun. injection Hrun as <- _.
    rewrite Hs2 in H3. rewrite bool_decide_eq_true_2 in H3 by discriminate.
    cbn [when] in H3.
    destruct (process_input_counters _ _ _ _ _ _ Hs2 H3) as (r' & Hr' & Hh & Hw & Hrd).
    exists r'. split; [exact Hr'|]. unfold counters_moved. rewrite Hh. auto.
  - (* cursor_define *)
    intros r Hr.
    unfold juke_shmem_cursor_define in Hrun.
    rewrite (bind_Done get _ s t s s t eq_refl) in Hrun. rewrite Hr in Hrun.
    unfold counters_moved.
    destruct (con_cursor s) as [c|].
    + do 4 (erewrite (bind_Done (store _ _)) in Hrun;
            [|eapply store_run; first [eassumption|reflexivity]];
            norm_state in Hrun).
      unfold bind at 1 in Hrun.
      destruct (for_each _ _ _ _) as [[[[] s1] t1]| |] eqn:Hloop; try discriminate.
      eapply copy_cursor_state in Hloop; [|reflexivity].
      destruct Hloop as (d & ->).
      erewrite atomic_fetch_add_run in Hrun by reflexivity.
      injection Hrun as <- _. eexists. split; [reflexivity|].
      cbn. auto.
    + do 2 (erewrite (bind_Done (store _ _)) in Hrun;
            [|eapply store_run; first [eassumption|reflexivity]];
            norm_state in Hrun).
      erewrite atomic_fetch_add_run in Hrun by reflexivity.
      injection Hrun as <- _. eexists. split; [reflexivity|].
      cbn. auto.
  - (* mouse_set *)
    intros r Hr.
    unfold juke_shmem_mouse_set in Hrun.
    rewrite (bind_Done get _ s t s s t eq_refl) in Hrun. rewrite Hr in Hrun.
    do 3 (erewrite (bind_Done (store _ _)) in Hrun;
          [|eapply store_run; first [eassumption|reflexivity]];
          norm_state in Hrun).
    unfold emit in Hrun. injection Hrun as <- _.
    eexists. split; [reflexivity|]. unfold counters_moved. cbn. auto.
Qed.


Lemma counters_advance_between_switches_witness :
  exists r',
    shmem (set_shmem (Some (set_hdr
             (set_field F_cursor_version (wrap32 (3 + 1))
                (set_field F_cursor_height 0
                   (set_field F_cursor_width 0 (hdr (pixel_region 0 3 0 0)))))
             (pixel_region 0 3 0 0))) (pixel_state 0 3 0 0)) = Some r' /\
    counters_moved OpCursorDefine (pixel_state 0 3 0 0) (pixel_region 0 3 0 0) r'.
Proof.
  apply (counters_advance_between_switches alloc_host OpCursorDefine
           (pixel_state 0 3 0 0) [] _
           ([] ++ [EvStore (Hdr F_cursor_width) 0; EvStore (Hdr F_cursor_height) 0;
                   EvAtomicAdd (Hdr F_cursor_version) 1 Release])).
  - cbn [run_op].
    apply (cursor_define_updates_run_none (pixel_state 0 3 0 0)
             (pixel_region 0 3 0 0) [] eq_refl eq_refl).
  - reflexivity.
Defined.

(** C9.  Sending the descriptor is idempotent, for the display channel and
    for the audio channel alike: without a connected peer, without a
    descriptor, or once the descriptor has been sent, the call changes
    nothing and sends nothing; a send the peer accepts sets [fd_sent] (and
    nothing else), after which any number of further calls change nothing. *)
Theorem send_fd_idempotent (host : Host Loc) (ahost : Host Audio.Loc) :
  (forall s t,
     (client_fd s < 0 \/ shmem_fd s < 0 \/ fd_sent s = true ->
      juke_shmem_send_fd host s t = Done (tt, s, t)) /\
     (0 <= client_fd s -> 0 <= shmem_fd s -> fd_sent s = false ->
      0 <= host t (Sendmsg (client_fd s) (shmem_fd s)) ->
      exists t',
        juke_shmem_send_fd host s t = Done (tt, set_fd_sent true s, t') /\
        t' = t ++ [EvCall (Sendmsg (client_fd s) (shmem_fd s))
                     (host t (Sendmsg (client_fd s) (shmem_fd s)))] /\
        forall n, send_fd_times host n (set_fd_sent true s) t'
                  = Done (tt, set_fd_sent true s, t'))) /\
  (forall j s t,
     Audio.state j = Some s ->
     (Audio.client_fd s < 0 \/ Audio.shmem_fd s < 0 \/ Audio.fd_sent s = true ->
      Audio.juke_audio_send_fd ahost j t = Done (tt, j, t)) /\
     (0 <= Audio.client_fd s -> 0 <= Audio.shmem_fd s -> Audio.fd_sent s = false ->
      0 <= ahost t (Sendmsg (Audio.client_fd s) (Audio.shmem_fd s)) ->
      exists j' t',
        Audio.juke_audio_send_fd ahost j t = Done (tt, j', t') /\
        j' = Audio.set_state (Audio.set_fd_sent true s) j /\
        (exists r, t' = t ++ [EvCall (Sendmsg (Audio.client_fd s) (Audio.shmem_fd s)) r;
                             EvCall (ErrorReport "juke-audio: sent shmem fd to Juke") 0]) /\
        forall n, Audio.send_fd_times ahost n j' t' = Done (tt, j', t'))).
Proof.
  split.
  - intros s t. split.
    + apply juke_shmem_send_fd_noop.
    + intros H1 H2 H3 H4. eexists. split; [apply juke_shmem_send_fd_ok; assumption|].
      split; [reflexivity|]. intros n. apply send_fd_times_sent. reflexivity.
  - intros j s t Hs. split.
    + apply AudioFacts.juke_audio_send_fd_noop. exact Hs.
    + intros H1 H2 H3 H4. eexists _, _.
      split; [exact (AudioFacts.juke_audio_send_fd_ok ahost j s t Hs H1 H2 H3 H4)|].
      split; [reflexivity|]. split; [eexists; reflexivity|].
      intros n. eapply AudioFacts.audio_send_fd_times_sent; reflexivity.
Qed.

(** ** Switches without a region *)


Lemma pair_surface_ok : surface_ok pair_surface.
Proof. unfold surface_ok, INT_MAX. cbn. lia. Qed.


(** ** [juke_shmem_mouse_set] *)

(** X11.  [juke_shmem_mouse_set] does nothing without a region.  With
    one, it stores the position ([cursor_x], [cursor_y]) and the visibility
    ([cursor_visible], 1 or 0) by plain stores and ends with a release
    fence; [cursor_version] is not incremented, and nothing else in the
    region changes. *)
Theorem mouse_set_publishes s t x y on :
  (shmem s = None -> juke_shmem_mouse_set x y on s t = Done (tt, s, t)) /\
  (forall r, shmem s = Some r ->
     - 2 ^ 31 <= x < 2 ^ 31 -> - 2 ^ 31 <= y < 2 ^ 31 ->
     let v := if on then 1 else 0 in
     exists r',
       juke_shmem_mouse_set x y on s t =
         Done (tt, set_shmem (Some r') s,
               t ++ [EvStore (Hdr F_cursor_x) x; EvStore (Hdr F_cursor_y) y;
                     EvStore (Hdr F_cursor_visible) v; EvFence Release]) /\
       hdr r' = set_field F_cursor_visible v
                  (set_field F_cursor_y y (set_field F_cursor_x x (hdr r))) /\
       cursor_version (hdr r') = cursor_version (hdr r) /\
       frame_counter (hdr r') = frame_counter (hdr r) /\
       cursor_data r' = cursor_data r /\ ring r' = ring r /\ pixels r' = pixels r).
Proof.
  split.
  { intros Hr. unfold juke_shmem_mouse_set, bind, get. rewrite Hr. reflexivity. }
  intros r Hr Hx Hy v.
  unfold juke_shmem_mouse_set.
  rewrite (bind_Done get _ s t s s t) by reflexivity. rewrite Hr.
  do 3 (erewrite (bind_Done (store _ _));
        [|eapply store_run; first [eassumption|reflexivity]]; norm_state).
  unfold emit. cbn [field_type conv]. fold v.
  rewrite !int32_small by assumption.
  assert (Hv : wrap32 v = v) by (subst v; destruct on; reflexivity).
  rewrite Hv. rewrite <- !app_assoc. cbn [app].
  eexists. split; [reflexivity|]. cbn. auto 10.
Qed.

Lemma mouse_set_publishes_witness :
  exists r',
    juke_shmem_mouse_set 10 20 true (pixel_state 5 3 0 0) [] =
      Done (tt, set_shmem (Some r') (pixel_state 5 3 0 0),
            [] ++ [EvStore (Hdr F_cursor_x) 10; EvStore (Hdr F_cursor_y) 20;
                   EvStore (Hdr F_cursor_visible) 1; EvFence Release]) /\
    cursor_version (hdr r') = 3 /\ frame_counter (hdr r') = 5.
Proof.
  destruct (mouse_set_publishes (pixel_state 5 3 0 0) [] 10 20 true) as (_ & H).
  destruct (H (pixel_region 5 3 0 0) eq_refl) as (r' & Hrun & _ & Hcv & Hfc & _).
  - lia.
  - lia.
  - exists r'. split; [exact Hrun|]. split; [exact Hcv|exact Hfc].
Defined.

(** ** [juke_shmem_connect] *)

(** What [juke_shmem_connect] does, case by case. *)
Lemma juke_shmem_connect_run (host : Host Loc) s t :
  exists ret s' tr,
    juke_shmem_connect host s t = Done (ret, s', t ++ tr) /\
    forallb is_call tr = true /\
    forallb (fun e => negb (is_alloc_or_free e)) tr = true /\
    forallb (fun e => negb (is_input_call e)) tr = true /\
    Forall refresh_event tr /\
    (listening host -> socket_path s <> None -> ret = 0) /\
    con_cursor s' = con_cursor s /\ surface s' = surface s /\
    shmem s' = shmem s /\ shmem_size s' = shmem_size s /\
    shmem_fd s' = shmem_fd s /\ socket_path s' = socket_path s /\
    (ret = -1 /\ s' = s /\
       (socket_path s = None -> tr = []) /\
       (forall fd, In (EvCall Socket fd) tr -> 0 <= fd ->
          exists a, tr = [EvCall Socket fd; a; EvCall (Close fd) 0])
     \/
     ret = 0 /\ socket_path s <> None /\
       client_fd s' = host t Socket /\ 0 <= client_fd s' /\
       (0 <= shmem_fd s ->
        exists a, In (EvCall (Sendmsg (client_fd s') (shmem_fd s)) a) tr) /\
       (fd_sent s' = true -> 0 <= shmem_fd s) /\
       ((forall sock fd u, 0 <= host u (Sendmsg sock fd)) -> 0 <= shmem_fd s ->
        fd_sent s' = true)).
Proof.
  unfold juke_shmem_connect.
  rewrite (bind_Done get _ s t s s t) by reflexivity.
  destruct (socket_path s) as [path|] eqn:Hpath.
  2:{ exists (-1), s, []. unfold ret. rewrite app_nil_r.
      split; [reflexivity|]. do 3 (split; [reflexivity|]).
      split; [constructor|]. split; [intros _ H; contradiction|].
      do 5 (split; [reflexivity|]). split; [exact Hpath|].
      left. split; [reflexivity|]. split; [reflexivity|].
      split; [reflexivity|]. intros fd []. }
  unfold bind at 1. unfold call at 1.
  set (fd := host t Socket).
  destruct (fd <? 0) eqn:Hfd; bool_hyps.
  { eexists (-1), s, [_; _]. unfold bind, notify, emit, ret.
    rewrite <- app_assoc. cbn [app].
    split; [reflexivity|]. do 3 (split; [reflexivity|]).
    split; [repeat constructor|].
    split. { intros Hl _. destruct (Hl t) as (H0 & _). fold fd in H0. lia. }
    do 5 (split; [reflexivity|]). split; [exact Hpath|].
    left. split; [reflexivity|]. split; [reflexivity|].
    split; [intros [=]|].
    intros fd' [[= <-]|[[=]|[]]] Hge. lia. }
  unfold bind at 1. unfold call at 1.
  set (t1 := t ++ [EvCall Socket fd]).
  set (c := host t1 (Connect fd (sun_path path))).
  destruct (c <? 0) eqn:Hcn; bool_hyps.
  { eexists (-1), s, [_; _; _]. unfold bind, notify, emit, ret.
    assert (Hnl : listening host -> False).
    { intros Hl. destruct (Hl t1) as (_ & H0 & _).
      specialize (H0 fd (sun_path path)). fold c in H0. lia. }
    subst t1. rewrite <- !app_assoc. cbn [app].
    split; [reflexivity|]. do 3 (split; [reflexivity|]).
    split; [repeat constructor|].
    split; [intros Hl _; destruct (Hnl Hl)|].
    do 5 (split; [reflexivity|]). split; [exact Hpath|].
    left. split; [reflexivity|]. split; [reflexivity|].
    split; [intros [=]|].
    intros fd' [[= <-]|[[=]|[[=]|[]]]] Hge. eexists. reflexivity. }
  unfold bind at 1. unfold notify at 1, emit at 1.
  rewrite (bind_Done (modify _) _ _ _ tt _ _ eq_refl).
  rewrite (bind_Done (modify _) _ _ _ tt _ _ eq_refl).
  rewrite (bind_Done get _ _ _ _ _ _ eq_refl).
  set (s1 := set_fd_sent false (set_client_fd fd s)).
  set (t2 := (t1 ++ _) ++ _).
  assert (Ht2 : t2 = t ++ [EvCall Socket fd; EvCall (Connect fd (sun_path path)) c;
                           EvCall (ErrorReport "juke-shmem: connected") 0]).
  { subst t2 t1. rewrite <- !app_assoc. reflexivity. }
  change (shmem_fd s1) with (shmem_fd s).
  destruct (0 <=? shmem_fd s) eqn:Hsh; bool_hyps; cbn [when].
  - set (a := host t2 (Sendmsg fd (shmem_fd s))).
    destruct (Z_lt_dec a 0) as [Ha|Ha].
    + rewrite (bind_Done _ _ _ _ _ _ _
                 (juke_shmem_send_fd_fail host s1 t2
                    ltac:(change (0 <= fd); lia) ltac:(change (0 <= shmem_fd s); lia)
                    eq_refl Ha)).
      eexists 0, s1, [_; _; _; _; _]. unfold ret.
      rewrite Ht2, <- !app_assoc. cbn [app].
      split; [reflexivity|]. do 3 (split; [reflexivity|]).
      split; [repeat constructor|]. split; [reflexivity|].
      do 5 (split; [reflexivity|]). split; [exact Hpath|].
      right. split; [reflexivity|]. split; [discriminate|].
      split; [reflexivity|]. split; [exact Hfd|].
      split. { intros _. exists a. right. right. right. left.
               subst a. rewrite Ht2. reflexivity. }
      split; [intros [=]|].
      intros Hacc _. exfalso. specialize (Hacc fd (shmem_fd s) t2). fold a in Hacc. lia.
    + rewrite (bind_Done _ _ _ _ _ _ _
                 (juke_shmem_send_fd_ok host s1 t2
                    ltac:(change (0 <= fd); lia) ltac:(change (0 <= shmem_fd s); lia)
                    eq_refl ltac:(change (0 <= a); lia))).
      eexists 0, (set_fd_sent true s1), [_; _; _; _]. unfold ret.
      rewrite Ht2, <- !app_assoc. cbn [app].
      split; [reflexivity|]. do 3 (split; [reflexivity|]).
      split; [repeat constructor|]. split; [reflexivity|].
      do 5 (split; [reflexivity|]). split; [exact Hpath|].
      right. split; [reflexivity|]. split; [discriminate|].
      split; [reflexivity|]. split; [exact Hfd|].
      split. { intros _. exists a. right. right. right. left.
               subst a. rewrite Ht2. reflexivity. }
      split; [intros _; lia|]. intros _ _. reflexivity.
  - eexists 0, s1, [_; _; _]. unfold bind, ret. rewrite Ht2.
    split; [reflexivity|]. do 3 (split; [reflexivity|]).
    split; [repeat constructor|]. split; [reflexivity|].
    do 5 (split; [reflexivity|]). split; [exact Hpath|].
    right. split; [reflexivity|]. split; [discriminate|].
    split; [reflexivity|]. split; [exact Hfd|].
    split; [intros; lia|]. split; [intros [=]|]. intros _ ?. lia.
Qed.

(** X12.  [juke_shmem_connect] answers 0 when it has set up a connection
    and -1 otherwise.  Without a socket path it does nothing.  When it
    fails after a socket was made, that socket is closed again and the
    state is as before.  When it succeeds, the new socket becomes the
    connection, [fd_sent] is cleared and the descriptor of the region, if
    there is one, is offered at once.  The region, the surface and the
    descriptor of the region are never touched. *)
Theorem shmem_connect_result (host : Host Loc) s t :
  exists ret s' tr,
    juke_shmem_connect host s t = Done (ret, s', t ++ tr) /\
    forallb is_call tr = true /\
    surface s' = surface s /\ shmem s' = shmem s /\
    shmem_size s' = shmem_size s /\ shmem_fd s' = shmem_fd s /\
    (ret = -1 /\ s' = s /\
       (socket_path s = None -> tr = []) /\
       (forall fd, In (EvCall Socket fd) tr -> 0 <= fd ->
          exists a, tr = [EvCall Socket fd; a; EvCall (Close fd) 0])
     \/
     ret = 0 /\ socket_path s <> None /\
       client_fd s' = host t Socket /\ 0 <= client_fd s' /\
       (0 <= shmem_fd s ->
        exists a, In (EvCall (Sendmsg (client_fd s') (shmem_fd s)) a) tr) /\
       (fd_sent s' = true -> 0 <= shmem_fd s)).
Proof.
  destruct (juke_shmem_connect_run host s t)
    as (ret & s' & tr & Hrun & Hcalls & _ & _ & _ & _ & _ & Hsf & Hsh & Hsz & Hfd & _
        & Hcase).
  exists ret, s', tr. split; [exact Hrun|]. split; [exact Hcalls|].
  split; [exact Hsf|]. split; [exact Hsh|]. split; [exact Hsz|]. split; [exact Hfd|].
  destruct Hcase as [H|(H1 & H2 & H3 & H4 & H5 & H6 & _)]; [left; exact H|].
  right. auto 10.
Qed.

Lemma shmem_connect_result_witness :
  exists ret s' tr,
    juke_shmem_connect alloc_host (pixel_state 0 0 0 0) [] = Done (ret, s', [] ++ tr) /\
    shmem s' = shmem (pixel_state 0 0 0 0).
Proof.
  destruct (shmem_connect_result alloc_host (pixel_state 0 0 0 0) [])
    as (ret & s' & tr & Hrun & _ & _ & Hsh & _).
  exists ret, s', tr. split; [exact Hrun|exact Hsh].
Defined.

(** ** More on [juke_shmem_gfx_update] *)

(** The whole of an update whose rows fit. *)
Lemma gfx_update_run s r surf x y w h t :
  shmem s = Some r -> surface s = Some surf ->
  update_fits surf r y h ->
  let stride := surface_stride surf in
  exists d,
    juke_shmem_gfx_update x y w h s t =
      Done (tt,
            set_shmem (Some (set_hdr
              (set_field F_frame_counter (wrap64 (frame_counter (hdr r) + 1))
                 (set_field F_dirty_h (wrap32 h) (set_field F_dirty_w (wrap32 w)
                    (set_field F_dirty_y (wrap32 y)
                       (set_field F_dirty_x (wrap32 x) (hdr r))))))
              (set_pixels d r))) s,
            t ++ row_copies stride y (int32 (y + h) - y)
              ++ [EvStore (Hdr F_dirty_x) (wrap32 x); EvStore (Hdr F_dirty_y) (wrap32 y);
                  EvStore (Hdr F_dirty_w) (wrap32 w); EvStore (Hdr F_dirty_h) (wrap32 h);
                  EvAtomicAdd (Hdr F_frame_counter) 1 Release]) /\
    length d = length (pixels r) /\
    forall p : nat,
      d !! p =
        if (y * stride <=? Z.of_nat p) && (Z.of_nat p <? (y + h) * stride)
        then surface_data surf !! p else pixels r !! p.
Proof.
  intros Hr Hsurf Hfits stride.
  destruct (update_rows surf r y h Hfits) as (Hseq & Hend & _).
  destruct Hfits as (Hy & Hh & Hst & Hint & Hpx & Hsrc).
  unfold juke_shmem_gfx_update, row_copies.
  rewrite (bind_Done get _ s t s s t) by reflexivity.
  rewrite Hr, Hsurf, Hseq.
  destruct (copy_rows_run surf (Z.to_nat (int32 (y + h) - y)) y s r t Hr Hy Hst)
    as (d & Hrun & Hlen & Hd); try (rewrite Hend; assumption).
  rewrite Hend in Hd. unfold row_copies in Hrun.
  fold stride in Hrun, Hd |- *.
  rewrite (bind_Done _ _ _ _ _ _ _ Hrun).
  do 4 (erewrite (bind_Done (store _ _));
        [|eapply store_run; reflexivity]; norm_state).
  erewrite atomic_fetch_add_run by reflexivity.
  cbn [field_type conv hdr set_hdr set_pixels get_field set_field frame_counter].
  exists d. split; [|split; [exact Hlen|exact Hd]].
  rewrite <- !app_assoc. reflexivity.
Qed.

(** X13.  An update copies from the surface, so updating the same
    rectangle again (the surface not having changed) leaves the shared
    pixels as the first update left them; each of the two calls publishes a
    frame, [frame_counter] gaining one each time. *)
Theorem gfx_update_twice s r surf x y w h t :
  shmem s = Some r -> surface s = Some surf ->
  update_fits surf r y h ->
  exists s1 t1 r1 s2 t2 r2,
    juke_shmem_gfx_update x y w h s t = Done (tt, s1, t1) /\
    shmem s1 = Some r1 /\
    juke_shmem_gfx_update x y w h s1 t1 = Done (tt, s2, t2) /\
    shmem s2 = Some r2 /\
    pixels r2 = pixels r1 /\
    frame_counter (hdr r1) = wrap64 (frame_counter (hdr r) + 1) /\
    frame_counter (hdr r2) = wrap64 (frame_counter (hdr r1) + 1) /\
    hdr r2 = set_field F_frame_counter (frame_counter (hdr r2)) (hdr r1) /\
    cursor_data r2 = cursor_data r /\ ring r2 = ring r.
Proof.
  intros Hr Hsurf Hfit.
  destruct (gfx_update_run s r surf x y w h t Hr Hsurf Hfit) as (d & Hrun1 & Hlen & Hd).
  match type of Hrun1 with _ = Done (_, ?u, ?v) => set (s1 := u) in *; set (t1 := v) in * end.
  assert (Hfit1 : update_fits surf (set_hdr
              (set_field F_frame_counter (wrap64 (frame_counter (hdr r) + 1))
                 (set_field F_dirty_h (wrap32 h) (set_field F_dirty_w (wrap32 w)
                    (set_field F_dirty_y (wrap32 y)
                       (set_field F_dirty_x (wrap32 x) (hdr r))))))
              (set_pixels d r)) y h).
  { destruct Hfit as (H1 & H2 & H3 & H4 & H5 & H6).
    unfold update_fits. cbn [pixels set_hdr set_pixels]. rewrite Hlen. auto 10. }
  destruct (gfx_update_run s1 _ surf x y w h t1 eq_refl Hsurf Hfit1)
    as (d2 & Hrun2 & Hlen2 & Hd2).
  cbn [pixels set_hdr set_pixels] in Hd2.
  assert (Hsame : d2 = d).
  { apply list_eq. intros p. rewrite Hd2, Hd.
    destruct (_ && _); reflexivity. }
  subst d2.
  eexists s1, t1, _, _, _, _.
  split; [exact Hrun1|]. split; [reflexivity|].
  split; [exact Hrun2|]. split; [reflexivity|].
  split; [reflexivity|]. split; [reflexivity|]. split; [reflexivity|].
  split; [reflexivity|]. split; reflexivity.
Qed.

Lemma gfx_update_twice_witness :
  exists s1 t1 r1 s2 t2 r2,
    juke_shmem_gfx_update 0 0 1 1 (pixel_state 5 0 0 0) [] = Done (tt, s1, t1) /\
    shmem s1 = Some r1 /\
    juke_shmem_gfx_update 0 0 1 1 s1 t1 = Done (tt, s2, t2) /\
    shmem s2 = Some r2 /\
    pixels r2 = pixels r1 /\
    frame_counter (hdr r1) = wrap64 (5 + 1) /\
    frame_counter (hdr r2) = wrap64 (frame_counter (hdr r1) + 1).
Proof.
  destruct (gfx_update_twice (pixel_state 5 0 0 0) (pixel_region 5 0 0 0) pixel_surface
              0 0 1 1 [] eq_refl eq_refl)
    as (s1 & t1 & r1 & s2 & t2 & r2 & H1 & H2 & H3 & H4 & H5 & H6 & H7 & _).
  - unfold update_fits, INT_MAX. cbn. lia.
  - exists s1, t1, r1, s2, t2, r2. auto 10.
Defined.

Lemma pixels_memcpy_fault off src soff n s r t :
  shmem s = Some r -> memcpy (pixels r) off src soff n = None ->
  pixels_memcpy off src soff n s t = Fault.
Proof.
  intros Hr Hm. unfold pixels_memcpy, the_region, bind, get, ret.
  rewrite Hr, Hm. reflexivity.
Qed.

(** The row loop does not stop at the end of the pixel buffer. *)
Lemma copy_rows_fault src stride (k : nat) : forall a s r t,
  shmem s = Some r ->
  0 <= a -> 0 < stride -> (a + Z.of_nat (S k)) * stride <= INT_MAX ->
  Z.of_nat (length (pixels r)) < (a + Z.of_nat (S k)) * stride ->
  for_each (seqZ a (Z.of_nat (S k)))
    (fun row => pixels_memcpy (int32 (row * stride)) src (int32 (row * stride))
                  (wrap64 stride)) s t = Fault.
Proof.
  assert (H31 : INT_MAX = 2147483647) by reflexivity.
  assert (Hstep : forall (m : nat) a s r t,
    shmem s = Some r -> 0 <= a -> 0 < stride ->
    (a + Z.of_nat (S m)) * stride <= INT_MAX ->
    for_each (seqZ a (Z.of_nat (S m)))
      (fun row => pixels_memcpy (int32 (row * stride)) src (int32 (row * stride))
                    (wrap64 stride)) s t = Fault
    \/ exists d1,
         memcpy (pixels r) (a * stride) src (a * stride) stride = Some d1 /\
         for_each (seqZ a (Z.of_nat (S m)))
           (fun row => pixels_memcpy (int32 (row * stride)) src (int32 (row * stride))
                         (wrap64 stride)) s t
         = for_each (seqZ (a + 1) (Z.of_nat m))
             (fun row => pixels_memcpy (int32 (row * stride)) src (int32 (row * stride))
                           (wrap64 stride))
             (set_shmem (Some (set_pixels d1 r)) s)
             (t ++ [EvMemcpy (Pixels (a * stride)) stride])).
  { intros m a s r t Hr Ha Hst Hint.
    rewrite seqZ_S. cbn [for_each].
    assert (Hrow : 0 <= a * stride /\ a * stride + stride <= (a + Z.of_nat (S m)) * stride)
      by nia.
    rewrite int32_small by (change (2 ^ 31) with 2147483648; lia).
    assert (Hw : wrap64 stride = stride)
      by (apply wrap64_small; change (2 ^ 64) with 18446744073709551616; lia).
    rewrite Hw.
    destruct (memcpy (pixels r) (a * stride) src (a * stride) stride) as [d1|] eqn:Hm.
    - right. exists d1. split; [reflexivity|].
      rewrite (bind_Done _ _ _ _ _ _ _ (pixels_memcpy_run _ _ _ _ _ s r t Hr Hm)).
      reflexivity.
    - left. apply bind_Fault. eapply pixels_memcpy_fault; eassumption. }
  induction k as [|k IH]; intros a s r t Hr Ha Hst Hint Hover;
    destruct (Hstep _ a s r t Hr Ha Hst Hint) as [Hf|(d1 & Hm & Hrun)];
    try exact Hf.
  - exfalso. unfold memcpy in Hm.
    destruct (_ && _) eqn:E; [|discriminate]. bool_hyps. lia.
  - rewrite Hrun.
    pose proof (memcpy_length _ _ _ _ _ _ Hm) as Hl1.
    apply (IH (a + 1) _ (set_pixels d1 r)); [reflexivity|lia|lia| |];
      cbn [pixels set_pixels]; rewrite ?Hl1; lia.
Qed.

(** X14.  [juke_shmem_gfx_update] trusts its caller with the rectangle: it
    copies full rows from [y] to [y + h] without looking at the size of the
    pixel buffer, so a rectangle that reaches below the rows the region
    holds makes it copy past the end of the mapping. *)
Theorem gfx_update_does_not_clip s r surf x y w h t :
  shmem s = Some r -> surface s = Some surf ->
  0 <= y -> 0 < h -> 0 < surface_stride surf ->
  (y + h) * surface_stride surf <= INT_MAX ->
  Z.of_nat (length (pixels r)) < (y + h) * surface_stride surf ->
  juke_shmem_gfx_update x y w h s t = Fault.
Proof.
  intros Hr Hsurf Hy Hh Hst Hint Hover.
  unfold juke_shmem_gfx_update.
  rewrite (bind_Done get _ s t s s t) by reflexivity.
  rewrite Hr, Hsurf. apply bind_Fault.
  assert (H31 : INT_MAX = 2147483647) by reflexivity.
  assert (Hyh : y + h <= INT_MAX) by nia.
  rewrite (int32_small (y + h)) by (change (2 ^ 31) with 2147483648; lia).
  replace (y + h - y) with h by lia.
  replace h with (Z.of_nat (S (Z.to_nat (h - 1)))) in * by lia.
  eapply copy_rows_fault; eauto.
Qed.

Lemma gfx_update_does_not_clip_witness :
  juke_shmem_gfx_update 0 0 1 2 (pixel_state 0 0 0 0) [] = Fault.
Proof.
  apply (gfx_update_does_not_clip (pixel_state 0 0 0 0) (pixel_region 0 0 0 0)
           pixel_surface 0 0 1 2 [] eq_refl eq_refl);
    unfold INT_MAX; cbn; lia.
Defined.

(** ** More on [juke_shmem_gfx_switch] *)

(** A switch that needs more room than there is: the old region goes, the
    size is recorded, the allocator is asked. *)
Lemma gfx_switch_realloc_run (host : Host Loc) s surf t :
  surface_ok surf -> display_ok s -> shmem_size s < needed_size surf ->
  let needed := needed_size surf in
  let n := surface_stride surf * surface_height surf in
  let fd := host (t ++ freed s) (MemfdAlloc "juke-fb" needed) in
  exists s1,
    shmem s1 = None /\ fd_sent s1 = false /\ surface s1 = Some surf /\
    shmem_size s1 = needed /\ shmem_fd s1 < 0 /\
    client_fd s1 = client_fd s /\ con_cursor s1 = con_cursor s /\
    socket_path s1 = socket_path s /\
    (fd < 0 ->
     juke_shmem_gfx_switch host (Some surf) s t =
       Done (tt, s1,
             t ++ freed s ++ [EvCall (MemfdAlloc "juke-fb" needed) fd;
                              EvCall (ErrorReport
                                "juke-shmem: failed to allocate shared memory") 0])) /\
    (0 <= fd ->
     exists d b tr,
       memcpy (pixels (fresh_region needed)) 0 (surface_data surf) 0 n = Some d /\
       juke_shmem_gfx_switch host (Some surf) s t =
         Done (tt,
               set_fd_sent b
                 (set_shmem (Some (switched_region surf (fresh_region needed) d))
                    (set_shmem_fd fd s1)),
               t ++ freed s ++ [EvCall (MemfdAlloc "juke-fb" needed) fd]
                 ++ switch_events surf ++ tr) /\
       forallb is_call tr = true /\
       forallb (fun e => negb (is_alloc_or_free e)) tr = true /\
       forallb (fun e => negb (is_input_call e)) tr = true).
Proof.
  intros Hsurf Hok Hcmp needed n fd.
  destruct (needed_size_model surf Hsurf) as (E1 & E2 & E3 & Hn0).
  fold n in E1, E2, E3, Hn0. fold needed in E2, E3.
  assert (Hfree : exists s1,
    (match shmem (set_surface (Some surf) s) with
     | Some _ =>
         bind (notify (MemfdFree (shmem_size (set_surface (Some surf) s))
                         (shmem_fd (set_surface (Some surf) s))))
           (fun _ => bind (modify (set_shmem None))
              (fun _ => bind (modify (set_shmem_fd (-1)))
                 (fun _ => modify (set_fd_sent false))))
     | None => ret tt
     end) (set_surface (Some surf) s) t = Done (tt, s1, t ++ freed s) /\
    shmem s1 = None /\ fd_sent s1 = false /\ surface s1 = Some surf /\
    shmem_fd s1 < 0 /\ client_fd s1 = client_fd s /\
    con_cursor s1 = con_cursor s /\ socket_path s1 = socket_path s).
  { unfold freed, display_ok in *. cbn [shmem set_surface].
    destruct (shmem s) as [r|] eqn:Hr.
    - eexists. split; [reflexivity|]. cbn. repeat split; lia.
    - destruct Hok as (_ & Hfd0 & Hsent).
      exists (set_surface (Some surf) s). unfold ret. rewrite app_nil_r.
      cbn. auto 10. }
  destruct Hfree as (s1 & Hrun1 & Hs1 & Hsent1 & Hsf1 & Hfd1 & Hcl1 & Hcon1 & Hpath1).
  exists (set_shmem_size needed s1).
  split; [exact Hs1|]. split; [exact Hsent1|]. split; [exact Hsf1|].
  split; [reflexivity|]. split; [exact Hfd1|]. split; [exact Hcl1|].
  split; [exact Hcon1|]. split; [exact Hpath1|].
  unfold juke_shmem_gfx_switch.
  rewrite (bind_Done (modify _) _ s t tt (set_surface (Some surf) s) t eq_refl).
  rewrite (bind_Done get _ _ _ _ _ _ eq_refl).
  fold n. rewrite E1. fold n. rewrite E2.
  cbn [shmem_size set_surface].
  fold needed in Hcmp.
  rewrite Z.gtb_ltb, (proj2 (Z.ltb_lt _ _) Hcmp).
  rewrite (bind_Done _ _ _ _ _ _ _ Hrun1).
  rewrite (bind_Done (modify _) _ _ _ tt _ _ eq_refl).
  split.
  - intros Hfd. unfold bind at 1. unfold call at 1. fold fd.
    rewrite (proj2 (Z.ltb_lt fd 0)) by lia.
    unfold notify, emit. rewrite <- !app_assoc. cbn [app]. reflexivity.
  - intros Hfd. unfold bind at 1. unfold call at 1. fold fd.
    rewrite (proj2 (Z.ltb_ge fd 0)) by lia.
    rewrite (bind_Done (modify _) _ _ _ tt _ _ eq_refl).
    rewrite (bind_Done (modify _) _ _ _ tt _ _ eq_refl).
    edestruct (gfx_switch_fill_run host surf) as (d & Hm & Hfill);
      [| exact Hsurf | | rewrite Hfill].
    { reflexivity. }
    { cbn [pixels fresh_region]. rewrite length_replicate. fold n. lia. }
    clear Hfill. fold n in Hm.
    match goal with
    | |- context [when _ _ ?s2 ?t2] =>
        destruct (send_tail_run host s2 t2)
          as (b & tr & Hrun2 & _ & _ & Hcalls & Hnoalloc & Hnoinput)
    end.
    cbn [client_fd fd_sent set_shmem set_shmem_fd set_shmem_size shmem_fd] in Hrun2 |- *.
    rewrite Hrun2.
    exists d, b, tr. rewrite <- !app_assoc. cbn [app].
    split; [exact Hm|]. split; [reflexivity|]. auto.
Qed.

(** X15.  When the allocator fails, [juke_shmem_gfx_switch] reports it and
    returns without a region, but it has already recorded the size it asked
    for as the capacity.  The next switch to a surface that needs no more
    than that (the same surface, say) therefore skips the allocation and
    writes the header through the null pointer. *)
Theorem gfx_switch_retry_after_failed_alloc (host : Host Loc) s surf t :
  surface_ok surf -> display_ok s -> shmem_size s < needed_size surf ->
  host (t ++ freed s) (MemfdAlloc "juke-fb" (needed_size surf)) < 0 ->
  exists s1 t1,
    juke_shmem_gfx_switch host (Some surf) s t = Done (tt, s1, t1) /\
    shmem s1 = None /\ shmem_size s1 = needed_size surf /\
    forall (host' : Host Loc) surf2 t',
      surface_ok surf2 -> needed_size surf2 <= needed_size surf ->
      juke_shmem_gfx_switch host' (Some surf2) s1 t' = Fault.
Proof.
  intros Hsurf Hok Hcmp Hfd.
  destruct (gfx_switch_realloc_run host s surf t Hsurf Hok Hcmp)
    as (s1 & Hs1 & _ & _ & Hsz & _ & _ & _ & _ & Hfail & _).
  eexists s1, _. split; [exact (Hfail Hfd)|]. split; [exact Hs1|].
  split; [exact Hsz|].
  intros host' surf2 t' Hsurf2 Hle.
  apply gfx_switch_after_failed_alloc; [exact Hs1|exact Hsurf2|].
  rewrite Hsz. exact Hle.
Qed.

Lemma gfx_switch_retry_after_failed_alloc_witness :
  exists s1 t1,
    juke_shmem_gfx_switch deaf_host (Some pixel_surface) (new_state None) []
      = Done (tt, s1, t1) /\
    shmem s1 = None /\ shmem_size s1 = needed_size pixel_surface /\
    juke_shmem_gfx_switch alloc_host (Some pixel_surface) s1 t1 = Fault.
Proof.
  destruct (gfx_switch_retry_after_failed_alloc deaf_host (new_state None)
              pixel_surface [] pixel_surface_ok (new_state_ok None))
    as (s1 & t1 & Hrun & Hs & Hsz & Hretry).
  - vm_compute. reflexivity.
  - vm_compute. reflexivity.
  - exists s1, t1. split; [exact Hrun|]. split; [exact Hs|]. split; [exact Hsz|].
    apply Hretry; [exact pixel_surface_ok|lia].
Defined.

(** ** [juke_shmem_refresh] *)

Lemma drained_same r :
  input_ring_ok (ring r) -> pending_count (ring r) = 0 -> drained r = r.
Proof.
  intros (Hw & Hr & _) H0.
  pose proof (pending_count_0 (ring r) Hw Hr) as E. rewrite H0 in E.
  symmetry in E. apply Z.eqb_eq in E.
  unfold drained. rewrite E. reflexivity.
Qed.


(** The whole of a drain that has the fuel it needs. *)
Lemma process_input_run s r t fuel :
  shmem s = Some r -> input_ring_ok (ring r) ->
  (Z.to_nat (pending_count (ring r)) <= fuel)%nat ->
  juke_shmem_process_input fuel s t =
    Done (tt, set_shmem (Some (drained r)) s, t ++ drain_events r).
Proof.
  intros Hr Hok Hfuel. pose proof Hok as (Hw & Hrd & Hlen).
  set (g := ring r) in *.
  unfold juke_shmem_process_input.
  rewrite (bind_Done _ _ _ _ _ _ _ (the_region_run s r t Hr)).
  unfold bind at 1. unfold emit at 1. fold g.
  pose proof (wrap32_range (write_idx g - read_idx g)) as Hn.
  rewrite (bind_Done _ _ _ _ _ _ _
             (drain_run (Z.to_nat (pending_count g)) fuel (read_idx g) (write_idx g)
                s r _ Hr Hlen Hrd Hw
                ltac:(unfold pending_count; rewrite Z2Nat.id; [reflexivity|lia])
                Hfuel)).
  rewrite (bind_Done _ _ _ _ _ _ _ (the_region_run s r _ Hr)).
  fold g. unfold drain_events. fold g. rewrite (pending_count_0 g Hw Hrd).
  destruct (write_idx g =? read_idx g) eqn:E; cbn [negb].
  - unfold ret. rewrite app_nil_r, <- app_assoc.
    rewrite drained_same; [|exact Hok|].
    + rewrite (set_shmem_same s r Hr). reflexivity.
    + fold g. apply Z.eqb_eq. rewrite (pending_count_0 g Hw Hrd). exact E.
  - unfold bind at 1. unfold notify at 1, emit at 1.
    rewrite (bind_Done _ _ _ _ _ _ _ (modify_region_run _ s r _ Hr)).
    unfold emit. rewrite (wrap32_small (write_idx g)) by exact Hw.
    rewrite <- !app_assoc. reflexivity.
Qed.

(** The offer of the descriptor in a refresh. *)
Lemma refresh_send_run (host : Host Loc) s t :
  exists b tr,
    when ((0 <=? client_fd s) && (0 <=? shmem_fd s) && negb (fd_sent s))
      (juke_shmem_send_fd host) s t = Done (tt, set_fd_sent b s, t ++ tr) /\
    forallb is_call tr = true /\
    forallb (fun e => negb (is_input_call e)) tr = true /\
    Forall refresh_event tr /\
    (fd_sent s = true -> b = true /\ tr = []) /\
    (b = true -> fd_sent s = true \/ 0 <= shmem_fd s) /\
    ((forall sock fd u, 0 <= host u (Sendmsg sock fd)) ->
     0 <= client_fd s -> 0 <= shmem_fd s -> b = true).
Proof.
  assert (Hsame : set_fd_sent (fd_sent s) s = s) by reflexivity.
  destruct (fd_sent s) eqn:Hsent.
  { exists true, []. rewrite andb_false_r, app_nil_r, Hsame. cbn [when]. unfold ret.
    split; [reflexivity|]. split; [reflexivity|]. split; [reflexivity|].
    split; [constructor|]. auto. }
  rewrite andb_true_r.
  destruct (0 <=? client_fd s) eqn:Hc; bool_hyps; cbn [andb].
  2:{ exists false, []. rewrite app_nil_r, Hsame. cbn [when]. unfold ret.
      split; [reflexivity|]. split; [reflexivity|]. split; [reflexivity|].
      split; [constructor|]. split; [intros [=]|]. split; [intros [=]|].
      intros; lia. }
  destruct (0 <=? shmem_fd s) eqn:Hf; bool_hyps; cbn [when].
  2:{ exists false, []. rewrite app_nil_r, Hsame. unfold ret.
      split; [reflexivity|]. split; [reflexivity|]. split; [reflexivity|].
      split; [constructor|]. split; [intros [=]|]. split; [intros [=]|].
      intros; lia. }
  destruct (Z_lt_dec (host t (Sendmsg (client_fd s) (shmem_fd s))) 0) as [Ha|Ha].
  - eexists false, _. rewrite Hsame.
    rewrite juke_shmem_send_fd_fail by (try assumption; lia).
    split; [reflexivity|]. split; [reflexivity|]. split; [reflexivity|].
    split; [repeat constructor|]. split; [intros [=]|]. split; [intros [=]|].
    intros Hacc _ _. specialize (Hacc (client_fd s) (shmem_fd s) t). lia.
  - eexists true, _.
    rewrite juke_shmem_send_fd_ok by (try assumption; lia).
    split; [reflexivity|]. split; [reflexivity|]. split; [reflexivity|].
    split; [repeat constructor|]. split; [intros [=]|]. auto.
Qed.

Lemma dispatch_calls_refresh h ev : Forall refresh_event (dispatch_calls h ev).
Proof.
  unfold dispatch_calls.
  repeat match goal with
  | |- context [if ?c then _ else _] => destruct c
  end; repeat constructor.
Qed.

Lemma drain_events_refresh r : Forall refresh_event (drain_events r).
Proof.
  unfold drain_events. apply Forall_app. split; [repeat constructor|].
  apply Forall_app. split.
  - induction (pending (ring r)) as [|ev l IH]; [constructor|].
    cbn [map concat]. apply Forall_app. split; [apply dispatch_calls_refresh|exact IH].
  - destruct (_ =? _); repeat constructor.
Qed.

(** The whole of a refresh. *)
Lemma refresh_run (host : Host Loc) fuel s t :
  refresh_ready s fuel ->
  exists s' hs,
    juke_shmem_refresh host fuel s t =
      Done (tt, s',
            t ++ hs ++ match shmem s with Some r => drain_events r | None => [] end
              ++ [EvCall GraphicHwUpdate 0]) /\
    forallb is_call hs = true /\
    forallb (fun e => negb (is_input_call e)) hs = true /\
    Forall refresh_event hs /\
    refreshed s s' /\
    (fd_sent s' = true -> fd_sent s = true \/ 0 <= shmem_fd s) /\
    (0 <= client_fd s -> fd_sent s = true ->
     hs = [] /\ client_fd s' = client_fd s /\ fd_sent s' = true) /\
    (listening host -> socket_path s <> None \/ 0 <= client_fd s ->
     0 <= shmem_fd s -> 0 <= client_fd s' /\ fd_sent s' = true).
Proof.
  intros Hready. unfold juke_shmem_refresh.
  rewrite (bind_Done get _ s t s s t) by reflexivity.
  (* the connection *)
  assert (H1 : exists sa tra,
    when ((client_fd s <? 0) && bool_decide (socket_path s <> None))
      (let! _ := juke_shmem_connect host in ret tt) s t = Done (tt, sa, t ++ tra) /\
    forallb is_call tra = true /\
    forallb (fun e => negb (is_input_call e)) tra = true /\
    Forall refresh_event tra /\
    con_cursor sa = con_cursor s /\ surface sa = surface s /\
    shmem sa = shmem s /\ shmem_size sa = shmem_size s /\
    shmem_fd sa = shmem_fd s /\ socket_path sa = socket_path s /\
    (fd_sent sa = true -> fd_sent s = true \/ 0 <= shmem_fd s) /\
    (0 <= client_fd s -> sa = s /\ tra = []) /\
    (listening host -> socket_path s <> None \/ 0 <= client_fd s ->
     0 <= client_fd sa)).
  { destruct (client_fd s <? 0) eqn:Hc; bool_hyps; cbn [andb].
    2:{ exists s, []. rewrite app_nil_r. cbn [when]. unfold ret.
        split; [reflexivity|]. split; [reflexivity|]. split; [reflexivity|].
        split; [constructor|]. do 6 (split; [reflexivity|]).
        split; [auto|]. split; [auto|]. intros; lia. }
    destruct (bool_decide (socket_path s <> None)) eqn:Hp; cbn [when].
    2:{ apply bool_decide_eq_false in Hp.
        exists s, []. rewrite app_nil_r. unfold ret.
        split; [reflexivity|]. split; [reflexivity|]. split; [reflexivity|].
        split; [constructor|]. do 6 (split; [reflexivity|]).
        split; [auto|]. split; [auto|].
        intros _ [H|H]; [contradiction|lia]. }
    apply bool_decide_eq_true in Hp.
    destruct (juke_shmem_connect_run host s t)
      as (rc & sa & tra & Hrun & Hcalls & _ & Hnoin & Hev & Hlis & Hcc & Hsf & Hsh
          & Hsz & Hfd & Hpath & Hcase).
    exists sa, tra. rewrite (bind_Done _ _ _ _ _ _ _ Hrun). unfold ret.
    split; [reflexivity|]. split; [exact Hcalls|]. split; [exact Hnoin|].
    split; [exact Hev|].
    split; [exact Hcc|]. split; [exact Hsf|]. split; [exact Hsh|].
    split; [exact Hsz|]. split; [exact Hfd|]. split; [exact Hpath|].
    split.
    { destruct Hcase as [(_ & -> & _)|(_ & _ & _ & _ & _ & H6 & _)]; auto. }
    split; [intros; lia|].
    intros Hlisten _. specialize (Hlis Hlisten Hp).
    destruct Hcase as [(E & _)|(_ & _ & _ & H4 & _)]; [lia|exact H4]. }
  destruct H1 as (sa & tra & Hrun1 & Hcalls1 & Hnoin1 & Hev1 & Hcc1 & Hsf1 & Hsh1
                  & Hsz1 & Hfd1 & Hpath1 & Hsent1 & Hidle1 & Hlis1).
  rewrite (bind_Done _ _ _ _ _ _ _ Hrun1).
  rewrite (bind_Done get _ _ _ _ _ _ eq_refl).
  (* the descriptor *)
  destruct (refresh_send_run host sa (t ++ tra))
    as (b & trb & Hrun2 & Hcalls2 & Hnoin2 & Hev2 & Hsent2 & Hb2 & Hlis2).
  rewrite (bind_Done _ _ _ _ _ _ _ Hrun2).
  rewrite (bind_Done get _ _ _ _ _ _ eq_refl).
  cbn [shmem set_fd_sent]. rewrite Hsh1.
  assert (Htail : forall s2 r,
    shmem s2 = Some r -> shmem s = Some r ->
    (do! juke_shmem_process_input fuel in notify GraphicHwUpdate) s2 ((t ++ tra) ++ trb)
    = Done (tt, set_shmem (Some (drained r)) s2,
            t ++ (tra ++ trb) ++ drain_events r ++ [EvCall GraphicHwUpdate 0])).
  { intros s2 r Hr2 Hr. unfold refresh_ready in Hready. rewrite Hr in Hready.
    destruct Hready as (Hok & Hfuel).
    rewrite (bind_Done _ _ _ _ _ _ _ (process_input_run s2 r _ fuel Hr2 Hok Hfuel)).
    unfold notify, emit. rewrite <- !app_assoc. reflexivity. }
  assert (Hcommon :
    forallb is_call (tra ++ trb) = true /\
    forallb (fun e => negb (is_input_call e)) (tra ++ trb) = true /\
    Forall refresh_event (tra ++ trb)).
  { rewrite !forallb_app, Hcalls1, Hcalls2, Hnoin1, Hnoin2.
    split; [reflexivity|]. split; [reflexivity|]. apply Forall_app. auto. }
  destruct Hcommon as (Hc & Hn & He).
  assert (Hfacts :
    (b = true -> fd_sent s = true \/ 0 <= shmem_fd s) /\
    (0 <= client_fd s -> fd_sent s = true ->
     tra ++ trb = [] /\ client_fd sa = client_fd s /\ b = true) /\
    (listening host -> socket_path s <> None \/ 0 <= client_fd s ->
     0 <= shmem_fd s -> 0 <= client_fd sa /\ b = true)).
  { split.
    { intros Hb. destruct (Hb2 Hb) as [H|H]; [auto|rewrite <- Hfd1; auto]. }
    split.
    { intros Hcl Hse. destruct (Hidle1 Hcl) as (-> & ->).
      destruct (Hsent2 Hse) as (-> & ->). auto. }
    intros Hl Hor Hfd. specialize (Hlis1 Hl Hor). split; [exact Hlis1|].
    apply Hlis2; [|exact Hlis1|rewrite Hfd1; exact Hfd].
    intros sock fd u. destruct (Hl u) as (_ & _ & H). apply H. }
  destruct Hfacts as (F1 & F2 & F3).
  destruct (shmem s) as [r|] eqn:Hr.
  - rewrite bool_decide_eq_true_2 by discriminate. cbn [when].
    rewrite (Htail (set_fd_sent b sa) r ltac:(exact Hsh1) eq_refl).
    eexists _, (tra ++ trb). split; [reflexivity|].
    split; [exact Hc|]. split; [exact Hn|]. split; [exact He|].
    split. { unfold refreshed. cbn. rewrite Hr. cbn. auto 10. }
    split; [exact F1|]. split; [exact F2|exact F3].
  - rewrite bool_decide_eq_false_2 by (intros H; apply H; reflexivity). cbn [when].
    unfold bind, ret, notify, emit.
    eexists _, (tra ++ trb). split.
    { rewrite <- !app_assoc. reflexivity. }
    split; [exact Hc|]. split; [exact Hn|]. split; [exact He|].
    split. { unfold refreshed. cbn. rewrite Hr. cbn. auto 10. }
    split; [exact F1|]. split; [exact F2|exact F3].
Qed.

(** X16.  A refresh whose input ring is in order, given fuel for the
    events that wait, always completes.  It first tries the handshake
    (host calls only, none of them into the input sink), then drains the
    ring, and asks the guest for an update as its very last step, once.  Of
    the state it changes the connection ([client_fd], [fd_sent]) and the
    [read_idx] of the ring, which catches up with [write_idx]; the header,
    the cursor slot and the pixels are not written. *)
Theorem refresh_polls (host : Host Loc) fuel s t :
  refresh_ready s fuel ->
  exists s' hs,
    let input := match shmem s with Some r => drain_events r | None => [] end in
    juke_shmem_refresh host fuel s t =
      Done (tt, s', t ++ (hs ++ input) ++ [EvCall GraphicHwUpdate 0]) /\
    forallb is_call hs = true /\
    forallb (fun e => negb (is_input_call e)) hs = true /\
    Forall refresh_event (hs ++ input) /\
    refreshed s s'.
Proof.
  intros Hready.
  destruct (refresh_run host fuel s t Hready)
    as (s' & hs & Hrun & Hc & Hn & He & Hr & _).
  exists s', hs. cbv zeta. rewrite <- app_assoc.
  split; [exact Hrun|]. split; [exact Hc|]. split; [exact Hn|].
  split; [|exact Hr].
  apply Forall_app. split; [exact He|].
  destruct (shmem s); [apply drain_events_refresh|constructor].
Qed.

Lemma pixel_state_ready fc cv w rd fuel :
  0 <= w < 2 ^ 32 -> 0 <= rd < 2 ^ 32 -> (Z.to_nat (wrap32 (w - rd)) <= fuel)%nat ->
  refresh_ready (pixel_state fc cv w rd) fuel.
Proof.
  intros Hw Hrd Hfuel. unfold refresh_ready. cbn [shmem pixel_state].
  split; [|exact Hfuel]. repeat split; cbn; lia.
Qed.

Lemma refresh_polls_witness :
  exists s' hs,
    juke_shmem_refresh alloc_host 3 (pixel_state 0 0 3 0) [] =
      Done (tt, s',
            [] ++ (hs ++ drain_events (pixel_region 0 0 3 0))
               ++ [EvCall GraphicHwUpdate 0]) /\
    refreshed (pixel_state 0 0 3 0) s'.
Proof.
  destruct (refresh_polls alloc_host 3 (pixel_state 0 0 3 0) [])
    as (s' & hs & Hrun & _ & _ & _ & Hr).
  - apply pixel_state_ready; [lia|lia|]. vm_compute. lia.
  - exists s', hs. split; [exact Hrun|exact Hr].
Defined.




(** ** The display as a whole *)

(** The row loop of an update keeps the size of the pixel buffer. *)
Lemma copy_rows_state_len src stride (l : list Z) : forall s r t s' t',
  shmem s = Some r ->
  for_each l (fun row => pixels_memcpy (int32 (row * stride)) src
                           (int32 (row * stride)) (wrap64 stride)) s t
    = Done (tt, s', t') ->
  exists d, s' = set_shmem (Some (set_pixels d r)) s /\ length d = length (pixels r).
Proof.
  induction l as [|row l IH]; intros s r t s' t' Hr Hrun.
  - cbn in Hrun. injection Hrun as <- _. exists (pixels r).
    split; [|reflexivity]. symmetry. apply set_shmem_same. exact Hr.
  - cbn [for_each] in Hrun. unfold bind at 1 in Hrun.
    unfold pixels_memcpy at 1 in Hrun.
    rewrite (bind_Done _ _ _ _ _ _ _ (the_region_run s r t Hr)) in Hrun.
    destruct (memcpy _ _ _ _ _) as [d1|] eqn:Hm; [|discriminate].
    rewrite (bind_Done _ _ _ _ _ _ _ (modify_region_run _ s r t Hr)) in Hrun.
    unfold emit in Hrun.
    apply (IH _ (set_pixels d1 r)) in Hrun; [|reflexivity].
    destruct Hrun as (d & -> & Hlen). exists d. split; [reflexivity|].
    rewrite Hlen. cbn. eapply memcpy_length. exact Hm.
Qed.

(** The row loop of a cursor definition keeps the size of the slot. *)
Lemma copy_cursor_state_len src cw w (l : list Z) : forall s r t s' t',
  shmem s = Some r ->
  for_each l (fun y => cursor_memcpy (wrap32 (y * JUKE_CURSOR_MAX_SIZE)) src
                         (wrap32 (y * cw)) w) s t
    = Done (tt, s', t') ->
  exists d, s' = set_shmem (Some (set_cursor_data d r)) s /\
            length d = length (cursor_data r).
Proof.
  induction l as [|row l IH]; intros s r t s' t' Hr Hrun.
  - cbn in Hrun. injection Hrun as <- _. exists (cursor_data r).
    split; [|reflexivity]. symmetry. apply set_shmem_same. exact Hr.
  - cbn [for_each] in Hrun. unfold bind at 1 in Hrun.
    unfold cursor_memcpy at 1 in Hrun.
    rewrite (bind_Done _ _ _ _ _ _ _ (the_region_run s r t Hr)) in Hrun.
    destruct (memcpy _ _ _ _ _) as [d1|] eqn:Hm; [|discriminate].
    rewrite (bind_Done _ _ _ _ _ _ _ (modify_region_run _ s r t Hr)) in Hrun.
    unfold emit in Hrun.
    apply (IH _ (set_cursor_data d1 r)) in Hrun; [|reflexivity].
    destruct Hrun as (d & -> & Hlen). exists d. split; [reflexivity|].
    rewrite Hlen. cbn. eapply memcpy_length. exact Hm.
Qed.

(** A drain that completes has moved [read_idx] to a 32-bit value, or
    nothing. *)
Lemma process_input_state fuel s r t s' t' :
  shmem s = Some r ->
  juke_shmem_process_input fuel s t = Done (tt, s', t') ->
  s' = s \/
  exists rd, 0 <= rd < 2 ^ 32 /\
    s' = set_shmem (Some (set_ring (set_read_idx rd (ring r)) r)) s.
Proof.
  intros Hr. unfold juke_shmem_process_input.
  rewrite (bind_Done _ _ _ _ _ _ _ (the_region_run s r t Hr)).
  unfold bind at 1. unfold emit at 1. unfold bind at 1.
  destruct (drain _ _ _ _ _) as [[[res s1] t1]| |] eqn:Hdrain; try discriminate.
  destruct (drain_state _ _ _ _ _ _ _ _ _ Hr Hdrain) as (-> & ->).
  rewrite (bind_Done _ _ _ _ _ _ _ (the_region_run s r t1 Hr)).
  destruct (negb _).
  - unfold bind at 1. unfold notify at 1, emit at 1.
    rewrite (bind_Done _ _ _ _ _ _ _ (modify_region_run _ s r _ Hr)).
    unfold emit. intros [= <- _]. right. eexists. split; [apply wrap32_range|].
    reflexivity.
  - intros [= <- _]. left. reflexivity.
Qed.

Lemma overhead_pos : 0 < region_overhead.
Proof. reflexivity. Qed.

(** The parts of the invariant that do not mention the region or the
    connection. *)
Lemma display_inv_intro s :
  display_ok s ->
  match con_cursor s with Some c => cursor_ok c | None => True end ->
  match surface s with Some surf => surface_ok surf | None => True end ->
  match shmem s with
  | Some r =>
      length (cursor_data r) = Z.to_nat JUKE_CURSOR_MAX_PIXELS /\
      length (events (ring r)) = Z.to_nat JUKE_INPUT_RING_SIZE /\
      0 <= read_idx (ring r) < 2 ^ 32 /\ 0 <= write_idx (ring r) < 2 ^ 32 /\
      match surface s with
      | Some surf =>
          describes r surf /\
          surface_stride surf * surface_height surf <= Z.of_nat (length (pixels r))
      | None => True
      end
  | None => True
  end ->
  display_inv s.
Proof. unfold display_inv. auto. Qed.

(** The connection does not matter to the invariant, as long as nothing is
    marked sent without a region. *)
Lemma display_inv_socket s s' :
  display_inv s ->
  con_cursor s' = con_cursor s -> surface s' = surface s -> shmem s' = shmem s ->
  shmem_size s' = shmem_size s -> shmem_fd s' = shmem_fd s ->
  (fd_sent s' = true -> fd_sent s = true \/ 0 <= shmem_fd s) ->
  display_inv s'.
Proof.
  intros (Hok & Hc & Hsf & Hreg) E1 E2 E3 E4 E5 Hsent.
  unfold display_inv, display_ok in *. rewrite E1, E2, E3, E4, E5.
  split; [|auto].
  destruct (shmem s); [exact Hok|].
  destruct Hok as (H1 & H2 & H3). split; [exact H1|]. split; [exact H2|].
  destruct (fd_sent s') eqn:E; [|reflexivity].
  destruct (Hsent eq_refl) as [H|H]; [congruence|lia].
Qed.

(** A change of the region that keeps the sizes and what the header says
    of the surface. *)
Lemma display_inv_region s r r' :
  display_inv s -> shmem s = Some r ->
  length (pixels r') = length (pixels r) ->
  length (cursor_data r') = length (cursor_data r) ->
  length (events (ring r')) = length (events (ring r)) ->
  0 <= read_idx (ring r') < 2 ^ 32 -> 0 <= write_idx (ring r') < 2 ^ 32 ->
  magic (hdr r') = magic (hdr r) -> version (hdr r') = version (hdr r) ->
  width (hdr r') = width (hdr r) -> height (hdr r') = height (hdr r) ->
  stride (hdr r') = stride (hdr r) -> format (hdr r') = format (hdr r) ->
  display_inv (set_shmem (Some r') s).
Proof.
  intros (Hok & Hc & Hsf & Hreg) Hr Lp Lc Le Hrd Hw E1 E2 E3 E4 E5 E6.
  unfold display_inv, display_ok in *. rewrite Hr in Hok, Hreg.
  cbn [shmem set_shmem shmem_size con_cursor surface].
  rewrite Lp, Lc, Le.
  destruct Hreg as (G1 & G2 & G3 & G4 & G5).
  split; [exact Hok|]. split; [exact Hc|]. split; [exact Hsf|].
  split; [exact G1|]. split; [exact G2|]. split; [exact Hrd|]. split; [exact Hw|].
  destruct (surface s); [|exact I].
  destruct G5 as (D & Hcap). split; [|exact Hcap].
  unfold describes in *. rewrite E1, E2, E3, E4, E5, E6. exact D.
Qed.

Section Invariant.
Variable host : Host Loc.
Hypothesis Halloc : alloc_succeeds host.

Lemma switched_inv s surf r0 d fd b :
  surface_ok surf ->
  match con_cursor s with Some c => cursor_ok c | None => True end ->
  length (cursor_data r0) = Z.to_nat JUKE_CURSOR_MAX_PIXELS ->
  length (events (ring r0)) = Z.to_nat JUKE_INPUT_RING_SIZE ->
  length d = length (pixels r0) ->
  shmem_size s = region_overhead + Z.of_nat (length (pixels r0)) ->
  shmem_size s < 2 ^ 64 ->
  surface_stride surf * surface_height surf <= Z.of_nat (length (pixels r0)) ->
  display_inv
    (set_fd_sent b (set_shmem (Some (switched_region surf r0 d))
                      (set_shmem_fd fd (set_surface (Some surf) s)))).
Proof.
  intros Hsurf Hc Lc Le Ld Hsz H64 Hcap.
  apply display_inv_intro; cbn.
  - unfold display_ok. cbn. rewrite Ld. auto.
  - exact Hc.
  - exact Hsurf.
  - rewrite Ld. repeat split; auto; lia.
Qed.

Lemma run_op_inv op s t s' t' :
  op_ok op -> display_inv s ->
  run_op host op s t = Done (tt, s', t') -> display_inv s'.
Proof.
  intros Hop Hinv Hrun.
  destruct op as [x y w h|[surf|]|fuel| |x y on]; cbn [run_op op_ok] in Hrun, Hop.
  - (* gfx_update *)
    unfold juke_shmem_gfx_update in Hrun.
    rewrite (bind_Done get _ s t s s t eq_refl) in Hrun.
    destruct (shmem s) as [r|] eqn:Hr; [|injection Hrun as <- _; exact Hinv].
    destruct (surface s) as [surf|]; [|injection Hrun as <- _; exact Hinv].
    unfold bind at 1 in Hrun.
    destruct (for_each _ _ _ _) as [[[[] s1] t1]| |] eqn:Hloop; try discriminate.
    destruct (copy_rows_state_len _ _ _ _ _ _ _ _ Hr Hloop) as (d & -> & Hlen).
    do 4 (erewrite (bind_Done (store _ _)) in Hrun;
          [|eapply store_run; reflexivity]; norm_state in Hrun).
    erewrite atomic_fetch_add_run in Hrun by reflexivity.
    injection Hrun as <- _.
    destruct Hinv as (Hok & Hc & Hsf & Hreg). pose proof Hreg as Hreg'.
    rewrite Hr in Hreg'. destruct Hreg' as (G1 & G2 & G3 & G4 & _).
    match goal with |- display_inv (set_shmem (Some ?r') _) =>
      change (display_inv (set_shmem (Some r') s)) end.
    eapply (display_inv_region s r);
      [unfold display_inv; eauto|exact Hr|..]; try reflexivity; assumption.
  - (* gfx_switch to a surface *)
    pose proof Hinv as (Hok & Hc & Hsf & Hreg).
    destruct (needed_size_model surf Hop) as (_ & _ & E3 & Hn0).
    destruct (Z_le_dec (needed_size surf) (shmem_size s)) as [Hfit|Hbig].
    + destruct (shmem s) as [r|] eqn:Hr.
      2:{ exfalso. unfold display_ok in Hok. rewrite Hr in Hok.
          pose proof overhead_pos. lia. }
      destruct (gfx_switch_kept_run host s r surf t Hr Hop Hok Hfit)
        as (d & b & tr & Hm & Hrun2 & _).
      rewrite Hrun in Hrun2. injection Hrun2 as -> _.
      pose proof (memcpy_length _ _ _ _ _ _ Hm) as Ld.
      destruct Hreg as (G1 & G2 & _).
      unfold display_ok in Hok. rewrite Hr in Hok. destruct Hok as (Hsz & H64).
      change (set_fd_sent b (set_shmem (Some (switched_region surf r d))
                               (set_surface (Some surf) s)))
        with (set_fd_sent b (set_shmem (Some (switched_region surf r d))
                (set_shmem_fd (shmem_fd s) (set_surface (Some surf) s)))).
      apply switched_inv; auto. lia.
    + destruct (gfx_switch_realloc_run host s surf t Hop Hok ltac:(lia))
        as (s1 & Hs1 & Hsent1 & Hsf1 & Hsz1 & Hfd1 & Hcl1 & Hcon1 & Hpath1 & _ & Hgood).
      destruct (Hgood (Halloc _ _ _)) as (d & b & tr & Hm & Hrun2 & _).
      rewrite Hrun in Hrun2. injection Hrun2 as -> _.
      pose proof (memcpy_length _ _ _ _ _ _ Hm) as Ld.
      assert (Hpl : Z.of_nat (length (pixels (fresh_region (needed_size surf))))
                    = surface_stride surf * surface_height surf).
      { cbn [pixels fresh_region]. rewrite length_replicate. lia. }
      apply display_inv_intro; cbn.
      * unfold display_ok. cbn. rewrite Ld, Hsz1, Hpl.
        split; [lia|]. destruct Hop as (_ & _ & _ & Hn & _).
        unfold INT_MAX in Hn. unfold region_overhead in E3.
        change sizeof_JukeShmemHeader with 80 in E3.
        change JUKE_CURSOR_DATA_SIZE with 16384 in E3.
        change sizeof_JukeInputRing with 3088 in E3.
        change (2 ^ 64) with 18446744073709551616.
        change (2 ^ 31 - 1) with 2147483647 in Hn. lia.
      * rewrite Hcon1. exact Hc.
      * rewrite Hsf1. exact Hop.
      * rewrite Hsf1, Ld. rewrite !length_replicate.
        repeat split; auto; lia.
  - (* gfx_switch to no surface *)
    unfold juke_shmem_gfx_switch in Hrun.
    rewrite (bind_Done (modify _) _ s t tt _ t eq_refl) in Hrun.
    injection Hrun as <- _.
    destruct Hinv as (Hok & Hc & Hsf & Hreg).
    apply display_inv_intro; cbn; auto.
    destruct (shmem s); [|exact I]. tauto.
  - (* refresh *)
    unfold juke_shmem_refresh in Hrun.
    rewrite (bind_Done get _ s t s s t eq_refl) in Hrun.
    unfold bind at 1 in Hrun.
    destruct (when _ _ s t) as [[[[] s1] t1]| |] eqn:H1; try discriminate.
    assert (I1 : display_inv s1).
    { match type of H1 with when ?c _ _ _ = _ => destruct c end; cbn [when] in H1.
      - destruct (juke_shmem_connect_run host s t)
          as (rc & sa & tra & Hc & _ & _ & _ & _ & _ & E1 & E2 & E3 & E4 & E5 & _ & Hcase).
        rewrite (bind_Done _ _ _ _ _ _ _ Hc) in H1. injection H1 as <- _.
        eapply display_inv_socket; eauto.
        destruct Hcase as [(_ & -> & _)|(_ & _ & _ & _ & _ & H6 & _)]; auto.
      - injection H1 as <- _. exact Hinv. }
    rewrite (bind_Done get _ s1 t1 s1 s1 t1 eq_refl) in Hrun.
    destruct (refresh_send_run host s1 t1) as (b & trb & Hrun2 & _ & _ & _ & _ & Hb & _).
    rewrite (bind_Done _ _ _ _ _ _ _ Hrun2) in Hrun.
    assert (I2 : display_inv (set_fd_sent b s1)).
    { eapply display_inv_socket; eauto. }
    rewrite (bind_Done get _ _ _ _ _ _ eq_refl) in Hrun.
    unfold bind at 1 in Hrun.
    destruct (when _ _ (set_fd_sent b s1) _) as [[[[] s3] t3]| |] eqn:H3;
      try discriminate.
    unfold notify, emit in Hrun. injection Hrun as <- _.
    match type of H3 with when ?c _ _ _ = _ => destruct c eqn:Hc3 end;
      cbn [when] in H3; [|injection H3 as <- _; exact I2].
    destruct (shmem (set_fd_sent b s1)) as [r|] eqn:Hr.
    2:{ apply bool_decide_eq_true in Hc3. contradiction. }
    destruct (process_input_state _ _ _ _ _ _ Hr H3) as [->|(rd & Hrd & ->)];
      [exact I2|].
    pose proof I2 as (_ & _ & _ & Hreg). rewrite Hr in Hreg.
    destruct Hreg as (G1 & G2 & G3 & G4 & _).
    eapply display_inv_region; [exact I2|exact Hr|..]; try reflexivity; assumption.
  - (* cursor_define *)
    unfold juke_shmem_cursor_define in Hrun.
    rewrite (bind_Done get _ s t s s t eq_refl) in Hrun.
    destruct (shmem s) as [r|] eqn:Hr; [|injection Hrun as <- _; exact Hinv].
    pose proof Hinv as (_ & _ & _ & Hreg). rewrite Hr in Hreg.
    destruct Hreg as (G1 & G2 & G3 & G4 & _).
    destruct (con_cursor s) as [c|].
    + do 4 (erewrite (bind_Done (store _ _)) in Hrun;
            [|eapply store_run; first [eassumption|reflexivity]];
            norm_state in Hrun).
      unfold bind at 1 in Hrun.
      destruct (for_each _ _ _ _) as [[[[] s1] t1]| |] eqn:Hloop; try discriminate.
      eapply copy_cursor_state_len in Hloop; [|reflexivity].
      destruct Hloop as (d & -> & Hlen).
      erewrite atomic_fetch_add_run in Hrun by reflexivity.
      injection Hrun as <- _.
      match goal with |- display_inv (set_shmem (Some ?r') _) =>
        change (display_inv (set_shmem (Some r') s)) end.
      eapply (display_inv_region s r); [exact Hinv|exact Hr|..];
        try reflexivity; try assumption.
    + do 2 (erewrite (bind_Done (store _ _)) in Hrun;
            [|eapply store_run; first [eassumption|reflexivity]];
            norm_state in Hrun).
      erewrite atomic_fetch_add_run in Hrun by reflexivity.
      injection Hrun as <- _.
      match goal with |- display_inv (set_shmem (Some ?r') _) =>
        change (display_inv (set_shmem (Some r') s)) end.
      eapply (display_inv_region s r); [exact Hinv|exact Hr|..];
        try reflexivity; assumption.
  - (* mouse_set *)
    unfold juke_shmem_mouse_set in Hrun.
    rewrite (bind_Done get _ s t s s t eq_refl) in Hrun.
    destruct (shmem s) as [r|] eqn:Hr; [|injection Hrun as <- _; exact Hinv].
    pose proof Hinv as (_ & _ & _ & Hreg). rewrite Hr in Hreg.
    destruct Hreg as (G1 & G2 & G3 & G4 & _).
    do 3 (erewrite (bind_Done (store _ _)) in Hrun;
          [|eapply store_run; first [eassumption|reflexivity]];
          norm_state in Hrun).
    unfold emit in Hrun. injection Hrun as <- _.
    match goal with |- display_inv (set_shmem (Some ?r') _) =>
      change (display_inv (set_shmem (Some r') s)) end.
    eapply (display_inv_region s r); [exact Hinv|exact Hr|..];
      try reflexivity; assumption.
Qed.

Lemma display_step_inv s s' :
  display_inv s -> display_step host s s' -> display_inv s'.
Proof.
  intros Hinv Hstep. destruct Hstep as [op s t s' t' Hop Hrun|s r evs w Hr Hlen Hw|s c Hc|s surf d Hsf Hlen].
  - eapply run_op_inv; eassumption.
  - pose proof Hinv as (_ & _ & _ & Hreg). rewrite Hr in Hreg.
    destruct Hreg as (G1 & G2 & G3 & G4 & _).
    eapply display_inv_region; [exact Hinv|exact Hr|..]; cbn;
      try reflexivity; try assumption; congruence.
  - destruct Hinv as (Hok & _ & Hsf & Hreg).
    apply display_inv_intro; cbn; auto.
  - destruct Hinv as (Hok & Hc & Hsurf & Hreg). rewrite Hsf in Hsurf, Hreg.
    apply display_inv_intro; cbn; auto.
    unfold surface_ok in *. cbn. rewrite Hlen. exact Hsurf.
Qed.

Lemma display_init_inv con socket t s t' :
  match con with Some c => cursor_ok c | None => True end ->
  juke_shmem_init host socket (new_state con) t = Done (tt, s, t') ->
  display_inv s.
Proof.
  intros Hc Hrun.
  assert (I0 : forall p, display_inv (set_socket_path p (new_state con))).
  { intros p. apply display_inv_intro; cbn; auto.
    unfold display_ok. cbn. split; [reflexivity|]. split; [lia|reflexivity]. }
  unfold juke_shmem_init in Hrun. destruct socket as [path|].
  - rewrite (bind_Done (modify _) _ _ _ tt _ _ eq_refl) in Hrun.
    destruct (juke_shmem_connect_run host (set_socket_path (Some path) (new_state con)) t)
      as (rc & sa & tra & Hcn & _ & _ & _ & _ & _ & E1 & E2 & E3 & E4 & E5 & _ & Hcase).
    rewrite (bind_Done _ _ _ _ _ _ _ Hcn) in Hrun. injection Hrun as <- _.
    eapply display_inv_socket; [apply (I0 (Some path))|eauto..].
    destruct Hcase as [(_ & -> & _)|(_ & _ & _ & _ & _ & H6 & _)]; auto.
  - injection Hrun as <- _. apply (I0 None).
Qed.

Lemma display_reachable_inv s : display_reachable host s -> display_inv s.
Proof.
  induction 1 as [con socket t s t' Hc Hrun|s s' _ IH Hstep].
  - eapply display_init_inv; eassumption.
  - eapply display_step_inv; eassumption.
Qed.
End Invariant.

(** A cursor definition completes when the console cursor and the slot
    are in order. *)
Lemma cursor_define_done s r c t :
  shmem s = Some r -> con_cursor s = Some c -> cursor_ok c ->
  4096 <= Z.of_nat (length (cursor_data r)) ->
  exists s' t', juke_shmem_cursor_define s t = Done (tt, s', t').
Proof.
  intros Hr Hc (Hcw & Hch & Hhx & Hhy & Hdata) Hlen.
  unfold juke_shmem_cursor_define.
  rewrite (bind_Done get _ s t s s t) by reflexivity. rewrite Hr, Hc.
  unfold JUKE_CURSOR_MAX_SIZE.
  set (w := Z.min (cur_width c) 64). set (h := Z.min (cur_height c) 64).
  assert (H16 : 2 ^ 16 = 65536) by reflexivity.
  assert (Hw : 0 <= w <= 64 /\ w <= cur_width c) by (subst w; lia).
  assert (Hh : 0 <= h <= 64 /\ h <= cur_height c) by (subst h; lia).
  rewrite (wrap32_small w), (wrap32_small h)
    by (change (2 ^ 32) with 4294967296; lia).
  do 4 (erewrite (bind_Done (store _ _));
        [|eapply store_run; first [eassumption|reflexivity]]).
  match goal with
  | |- context [bind (for_each _ _) _ ?s0 ?t0] =>
      destruct (copy_cursor_run c w (Z.to_nat h) 0 s0 _ t0 eq_refl)
        as (d & Hrun & Hlen' & Hd);
        [lia | lia | lia | lia | lia | exact Hlen | |]
  end.
  { rewrite Z2Nat.id by lia.
    transitivity (cur_height c * cur_width c); [|lia].
    apply Z.mul_le_mono_nonneg_r; lia. }
  rewrite Z2Nat.id in Hrun by lia.
  change (fun y : Z => cursor_memcpy (wrap32 (y * 64)) (cur_data c)
                         (wrap32 (y * cur_width c)) w)
    with (fun y : Z => cursor_memcpy (wrap32 (y * JUKE_CURSOR_MAX_SIZE)) (cur_data c)
                         (wrap32 (y * cur_width c)) w).
  rewrite (bind_Done _ _ _ _ _ _ _ Hrun).
  erewrite atomic_fetch_add_run by first [eassumption|reflexivity].
  eauto.
Qed.

Lemma pixel_state_reachable : display_reachable alloc_host (pixel_state 0 0 0 0).
Proof.
  apply (reach_next alloc_host (new_state None)).
  - apply (reach_init alloc_host None None [] (new_state None) []); [exact I|reflexivity].
  - apply (step_callback alloc_host (OpGfxSwitch (Some pixel_surface))
             (new_state None) [] (pixel_state 0 0 0 0)
             ([EvCall (MemfdAlloc "juke-fb" (needed_size pixel_surface)) 7]
                ++ switch_events pixel_surface)).
    + exact pixel_surface_ok.
    + vm_compute. reflexivity.
Qed.

Lemma alloc_host_succeeds : alloc_succeeds alloc_host.
Proof. intros t name n. cbn. lia. Qed.

(** X18.  As long as the allocator delivers, the display stays in order
    whatever happens to it (callbacks of [juke_shmem_ops] with surfaces of
    the host, input enqueued by the renderer, cursors defined and pixels
    drawn by the guest): [shmem_size] is the size of the region that is
    mapped, the cursor slot has its 4096 pixels and the input ring its 256
    events, and a region that is there together with a surface carries the
    magic, the version and the geometry of that very surface and has room
    for all its rows. *)
Theorem display_stays_in_order (host : Host Loc) s :
  alloc_succeeds host -> display_reachable host s ->
  display_inv s /\
  forall r surf, shmem s = Some r -> surface s = Some surf ->
    describes r surf /\
    shmem_size s = region_overhead + Z.of_nat (length (pixels r)) /\
    surface_stride surf * surface_height surf <= Z.of_nat (length (pixels r)) /\
    length (cursor_data r) = Z.to_nat JUKE_CURSOR_MAX_PIXELS /\
    length (events (ring r)) = Z.to_nat JUKE_INPUT_RING_SIZE.
Proof.
  intros Halloc Hreach.
  pose proof (display_reachable_inv host Halloc s Hreach) as Hinv.
  split; [exact Hinv|].
  intros r surf Hr Hsf.
  destruct Hinv as (Hok & _ & _ & Hreg).
  unfold display_ok in Hok. rewrite Hr in Hok, Hreg. rewrite Hsf in Hreg.
  destruct Hok as (Hsz & _). destruct Hreg as (G1 & G2 & _ & _ & D & Hcap).
  auto.
Qed.

Lemma display_stays_in_order_witness :
  display_inv (pixel_state 0 0 0 0) /\
  describes (pixel_region 0 0 0 0) pixel_surface.
Proof.
  destruct (display_stays_in_order alloc_host (pixel_state 0 0 0 0)
              alloc_host_succeeds pixel_state_reachable) as (Hinv & H).
  split; [exact Hinv|].
  destruct (H (pixel_region 0 0 0 0) pixel_surface eq_refl eq_refl) as (D & _).
  exact D.
Defined.

(** X19.  In such a display no callback goes wrong: called with arguments
    in range (an update rectangle within the rows of the surface, a surface
    of the host, fuel for the input that waits), every callback of
    [juke_shmem_ops] runs to its end, without a null dereference and
    without a copy outside the surface, the cursor or the region. *)
Theorem callbacks_complete (host : Host Loc) s op t :
  alloc_succeeds host -> display_reachable host s ->
  op_in_range s op ->
  exists s' t', run_op host op s t = Done (tt, s', t').
Proof.
  intros Halloc Hreach Hop.
  pose proof (display_reachable_inv host Halloc s Hreach) as Hinv.
  pose proof Hinv as (Hok & Hc & Hsf & Hreg).
  destruct op as [x y w h|[surf|]|fuel| |x y on]; cbn [run_op op_in_range op_ok] in *.
  - (* gfx_update *)
    destruct (shmem s) as [r|] eqn:Hr.
    2:{ unfold juke_shmem_gfx_update, bind, get. rewrite Hr. unfold ret. eauto. }
    destruct (surface s) as [surf|] eqn:Hsurf.
    2:{ unfold juke_shmem_gfx_update, bind, get. rewrite Hr, Hsurf. unfold ret. eauto. }
    destruct Hop as (_ & _ & Hy & Hh & Hyh).
    destruct Hreg as (_ & _ & _ & _ & _ & Hcap).
    destruct Hsf as (_ & Hh0 & Hst & Hn & Hdata & _).
    assert (Hrows : (y + h) * surface_stride surf
                    <= surface_stride surf * surface_height surf).
    { rewrite (Z.mul_comm (surface_stride surf)).
      apply Z.mul_le_mono_nonneg_r; lia. }
    destruct (gfx_update_run s r surf x y w h t Hr Hsurf) as (d & Hrun & _).
    { unfold update_fits. repeat split; lia. }
    eauto.
  - (* gfx_switch to a surface *)
    destruct (Z_le_dec (needed_size surf) (shmem_size s)) as [Hfit|Hbig].
    + destruct (shmem s) as [r|] eqn:Hr.
      2:{ exfalso. unfold display_ok in Hok. rewrite Hr in Hok.
          destruct (needed_size_model surf Hop) as (_ & _ & E3 & Hn0).
          pose proof overhead_pos. lia. }
      destruct (gfx_switch_kept_run host s r surf t Hr Hop Hok Hfit)
        as (d & b & tr & _ & Hrun & _).
      eauto.
    + destruct (gfx_switch_realloc_run host s surf t Hop Hok ltac:(lia))
        as (s1 & _ & _ & _ & _ & _ & _ & _ & _ & _ & Hgood).
      destruct (Hgood (Halloc _ _ _)) as (d & b & tr & _ & Hrun & _).
      eauto.
  - (* gfx_switch to no surface *)
    unfold juke_shmem_gfx_switch.
    rewrite (bind_Done (modify _) _ s t tt _ t eq_refl). unfold ret. eauto.
  - (* refresh *)
    destruct (refresh_run host fuel s t) as (s' & hs & Hrun & _).
    { unfold refresh_ready. destruct (shmem s) as [r|]; [|exact I].
      destruct Hreg as (_ & G2 & G3 & G4 & _).
      split; [|exact Hop]. repeat split; lia. }
    eauto.
  - (* cursor_define *)
    destruct (shmem s) as [r|] eqn:Hr.
    2:{ unfold juke_shmem_cursor_define, bind, get. rewrite Hr. unfold ret. eauto. }
    destruct (con_cursor s) as [c|] eqn:Hcur.
    + destruct Hreg as (G1 & _).
      apply (cursor_define_done s r c t Hr Hcur Hc).
      rewrite G1. unfold JUKE_CURSOR_MAX_PIXELS, JUKE_CURSOR_MAX_SIZE. lia.
    + rewrite (cursor_define_updates_run_none s r t Hr Hcur). eauto.
  - (* mouse_set *)
    destruct (shmem s) as [r|] eqn:Hr.
    2:{ unfold juke_shmem_mouse_set, bind, get. rewrite Hr. unfold ret. eauto. }
    unfold juke_shmem_mouse_set.
    rewrite (bind_Done get _ s t s s t) by reflexivity. rewrite Hr.
    do 3 (erewrite (bind_Done (store _ _));
          [|eapply store_run; first [eassumption|reflexivity]]; norm_state).
    unfold emit. eauto.
Qed.

Lemma callbacks_complete_witness :
  exists s' t',
    run_op alloc_host (OpGfxUpdate 0 0 1 1) (pixel_state 0 0 0 0) [] = Done (tt, s', t').
Proof.
  apply (callbacks_complete alloc_host (pixel_state 0 0 0 0) (OpGfxUpdate 0 0 1 1) []
           alloc_host_succeeds pixel_state_reachable).
  cbn. lia.
Defined.

(** *** The refresh interval *)

Lemma crtc_interval_inactive i c : active c = None -> crtc_interval i c = Some i.
Proof.
  destruct c as [c|]; [|reflexivity]. unfold active, crtc_interval.
  destruct (mode_valid c =? 0); [reflexivity|]. cbn [negb andb].
  destruct (wrap32 (htotal (mode c)) >? 0); [|reflexivity].
  destruct (wrap32 (vtotal (mode c)) >? 0); [|reflexivity].
  destruct (wrap32 (clock (mode c)) >? 0); [discriminate|reflexivity].
Qed.

Lemma active_mode c m :
  active c = Some m ->
  exists c', c = Some c' /\ m = mode c' /\ (mode_valid c' =? 0) = false /\
    (wrap32 (htotal m) >? 0) = true /\ (wrap32 (vtotal m) >? 0) = true /\
    (wrap32 (clock m) >? 0) = true.
Proof.
  destruct c as [c|]; [|discriminate]. unfold active.
  destruct (mode_valid c =? 0) eqn:E0; [discriminate|]. cbn [negb andb].
  destruct (wrap32 (htotal (mode c)) >? 0) eqn:E1; [|discriminate].
  destruct (wrap32 (vtotal (mode c)) >? 0) eqn:E2; [|discriminate].
  destruct (wrap32 (clock (mode c)) >? 0) eqn:E3; [|discriminate].
  intros [= <-]. exists c. repeat split; assumption.
Qed.

Lemma int32_zero z : 0 <= z < 2 ^ 32 -> int32 z = 0 -> z = 0.
Proof.
  unfold int32. intros Hz H.
  change (2 ^ 31) with 2147483648 in *. change (2 ^ 32) with 4294967296 in *.
  destruct (Z_lt_dec z 2147483648).
  - rewrite Z.mod_small in H by lia. lia.
  - assert (E : (z + 2147483648) mod 4294967296 = z - 2147483648).
    { symmetry. apply (Z.mod_unique_pos _ _ 1). lia. lia. }
    lia.
Qed.

Lemma crtc_interval_active i c m :
  active c = Some m -> at_least_one_hertz m ->
  crtc_interval i c =
    Some (if (mode_interval m >? 0) && ((i =? 0) || (mode_interval m <? i))
          then mode_interval m else i).
Proof.
  intros Ha (Hden & Hclk & Hhz).
  destruct (active_mode c m Ha) as (c' & -> & -> & Hv & H1 & H2 & H3).
  unfold crtc_interval. rewrite Hv, H1, H2, H3. cbn [andb].
  set (h := wrap32 (htotal (mode c'))) in *.
  set (v := wrap32 (vtotal (mode c'))) in *.
  set (k := wrap32 (clock (mode c'))) in *.
  assert (Ed : wrap32 (h * v) = h * v) by (apply wrap32_small; lia).
  assert (Ek : wrap32 (k * 1000) = k * 1000).
  { apply wrap32_small. apply Z.gtb_lt in H3. lia. }
  unfold mode_interval. fold h v k. rewrite Ed, Ek.
  destruct (h * v =? 0) eqn:E0; [lia|].
  assert (Hq : 1 <= k * 1000 / (h * v) < 2 ^ 32).
  { split.
    - apply Z.div_le_lower_bound; lia.
    - apply Z.div_lt_upper_bound; [lia|]. nia. }
  destruct (int32 (k * 1000 / (h * v)) =? 0) eqn:E1.
  { apply Z.eqb_eq in E1. apply int32_zero in E1; lia. }
  destruct (_ && _); reflexivity.
Qed.

Lemma crtc_interval_below i c m :
  active c = Some m -> below_one_hertz m -> crtc_interval i c = None.
Proof.
  intros Ha (Hlt & Hden).
  destruct (active_mode c m Ha) as (c' & -> & -> & Hv & H1 & H2 & H3).
  unfold crtc_interval. rewrite Hv, H1, H2, H3. cbn [andb].
  set (h := wrap32 (htotal (mode c'))) in *.
  set (v := wrap32 (vtotal (mode c'))) in *.
  set (k := wrap32 (clock (mode c'))) in *.
  apply Z.gtb_lt in H1, H2, H3.
  assert (Ed : wrap32 (h * v) = h * v) by (apply wrap32_small; nia).
  rewrite Ed.
  destruct (h * v =? 0); [reflexivity|].
  assert (Hk : 0 <= wrap32 (k * 1000) <= k * 1000).
  { unfold wrap32. split; [apply Z.mod_pos_bound; lia|].
    apply Z.mod_le; lia. }
  rewrite (Z.div_small (wrap32 (k * 1000)) (h * v)) by lia.
  reflexivity.
Qed.

(** The scan of the CRTCs of a card whose active modes are all in order:
    it ends, and keeps the smallest positive interval seen. *)
Lemma scan_crtcs_sane crtcs : forall i,
  0 <= i ->
  (forall c m, In c crtcs -> active c = Some m -> at_least_one_hertz m) ->
  exists j, scan_crtcs crtcs i = Some j /\ 0 <= j /\
    (0 < i -> 0 < j <= i) /\
    (j = i \/ exists c m, In c crtcs /\ active c = Some m /\ mode_interval m = j) /\
    (forall c m, In c crtcs -> active c = Some m -> 0 < mode_interval m ->
       0 < j <= mode_interval m).
Proof.
  induction crtcs as [|c crtcs IH]; intros i Hi Hsane.
  - exists i. cbn. split; [reflexivity|]. split; [exact Hi|].
    split; [lia|]. split; [left; reflexivity|]. intros ? ? [].
  - cbn [scan_crtcs].
    destruct (active c) as [m|] eqn:Ha.
    + rewrite (crtc_interval_active i c m Ha) by (eapply Hsane; [left; reflexivity|exact Ha]).
      set (i' := if (mode_interval m >? 0) && ((i =? 0) || (mode_interval m <? i))
                 then mode_interval m else i).
      assert (Hi' : 0 <= i' /\ (0 < i -> 0 < i' <= i) /\
                    (i' = i \/ i' = mode_interval m) /\
                    (0 < mode_interval m -> 0 < i' <= mode_interval m)).
      { subst i'.
        destruct (mode_interval m >? 0) eqn:E1; cbn [andb];
          [apply Z.gtb_lt in E1|rewrite Z.gtb_ltb, Z.ltb_ge in E1].
        - destruct (i =? 0) eqn:E2; cbn [orb];
            [apply Z.eqb_eq in E2|apply Z.eqb_neq in E2].
          + repeat split; lia.
          + destruct (mode_interval m <? i) eqn:E3;
              [apply Z.ltb_lt in E3|apply Z.ltb_ge in E3];
              repeat split; lia.
        - repeat split; lia. }
      destruct Hi' as (P1 & P2 & P3 & P4).
      destruct (IH i' P1) as (j & Hrun & Q1 & Q2 & Q3 & Q4).
      { intros c0 m0 Hin. apply Hsane. right. exact Hin. }
      exists j. split; [exact Hrun|]. split; [exact Q1|]. split; [|split].
      * intros Hpos. specialize (P2 Hpos). specialize (Q2 ltac:(lia)). lia.
      * destruct Q3 as [->|(c0 & m0 & Hin & Ha0 & E)].
        -- destruct P3 as [->| ->]; [left; reflexivity|].
           right. exists c, m. split; [left; reflexivity|]. auto.
        -- right. exists c0, m0. split; [right; exact Hin|]. auto.
      * intros c0 m0 [<-|Hin] Ha0 Hpos.
        -- rewrite Ha in Ha0. injection Ha0 as <-.
           specialize (P4 Hpos). specialize (Q2 ltac:(lia)). lia.
        -- eapply Q4; eassumption.
    + rewrite (crtc_interval_inactive i c Ha).
      destruct (IH i Hi) as (j & Hrun & Q1 & Q2 & Q3 & Q4).
      { intros c0 m0 Hin. apply Hsane. right. exact Hin. }
      exists j. split; [exact Hrun|]. split; [exact Q1|]. split; [exact Q2|]. split.
      * destruct Q3 as [->|(c0 & m0 & Hin & Ha0 & E)]; [left; reflexivity|].
        right. exists c0, m0. split; [right; exact Hin|]. auto.
      * intros c0 m0 [<-|Hin] Ha0 Hpos; [congruence|]. eapply Q4; eassumption.
Qed.

Lemma scan_crtcs_inactive crtcs : forall i,
  (forall c, In c crtcs -> active c = None) -> scan_crtcs crtcs i = Some i.
Proof.
  induction crtcs as [|c crtcs IH]; intros i H; [reflexivity|].
  cbn [scan_crtcs]. rewrite crtc_interval_inactive by (apply H; left; reflexivity).
  apply IH. intros c0 Hin. apply H. right. exact Hin.
Qed.

(** One mode below 1 Hz among the CRTCs of a card stops the scan, wherever
    it stands. *)
Lemma scan_crtcs_below crtcs : forall i c m,
  In c crtcs -> active c = Some m -> below_one_hertz m ->
  scan_crtcs crtcs i = None.
Proof.
  induction crtcs as [|c0 crtcs IH]; intros i c m Hin Ha Hb; [destruct Hin|].
  cbn [scan_crtcs]. destruct Hin as [->|Hin].
  - rewrite (crtc_interval_below i c m Ha Hb). reflexivity.
  - destruct (crtc_interval i c0); [|reflexivity]. eapply IH; eassumption.
Qed.

Lemma scan_cards_unscanned e rest i :
  scanned e = false -> scan_cards (e :: rest) i = scan_cards rest i.
Proof.
  unfold scanned. intros H. cbn [scan_cards].
  destruct (String.prefix "card" (d_name e)); [|reflexivity].
  cbn [negb andb] in *. apply Z.leb_gt in H.
  rewrite (proj2 (Z.ltb_lt _ _) H). reflexivity.
Qed.

Lemma scan_cards_scanned e rest i :
  scanned e = true ->
  scan_cards (e :: rest) i =
    match scan_crtcs (crtcs_of e) i with
    | None => None
    | Some j => if j >? 0 then Some j else scan_cards rest j
    end.
Proof.
  unfold scanned, crtcs_of. intros H. cbn [scan_cards].
  apply andb_true_iff in H as (H1 & H2). rewrite H1. cbn [negb].
  apply Z.leb_le in H2. rewrite (proj2 (Z.ltb_ge _ _) H2).
  destruct (resources e); reflexivity.
Qed.

Lemma scan_cards_idle pre : forall l,
  Forall idle pre -> scan_cards (pre ++ l) 0 = scan_cards l 0.
Proof.
  induction pre as [|e pre IH]; intros l H; [reflexivity|].
  apply Forall_cons in H as (He & Hpre). cbn [app].
  destruct (scanned e) eqn:Hs.
  - destruct He as [He|He]; [congruence|].
    rewrite (scan_cards_scanned e _ 0 Hs), (scan_crtcs_inactive _ 0 He).
    cbn. apply IH. exact Hpre.
  - rewrite (scan_cards_unscanned e _ 0 Hs). apply IH. exact Hpre.
Qed.

(** The scan of a directory whose cards are all in order. *)
Lemma scan_cards_sane entries :
  modes_sane entries ->
  exists j, scan_cards entries 0 = Some j /\ 0 <= j /\
    (j = 0 \/ exists e c m, In e entries /\ scanned e = true /\
       In c (crtcs_of e) /\ active c = Some m /\ mode_interval m = j).
Proof.
  induction entries as [|e entries IH]; intros Hsane.
  - exists 0. cbn. split; [reflexivity|]. split; [lia|]. left; reflexivity.
  - assert (Hrest : modes_sane entries).
    { intros e0 c m Hin. apply Hsane. right. exact Hin. }
    destruct (IH Hrest) as (j & Hrun & Hj & Hfrom).
    assert (Hlift : j = 0 \/ exists e0 c m, In e0 (e :: entries) /\ scanned e0 = true /\
       In c (crtcs_of e0) /\ active c = Some m /\ mode_interval m = j).
    { destruct Hfrom as [->|(e0 & c & m & Hin & H)]; [left; reflexivity|].
      right. exists e0, c, m. split; [right; exact Hin|exact H]. }
    destruct (scanned e) eqn:Hs.
    + rewrite (scan_cards_scanned e _ 0 Hs).
      destruct (scan_crtcs_sane (crtcs_of e) 0 ltac:(lia)) as (i & Hi & P1 & _ & P3 & _).
      { intros c m Hin. apply (Hsane e c m); [left; reflexivity|exact Hs|exact Hin]. }
      rewrite Hi. destruct (i >? 0) eqn:Hpos.
      * exists i. split; [reflexivity|]. split; [exact P1|].
        destruct P3 as [->|(c & m & Hin & Ha & E)]; [left; reflexivity|].
        right. exists e, c, m. split; [left; reflexivity|]. auto.
      * rewrite Z.gtb_ltb, Z.ltb_ge in Hpos. assert (i = 0) as -> by lia.
        exists j. auto.
    + rewrite (scan_cards_unscanned e _ 0 Hs). exists j. auto.
Qed.

(** Cards that are in order and none of which the scan stops at are
    passed over. *)
Lemma scan_cards_pass pre : forall l,
  modes_sane pre -> (forall e, In e pre -> ~ usable e) ->
  scan_cards (pre ++ l) 0 = scan_cards l 0.
Proof.
  induction pre as [|e pre IH]; intros l Hsane Hno; [reflexivity|].
  assert (Hrest : scan_cards (pre ++ l) 0 = scan_cards l 0).
  { apply IH.
    - intros e0 c m Hin. apply Hsane. right. exact Hin.
    - intros e0 Hin. apply Hno. right. exact Hin. }
  cbn [app]. destruct (scanned e) eqn:Hs.
  - rewrite (scan_cards_scanned e _ 0 Hs).
    destruct (scan_crtcs_sane (crtcs_of e) 0 ltac:(lia)) as (j & Hj & P1 & _ & P3 & _).
    { intros c m Hin. apply (Hsane e c m); [left; reflexivity|exact Hs|exact Hin]. }
    rewrite Hj.
    assert (j = 0) as ->.
    { destruct P3 as [->|(c & m & Hin & Ha & E)]; [reflexivity|].
      destruct (Z.eq_dec j 0) as [->|Hne]; [reflexivity|].
      exfalso. apply (Hno e (or_introl eq_refl)).
      split; [exact Hs|]. exists c, m. split; [exact Hin|]. split; [exact Ha|]. lia. }
    cbn. exact Hrest.
  - rewrite (scan_cards_unscanned e _ 0 Hs). exact Hrest.
Qed.

(** Among cards that are in order the scan stops at the first it can stop
    at, and does not read what follows. *)
Lemma scan_cards_stops used : forall rest,
  modes_sane used -> (exists e, In e used /\ usable e) ->
  exists j, scan_cards (used ++ rest) 0 = Some j /\ 0 < j /\
    exists e c m, In e used /\ scanned e = true /\
      In c (crtcs_of e) /\ active c = Some m /\ mode_interval m = j.
Proof.
  induction used as [|e used IH]; intros rest Hsane (eu & Hin & Hu);
    [destruct Hin|].
  assert (Hlater : In eu used ->
            exists j, scan_cards (used ++ rest) 0 = Some j /\ 0 < j /\
              exists e0 c m, In e0 (e :: used) /\ scanned e0 = true /\
                In c (crtcs_of e0) /\ active c = Some m /\ mode_interval m = j).
  { intros Hin'.
    destruct (IH rest) as (j & Hj & Hpos & e0 & c & m & Hin0 & H).
    - intros e0 c m Hin0. apply Hsane. right. exact Hin0.
    - exists eu. auto.
    - exists j. split; [exact Hj|]. split; [exact Hpos|].
      exists e0, c, m. split; [right; exact Hin0|exact H]. }
  cbn [app]. destruct (scanned e) eqn:Hs.
  - rewrite (scan_cards_scanned e _ 0 Hs).
    destruct (scan_crtcs_sane (crtcs_of e) 0 ltac:(lia))
      as (j & Hj & P1 & _ & P3 & P4).
    { intros c m Hin0. apply (Hsane e c m); [left; reflexivity|exact Hs|exact Hin0]. }
    rewrite Hj. destruct (j >? 0) eqn:Hpos.
    + apply Z.gtb_lt in Hpos. exists j. split; [reflexivity|]. split; [exact Hpos|].
      destruct P3 as [->|(c & m & Hin0 & Ha & E)]; [lia|].
      exists e, c, m. split; [left; reflexivity|]. auto.
    + rewrite Z.gtb_ltb, Z.ltb_ge in Hpos. assert (j = 0) as -> by lia.
      apply Hlater. destruct Hin as [->|Hin]; [|exact Hin].
      exfalso. destruct Hu as (_ & c & m & Hin0 & Ha & Hm).
      pose proof (P4 c m Hin0 Ha Hm). lia.
  - rewrite (scan_cards_unscanned e _ 0 Hs).
    apply Hlater. destruct Hin as [->|Hin]; [|exact Hin].
    destruct Hu as (Hs' & _). congruence.
Qed.

Lemma fast_card_not_usable : ~ usable fast_card.
Proof.
  intros (_ & c & m & [<-|[]] & Ha & Hpos). injection Ha as <-.
  vm_compute in Hpos. discriminate Hpos.
Qed.

Lemma other_entry_not_usable name :
  String.prefix "card" name = false -> ~ usable (other_entry name).
Proof. intros Hn (Hs & _). unfold scanned in Hs. cbn in Hs. rewrite Hn in Hs. discriminate. Qed.

(** The sample directory up to its first card, with the 2000 Hz card in
    front of it. *)
Lemma sample_head_sane :
  modes_sane ([other_entry "."; fast_card] ++ [one_card "card0" 148500 2200 1125]).
Proof.
  intros e c m Hin Hs Hc Ha.
  destruct Hin as [<-|[<-|[<-|[]]]]; try discriminate Hs;
    (destruct Hc as [<-|[]]; injection Ha as <-);
    vm_compute; intuition discriminate.
Qed.

Lemma card0_usable : usable (one_card "card0" 148500 2200 1125).
Proof.
  split; [reflexivity|].
  exists (Some {| mode_valid := 1; mode := mode_60 |}), mode_60.
  split; [left; reflexivity|]. split; reflexivity.
Qed.

(** X20.  Let the listing of /dev/dri split into the entries the scan
    reads and the rest, that is: every active mode of the cards it can open
    among the first refreshes at least once a second, and the rest is empty
    or comes after a card the scan stops at.  Then
    [juke_shmem_setup_refresh] hands [update_displaychangelistener] an
    interval of 1 to 99 ms: the fallback of 8 ms, or the interval of an
    active mode of a card it opened.  The same holds without /dev/dri. *)
Theorem setup_refresh_interval dri :
  (forall entries, dri = Some entries ->
     exists used rest, entries = used ++ rest /\ modes_sane used /\
       (rest = [] \/ exists e, In e used /\ usable e)) ->
  exists i, juke_shmem_setup_refresh dri = Some i /\ 0 < i < 100 /\
    (i = 8 \/
     exists entries e c m, dri = Some entries /\ In e entries /\ scanned e = true /\
       In c (crtcs_of e) /\ active c = Some m /\ mode_interval m = i).
Proof.
  intros Hsplit. destruct dri as [entries|].
  - destruct (Hsplit entries eq_refl) as (used & rest & -> & Hsane & Hend).
    assert (exists j, scan_cards (used ++ rest) 0 = Some j /\ 0 <= j /\
              (j = 0 \/ exists e c m, In e used /\ scanned e = true /\
                 In c (crtcs_of e) /\ active c = Some m /\ mode_interval m = j))
      as (j & Hrun & Hj & Hfrom).
    { destruct Hend as [->|Hstop].
      - rewrite app_nil_r. apply scan_cards_sane. exact Hsane.
      - destruct (scan_cards_stops used rest Hsane Hstop) as (j & Hj & Hpos & H).
        exists j. split; [exact Hj|]. split; [lia|]. right. exact H. }
    unfold juke_shmem_setup_refresh. rewrite Hrun.
    destruct ((j >? 0) && (j <? 100)) eqn:E.
    + apply andb_true_iff in E as (E1 & E2).
      apply Z.gtb_lt in E1. apply Z.ltb_lt in E2.
      exists j. split; [reflexivity|]. split; [lia|].
      destruct Hfrom as [->|(e & c & m & Hin & H)]; [lia|].
      right. exists (used ++ rest), e, c, m.
      split; [reflexivity|]. split; [apply in_or_app; left; exact Hin|exact H].
    + exists 8. split; [reflexivity|]. split; [lia|]. left; reflexivity.
  - exists 8. split; [reflexivity|]. split; [lia|]. left; reflexivity.
Qed.

Lemma setup_refresh_interval_witness :
  exists i,
    juke_shmem_setup_refresh
      (Some (([other_entry "."; fast_card] ++ [one_card "card0" 148500 2200 1125])
             ++ [slow_card])) = Some i /\ 0 < i < 100 /\
    (i = 8 \/
     exists entries e c m,
       Some (([other_entry "."; fast_card] ++ [one_card "card0" 148500 2200 1125])
             ++ [slow_card]) = Some entries /\
       In e entries /\ scanned e = true /\
       In c (crtcs_of e) /\ active c = Some m /\ mode_interval m = i).
Proof.
  apply (setup_refresh_interval
           (Some (([other_entry "."; fast_card] ++ [one_card "card0" 148500 2200 1125])
                  ++ [slow_card]))).
  intros entries [= <-].
  exists ([other_entry "."; fast_card] ++ [one_card "card0" 148500 2200 1125]), [slow_card].
  split; [reflexivity|]. split; [exact sample_head_sane|].
  right. exists (one_card "card0" 148500 2200 1125).
  split; [right; right; left; reflexivity|exact card0_usable].
Defined.

(** X21.  Let [e] be the first card, in directory order, that the scan
    stops at (it can be opened and has an active mode with a positive
    interval), every active mode of the cards up to and including [e]
    refreshing at least once a second.  Then the interval is the smallest
    positive interval among the active modes of [e] (the fallback of 8 ms
    when that is 100 ms or more), whatever the entries after [e] hold: a
    faster monitor on a later card is not looked at. *)
Theorem setup_refresh_first_card pre e rest :
  modes_sane (pre ++ [e]) ->
  (forall e', In e' pre -> ~ usable e') ->
  usable e ->
  exists b,
    juke_shmem_setup_refresh (Some (pre ++ e :: rest))
      = Some (if b <? 100 then b else 8) /\
    0 < b /\
    (exists c' m', In c' (crtcs_of e) /\ active c' = Some m' /\ mode_interval m' = b) /\
    (forall c' m', In c' (crtcs_of e) -> active c' = Some m' ->
       0 < mode_interval m' -> b <= mode_interval m').
Proof.
  intros Hsane Hpre (Hs & c & m & Hin & Ha & Hpos).
  assert (Hsane_pre : modes_sane pre).
  { intros e0 c0 m0 Hin0. apply Hsane. apply in_or_app. left. exact Hin0. }
  assert (Hsane_e : forall c' m', In c' (crtcs_of e) -> active c' = Some m' ->
                      at_least_one_hertz m').
  { intros c' m' Hin' Ha'. apply (Hsane e c' m'); [|exact Hs|exact Hin'|exact Ha'].
    apply in_or_app. right. left. reflexivity. }
  destruct (scan_crtcs_sane (crtcs_of e) 0 ltac:(lia) Hsane_e)
    as (j & Hrun & _ & _ & Hfrom & Hmin).
  pose proof (Hmin c m Hin Ha Hpos) as Hj.
  exists j. split; [|split; [lia|split]].
  - unfold juke_shmem_setup_refresh.
    rewrite (scan_cards_pass pre _ Hsane_pre Hpre), (scan_cards_scanned e rest 0 Hs), Hrun.
    rewrite (proj2 (Z.gtb_lt j 0)) by lia. rewrite (proj2 (Z.gtb_lt j 0)) by lia.
    cbn [andb]. destruct (j <? 100); reflexivity.
  - destruct Hfrom as [->|H]; [lia|exact H].
  - intros c' m' Hin' Ha' Hpos'. apply (Hmin c' m' Hin' Ha' Hpos').
Qed.

Lemma setup_refresh_first_card_witness :
  exists b,
    juke_shmem_setup_refresh
      (Some ([other_entry "."; fast_card]
             ++ one_card "card0" 148500 2200 1125 :: [one_card "card1" 297000 2200 1125]))
      = Some (if b <? 100 then b else 8) /\
    0 < b /\
    (exists c' m', In c' (crtcs_of (one_card "card0" 148500 2200 1125)) /\
       active c' = Some m' /\ mode_interval m' = b) /\
    (forall c' m', In c' (crtcs_of (one_card "card0" 148500 2200 1125)) ->
       active c' = Some m' -> 0 < mode_interval m' -> b <= mode_interval m').
Proof.
  apply (setup_refresh_first_card [other_entry "."; fast_card]
           (one_card "card0" 148500 2200 1125) [one_card "card1" 297000 2200 1125]).
  - exact sample_head_sane.
  - intros e' [<-|[<-|[]]];
      [apply other_entry_not_usable; reflexivity|exact fast_card_not_usable].
  - exact card0_usable.
Defined.

(** X22.  An active mode below 1 Hz on the first card that has an active
    CRTC makes the function divide by zero: the refresh rate it computes
    is the integer 0, and the interval is 1000 divided by it. *)
Theorem setup_refresh_divides_by_zero pre e rest c m :
  Forall idle pre -> scanned e = true ->
  In c (crtcs_of e) -> active c = Some m -> below_one_hertz m ->
  juke_shmem_setup_refresh (Some (pre ++ e :: rest)) = None.
Proof.
  intros Hpre Hs Hin Ha Hb. unfold juke_shmem_setup_refresh.
  rewrite (scan_cards_idle pre _ Hpre), (scan_cards_scanned e rest 0 Hs).
  rewrite (scan_crtcs_below (crtcs_of e) 0 c m Hin Ha Hb). reflexivity.
Qed.

Lemma setup_refresh_divides_by_zero_witness :
  juke_shmem_setup_refresh
    (Some ([other_entry "."] ++ one_card "card0" 1 100 100 :: [])) = None.
Proof.
  apply (setup_refresh_divides_by_zero [other_entry "."] (one_card "card0" 1 100 100) []
           (Some {| mode_valid := 1;
                    mode := {| htotal := 100; vtotal := 100; clock := 1 |} |})
           {| htotal := 100; vtotal := 100; clock := 1 |}).
  - repeat constructor.
  - reflexivity.
  - left. reflexivity.
  - reflexivity.
  - vm_compute. intuition discriminate.
Defined.
End DisplayFacts.
